(** * A shallow embedding of [coder.py]

    The chat driver [Coder] of [coder.py] is embedded as Rocq functions:
    pure helpers become functions on strings, the methods of [Coder] become
    computations in a state-and-exception monad over an explicit world (the
    object's attributes, the files on disk, and a script of what the user and
    the model services answer). *)

From Stdlib Require Import Ascii String List ZArith Lia Bool.
From stdpp Require Import gmap strings list fin_maps.
Import ListNotations.

Local Open Scope bool_scope.

(** ** Python strings

    A [str] is a sequence of code points; the code points below 256 are
    modelled, one [ascii] each. *)

Definition str := list ascii.

(** A string literal. *)
Definition s (lit : string) : str := list_ascii_of_string lit.

Definition code (c : ascii) : N := N_of_ascii c.

Definition between (lo hi : N) (c : ascii) : bool :=
  (lo <=? code c)%N && (code c <=? hi)%N.

Definition is_char (n : N) (c : ascii) : bool := (code c =? n)%N.

(** [str.isspace] on one code point. *)
Definition isspace (c : ascii) : bool :=
  between 9 13 c || between 28 32 c || is_char 133 c || is_char 160 c.

(** The line boundaries of [str.splitlines]. *)
Definition is_line_boundary (c : ascii) : bool :=
  between 10 13 c || between 28 30 c || is_char 133 c.

(** [[a-zA-Z]]. *)
Definition is_ascii_letter (c : ascii) : bool :=
  between 65 90 c || between 97 122 c.

(** The class [\w] of a [str] pattern: alphanumeric code points and [_]. *)
Definition isword (c : ascii) : bool :=
  is_ascii_letter c || between 48 57 c || is_char 95 c
  || is_char 170 c || is_char 178 c || is_char 179 c || is_char 181 c
  || is_char 185 c || is_char 186 c || between 188 190 c
  || between 192 214 c || between 216 246 c || between 248 255 c.

(** [str.lower] on one code point. *)
Definition lower_char (c : ascii) : ascii :=
  if between 65 90 c || between 192 214 c || between 216 222 c
  then ascii_of_N (code c + 32) else c.

Definition lower (x : str) : str := map lower_char x.

Definition LF : ascii := ascii_of_N 10.
Definition CR : ascii := ascii_of_N 13.

Definition str_eqb (x y : str) : bool := bool_decide (x = y).

(** [s.startswith(prefix)] and [s.endswith(suffix)]. *)
Fixpoint startswith (x pre : str) {struct pre} : bool :=
  match pre, x with
  | [], _ => true
  | p :: pre', c :: x' => Ascii.eqb c p && startswith x' pre'
  | _ :: _, [] => false
  end.

Definition endswith (x suf : str) : bool := startswith (rev x) (rev suf).

(** [s.lstrip], [s.rstrip] and [s.strip], for the characters that satisfy
    [p]; without argument Python strips white space. *)
Fixpoint lstrip_with (p : ascii -> bool) (x : str) : str :=
  match x with
  | c :: x' => if p c then lstrip_with p x' else x
  | [] => []
  end.

Definition rstrip_with (p : ascii -> bool) (x : str) : str :=
  rev (lstrip_with p (rev x)).

Definition strip_with (p : ascii -> bool) (x : str) : str :=
  rstrip_with p (lstrip_with p x).

Definition strip (x : str) : str := strip_with isspace x.

Definition strip_chars (chars : str) (x : str) : str :=
  strip_with (fun c => bool_decide (c ∈ chars)) x.

(** [sep.join(parts)]. *)
Fixpoint join (sep : str) (parts : list str) : str :=
  match parts with
  | [] => []
  | [p] => p
  | p :: rest => p ++ sep ++ join sep rest
  end.

(** [s.splitlines()]: [cur] is the current line, reversed; [after_cr] tells
    that the previous character was a carriage return, so that a line feed
    that follows belongs to the same boundary. *)
Fixpoint splitlines_from (after_cr : bool) (cur : str) (x : str) : list str :=
  match x with
  | [] => match cur with [] => [] | _ => [rev cur] end
  | c :: x' =>
      if Ascii.eqb c LF && after_cr then splitlines_from false [] x'
      else if is_line_boundary c
           then rev cur :: splitlines_from (Ascii.eqb c CR) [] x'
           else splitlines_from false (c :: cur) x'
  end.

Definition splitlines (x : str) : list str := splitlines_from false [] x.

(** [s.split(sep)] for a one-character separator. *)
Fixpoint split_from (sep : ascii) (cur : str) (x : str) : list str :=
  match x with
  | [] => [rev cur]
  | c :: x' =>
      if Ascii.eqb c sep then rev cur :: split_from sep [] x'
      else split_from sep (c :: cur) x'
  end.

(** [Path(p).name] on a POSIX system: the last component of the path, where
    empty components and [.] do not count. *)
Definition path_parts (p : str) : list str :=
  filter (fun part => part ≠ [] ∧ part ≠ s ".") (split_from "/"%char [] p).

Definition Path_name (p : str) : str := List.last (path_parts p) [].

(** ** Exceptions and results *)

Inductive exn :=
| IndexError | ValueError | FileNotFoundError | AttributeError
| AssertionError | GitCommandError | KeyboardInterrupt.

Inductive result (A : Type) :=
| Ok (a : A)
| Raise (e : exn).
Arguments Ok {A} a.
Arguments Raise {A} e.

Definition rbind {A B} (r : result A) (k : A -> result B) : result B :=
  match r with
  | Ok a => k a
  | Raise e => Raise e
  end.

(** [l[0]], [l[-1]], [l[1:]] and [l[1:-1]] on a Python list. *)
Definition item0 {A} (l : list A) : result A :=
  match l with
  | [] => Raise IndexError
  | a :: _ => Ok a
  end.

Definition item_last {A} (l : list A) : result A :=
  match rev l with
  | [] => Raise IndexError
  | a :: _ => Ok a
  end.

Definition slice_from1 {A} (l : list A) : list A := tl l.

Definition slice_1_m1 {A} (l : list A) : list A := removelast (tl l).

(** The [fname] argument of [strip_quoted_wrapping]: absent ([None]), a
    [str], or a [Path] object.  An empty [str] is false, a [Path] is always
    true. *)
Inductive pyname :=
| NoName
| StrName (p : str)
| PathName (p : str).

Definition name_truthy (f : pyname) : bool :=
  match f with
  | NoName => false
  | StrName p => negb (str_eqb p [])
  | PathName _ => true
  end.

Definition name_path (f : pyname) : str :=
  match f with
  | NoName => []
  | StrName p => p
  | PathName p => p
  end.

Definition fence : str := s "```".

(** A line feed is added to a text that is not empty and does not end with
    one. *)
Definition add_final_newline (res : str) : str :=
  match rev res with
  | [] => res
  | c :: _ => if Ascii.eqb c LF then res else res ++ [LF]
  end.

(** [Coder.strip_quoted_wrapping]. *)
Definition strip_quoted_wrapping (res : str) (fname : pyname) : result str :=
  match res with
  | [] => Ok res
  | _ =>
      let res := splitlines res in
      rbind (if name_truthy fname
             then rbind (item0 res) (fun r0 =>
                    Ok (if endswith (strip r0) (Path_name (name_path fname))
                        then slice_from1 res else res))
             else Ok res) (fun res =>
      rbind (item0 res) (fun r0 =>
      rbind (if startswith r0 fence
             then rbind (item_last res) (fun rl =>
                    Ok (if startswith rl fence then slice_1_m1 res else res))
             else Ok res) (fun res =>
      let res := join [LF] res in
      Ok (add_final_newline res))))
  end.

(** ** Regular expressions

    The fragment of Python's [re] that [Coder.pattern] uses, with the
    backtracking semantics of the [re] module: a greedy repetition tries one
    more iteration before it tries to go on, a lazy one goes on first, and an
    alternative tries its left branch first.  The flags are those of
    [Coder.pattern]: with [re.MULTILINE], [^] matches at the start of the text
    and after every line feed; with [re.DOTALL], [.] matches every
    character. *)

Inductive regex :=
| Eps
| Chr (p : ascii -> bool)
| Seq (a b : regex)
| Alt (a b : regex)
| Star (greedy : bool) (a : regex)
| Bol
| Group (n : nat) (a : regex).

Definition Cat (l : list regex) : regex := fold_right Seq Eps l.
Definition Lit (x : str) : regex := Cat (map (fun c => Chr (Ascii.eqb c)) x).
Definition Opt (a : regex) : regex := Alt a Eps.
Definition Plus (a : regex) : regex := Seq a (Star true a).

(** The state of a match attempt: the character before the current position,
    the text from the current position on, and the groups captured so far
    (the most recent capture of a group first). *)
Record mstate := MState {
  prev : option ascii;
  rest : str;
  groups : list (nat * str) }.

(** The start of a line: no character before, or a line feed. *)
Definition is_bol (before : option ascii) : bool :=
  match before with
  | None => true
  | Some c => Ascii.eqb c LF
  end.

Definition at_bol (st : mstate) : bool := is_bol (prev st).

(** The text between two states of one attempt. *)
Definition consumed (st st' : mstate) : str :=
  firstn (length (rest st) - length (rest st')) (rest st).

Definition set_group (n : nat) (st st' : mstate) : mstate :=
  MState (prev st') (rest st') ((n, consumed st st') :: groups st').

Section Matcher.
Context {R : Type}.

Definition orelse (a : option R) (b : unit -> option R) : option R :=
  match a with
  | Some r => Some r
  | None => b tt
  end.

(** A repetition of [body]: an iteration that consumes nothing is not
    repeated. *)
Fixpoint star_loop (greedy : bool)
    (body : mstate -> (mstate -> option R) -> option R)
    (fuel : nat) (st : mstate) (k : mstate -> option R) : option R :=
  match fuel with
  | 0 => k st
  | S fuel' =>
      let more (_ : unit) :=
        body st (fun st' =>
          if length (rest st') <? length (rest st)
          then star_loop greedy body fuel' st' k
          else None) in
      if greedy then orelse (more tt) (fun _ => k st)
      else orelse (k st) more
  end.

(** [mtch a st k]: match [a] from [st], then go on with [k]; the first
    success in backtracking order. *)
Fixpoint mtch (a : regex) (st : mstate) (k : mstate -> option R) : option R :=
  match a with
  | Eps => k st
  | Chr p =>
      match rest st with
      | c :: x => if p c then k (MState (Some c) x (groups st)) else None
      | [] => None
      end
  | Seq a b => mtch a st (fun st' => mtch b st' k)
  | Alt a b => orelse (mtch a st k) (fun _ => mtch b st k)
  | Star greedy a => star_loop greedy (mtch a) (length (rest st)) st k
  | Bol => if at_bol st then k st else None
  | Group n a => mtch a st (fun st' => k (set_group n st st'))
  end.
End Matcher.

(** ** The edit-block pattern *)

Definition any_char (c : ascii) : bool := true.
Definition nonspace (c : ascii) : bool := negb (isspace c).
(** [[\w\s.-]] *)
Definition dir_char (c : ascii) : bool :=
  isword c || isspace c || Ascii.eqb c "."%char || Ascii.eqb c "-"%char.
Definition BACKSLASH : ascii := ascii_of_N 92.
Definition DQUOTE : ascii := ascii_of_N 34.

(** The class of the two path separators, backslash and slash. *)
Definition is_sep (c : ascii) : bool :=
  Ascii.eqb c BACKSLASH || Ascii.eqb c "/"%char.

(** [^```\S*\s*] *)
Definition fence_re : regex :=
  Cat [Bol; Lit fence; Star true (Chr nonspace); Star true (Chr isspace)].

(** The path: an optional drive or root, directories each closed by a
    separator, a name of word characters, and an optional extension (group
    3). *)
Definition path_re : regex :=
  Cat [Opt (Alt (Cat [Chr is_ascii_letter; Lit [":"%char; BACKSLASH]]) (Lit (s "/")));
       Star true (Cat [Plus (Chr dir_char); Chr is_sep]);
       Plus (Chr isword);
       Opt (Group 3 (Cat [Lit (s "."); Plus (Chr isword)]))].

Definition ORIGINAL : str := s "<<<<<<< ORIGINAL" ++ [LF].
Definition DIVIDER : str := s "=======" ++ [LF].
Definition UPDATED : str := s ">>>>>>> UPDATED".

(** [Coder.pattern]. *)
Definition pattern : regex :=
  Cat [Opt (Group 1 fence_re);
       Bol; Group 2 path_re;
       Plus (Chr isspace);
       Opt (Group 4 fence_re);
       Bol; Lit ORIGINAL;
       Group 5 (Cat [Star false (Chr any_char); Opt (Chr (Ascii.eqb LF))]);
       Bol; Lit DIVIDER;
       Group 6 (Star false (Chr any_char));
       Bol; Lit UPDATED].

(** A match object: [groups()] and [group()]. *)
Record rmatch := RMatch {
  m_groups : list (nat * str);
  m_group0 : str }.

Definition group (n : nat) (m : rmatch) : option str :=
  snd <$> List.find (fun g => Nat.eqb (fst g) n) (m_groups m).

(** [re.finditer]: the matches from left to right, none overlapping another;
    [skip] counts the characters of the last match that are still to be
    passed. *)
Fixpoint scan (re : regex) (skip : nat) (before : option ascii) (x : str)
    : list rmatch :=
  let here :=
    match skip with
    | 0 => mtch re (MState before x []) Some
    | S _ => None
    end in
  let found :=
    match here with
    | Some st' => [RMatch (groups st') (consumed (MState before x []) st')]
    | None => []
    end in
  let skip' :=
    match here with
    | Some st' => length x - length (rest st')
    | None => skip
    end in
  found ++ match x with
           | [] => []
           | c :: x' => scan re (pred skip') (Some c) x'
           end.

Definition finditer (re : regex) (x : str) : list rmatch := scan re 0 None x.

(** A line of text with its line feed. *)
Definition line (lit : string) : str := s lit ++ [LF].

(** An edit block as the model is asked to write it. *)
Definition edit_block (path original updated : str) : str :=
  path ++ [LF] ++ ORIGINAL ++ original ++ DIVIDER ++ updated ++ UPDATED.

(** ** Dictionaries

    A Python [dict] keeps its keys in the order of their first insertion. *)

Definition dict (V : Type) := list (str * V).

Fixpoint dict_get {V} (k : str) (d : dict V) : option V :=
  match d with
  | [] => None
  | (k', v) :: d' => if str_eqb k' k then Some v else dict_get k d'
  end.

Definition dict_has {V} (k : str) (d : dict V) : bool :=
  match dict_get k d with
  | Some _ => true
  | None => false
  end.

(** [d[k] = v] *)
Fixpoint dict_set {V} (k : str) (v : V) (d : dict V) : dict V :=
  match d with
  | [] => [(k, v)]
  | (k', v') :: d' =>
      if str_eqb k' k then (k', v) :: d' else (k', v') :: dict_set k v d'
  end.

Definition dict_keys {V} (d : dict V) : list str := map fst d.

(** ** The collaborators of [Coder]

    [coder.py] imports [prompts] and [findblock] and drives a [git.Repo];
    none of the three is part of the file.  They are taken as an interface. *)

(** [dict(role=..., content=...)]; the roles are the three that the code
    writes. *)
Inductive role_name := user | assistant | system.

Record message := Message { role : role_name; content : str }.

(** [msg["role"].upper()] *)
Definition role_upper (r : role_name) : str :=
  match r with
  | user => s "USER"
  | assistant => s "ASSISTANT"
  | system => s "SYSTEM"
  end.

(** A file on disk: its text and its modification time. *)
Record File := MkFile { text : str; st_mtime : Z }.

(** The module [prompts]; the three templates are given by their
    [format]. *)
Record Prompts := {
  main_system : str;
  system_reminder : str;
  files_content_prefix : str;
  files_content_suffix : str;
  files_content_local_edits : str;
  files_content_gpt_no_edits : str;
  files_content_gpt_edits_format : str -> str -> str; (* hash, message *)
  editor_system : str;
  editor_user_format : str -> str -> str -> str -> str;
                                (* request, edit, fname, content *)
  commit_system : str }.

Class Collaborators := {
  prompts : Prompts;
  (** [findblock.replace_most_similar_chunk(whole, part, replace)] *)
  replace_most_similar_chunk : str -> str -> str -> option str;
  (** [git.Repo] *)
  Repo : Type;
  (** [repo.is_dirty()] *)
  is_dirty : Repo -> gmap str File -> bool;
  (** [os.path.relpath(fname, repo.working_tree_dir)] *)
  relpath : Repo -> str -> str;
  (** [repo.git.diff("HEAD", relative_fname)] *)
  git_diff_HEAD : Repo -> gmap str File -> str -> result str;
  (** [repo.git.add] of the given relative names *)
  git_add : Repo -> gmap str File -> list str -> result Repo;
  (** [repo.git.commit("-m", message, "--no-verify")] *)
  git_commit : Repo -> gmap str File -> str -> result Repo;
  (** [repo.head.commit.hexsha]: forty hexadecimal digits *)
  head_hexsha : Repo -> str;
  head_hexsha_length : forall r, length (head_hexsha r) = 40 }.

(** ** The world *)

(** What [input()] delivers: a line, the end of the input, or an
    interrupt. *)
Inductive key_event :=
| Line (x : str)
| EOF
| KeyCtrlC.

(** The answer to a prompt, or an interrupt. *)
Inductive reply (A : Type) :=
| Answer (a : A)
| ReplyCtrlC.
Arguments Answer {A} a.
Arguments ReplyCtrlC {A}.

(** What the consumer of a streamed completion meets: a chunk, with
    [choices[0].finish_reason] and [choices[0].delta.content] (absent in
    some chunks), or an interrupt by the user. *)
Inductive stream_event :=
| Chunk (finish_reason : option str) (delta_content : option str)
| StreamCtrlC.

Section Coder.
Context `{C : Collaborators}.

(** The attributes of the [Coder] object, the disk, the script of what the
    user and the model service will answer (an exhausted script means an
    interrupt by the user), and the requests sent so far. *)
Record World := MkWorld {
  main_model : str;
  pretty : bool;
  fnames : dict Z;
  last_modified : Z;
  repo : option Repo;
  done_messages : list message;
  cur_messages : list message;
  num_control_c : Z;
  resp : str;
  disk : gmap str File;
  clock : Z;
  keyboard : list key_event;
  confirms : list (reply bool);
  answers : list (reply str);
  completions : list (list stream_event);
  sent : list (str * list message) }.

Definition set_fnames (v : dict Z) (w : World) : World :=
  MkWorld (main_model w) (pretty w) v (last_modified w) (repo w)
    (done_messages w) (cur_messages w) (num_control_c w) (resp w) (disk w)
    (clock w) (keyboard w) (confirms w) (answers w) (completions w) (sent w).
Definition set_last_modified (v : Z) (w : World) : World :=
  MkWorld (main_model w) (pretty w) (fnames w) v (repo w)
    (done_messages w) (cur_messages w) (num_control_c w) (resp w) (disk w)
    (clock w) (keyboard w) (confirms w) (answers w) (completions w) (sent w).
Definition set_repo_state (v : option Repo) (w : World) : World :=
  MkWorld (main_model w) (pretty w) (fnames w) (last_modified w) v
    (done_messages w) (cur_messages w) (num_control_c w) (resp w) (disk w)
    (clock w) (keyboard w) (confirms w) (answers w) (completions w) (sent w).
Definition set_done_messages (v : list message) (w : World) : World :=
  MkWorld (main_model w) (pretty w) (fnames w) (last_modified w) (repo w)
    v (cur_messages w) (num_control_c w) (resp w) (disk w)
    (clock w) (keyboard w) (confirms w) (answers w) (completions w) (sent w).
Definition set_cur_messages (v : list message) (w : World) : World :=
  MkWorld (main_model w) (pretty w) (fnames w) (last_modified w) (repo w)
    (done_messages w) v (num_control_c w) (resp w) (disk w)
    (clock w) (keyboard w) (confirms w) (answers w) (completions w) (sent w).
Definition set_num_control_c (v : Z) (w : World) : World :=
  MkWorld (main_model w) (pretty w) (fnames w) (last_modified w) (repo w)
    (done_messages w) (cur_messages w) v (resp w) (disk w)
    (clock w) (keyboard w) (confirms w) (answers w) (completions w) (sent w).
Definition set_resp (v : str) (w : World) : World :=
  MkWorld (main_model w) (pretty w) (fnames w) (last_modified w) (repo w)
    (done_messages w) (cur_messages w) (num_control_c w) v (disk w)
    (clock w) (keyboard w) (confirms w) (answers w) (completions w) (sent w).
Definition set_disk (v : gmap str File) (t : Z) (w : World) : World :=
  MkWorld (main_model w) (pretty w) (fnames w) (last_modified w) (repo w)
    (done_messages w) (cur_messages w) (num_control_c w) (resp w) v
    t (keyboard w) (confirms w) (answers w) (completions w) (sent w).
Definition set_keyboard (v : list key_event) (w : World) : World :=
  MkWorld (main_model w) (pretty w) (fnames w) (last_modified w) (repo w)
    (done_messages w) (cur_messages w) (num_control_c w) (resp w) (disk w)
    (clock w) v (confirms w) (answers w) (completions w) (sent w).
Definition set_confirms (v : list (reply bool)) (w : World) : World :=
  MkWorld (main_model w) (pretty w) (fnames w) (last_modified w) (repo w)
    (done_messages w) (cur_messages w) (num_control_c w) (resp w) (disk w)
    (clock w) (keyboard w) v (answers w) (completions w) (sent w).
Definition set_answers (v : list (reply str)) (w : World) : World :=
  MkWorld (main_model w) (pretty w) (fnames w) (last_modified w) (repo w)
    (done_messages w) (cur_messages w) (num_control_c w) (resp w) (disk w)
    (clock w) (keyboard w) (confirms w) v (completions w) (sent w).
Definition set_completions (v : list (list stream_event))
    (log : list (str * list message)) (w : World) : World :=
  MkWorld (main_model w) (pretty w) (fnames w) (last_modified w) (repo w)
    (done_messages w) (cur_messages w) (num_control_c w) (resp w) (disk w)
    (clock w) (keyboard w) (confirms w) (answers w) v log.

(** ** The monad: state, and exceptions that keep the state *)

Definition M (A : Type) : Type := World -> World * result A.

Definition ret {A} (a : A) : M A := fun w => (w, Ok a).
Definition raise {A} (e : exn) : M A := fun w => (w, Raise e).
Definition bind {A B} (m : M A) (k : A -> M B) : M B :=
  fun w =>
    match m w with
    | (w', Ok a) => k a w'
    | (w', Raise e) => (w', Raise e)
    end.
Definition gets {A} (f : World -> A) : M A := fun w => (w, Ok (f w)).
Definition modify (f : World -> World) : M unit := fun w => (f w, Ok tt).
Definition lift {A} (r : result A) : M A := fun w => (w, r).

(** [try: m except e: handler e], where [handler] tells which exceptions
    it catches. *)
Definition try_except {A} (m : M A) (handler : exn -> option (M A)) : M A :=
  fun w =>
    match m w with
    | (w', Ok a) => (w', Ok a)
    | (w', Raise e) =>
        match handler e with
        | Some h => h w'
        | None => (w', Raise e)
        end
    end.
End Coder.

Notation "'let*' x ':=' m 'in' k" := (bind m (fun x => k))
  (at level 10, x pattern, m at level 200, k at level 200).
Notation "m ';;;' k" := (bind m (fun _ => k))
  (at level 100, k at level 200, right associativity).

Section Methods.
Context `{C : Collaborators}.

(** ** Files

    A path names a file by its text; directories are not modelled.  Every
    change of a file stamps it with the clock and advances the clock. *)

(** [Path(p).exists()] *)
Definition path_exists (p : str) : M bool :=
  gets (fun w => bool_decide (is_Some (disk w !! p))).

(** [Path(p).touch()] *)
Definition touch (p : str) : M unit :=
  modify (fun w =>
    let old := match disk w !! p with Some f => text f | None => [] end in
    set_disk (<[p := MkFile old (clock w)]> (disk w)) (clock w + 1) w).

(** [Path(p).read_text()] *)
Definition read_text (p : str) : M str :=
  fun w =>
    match disk w !! p with
    | Some f => (w, Ok (text f))
    | None => (w, Raise FileNotFoundError)
    end.

(** [Path(p).write_text(x)] *)
Definition write_text (p : str) (x : str) : M unit :=
  modify (fun w =>
    set_disk (<[p := MkFile x (clock w)]> (disk w)) (clock w + 1) w).

(** [Path(p).stat().st_mtime] *)
Definition stat_mtime (p : str) : M Z :=
  fun w =>
    match disk w !! p with
    | Some f => (w, Ok (st_mtime f))
    | None => (w, Raise FileNotFoundError)
    end.

(** ** The user and the model service *)

(** [input(...)] *)
Definition input : M (option str) :=
  fun w =>
    match keyboard w with
    | Line x :: more => (set_keyboard more w, Ok (Some x))
    | EOF :: more => (set_keyboard more w, Ok None)
    | KeyCtrlC :: more => (set_keyboard more w, Raise KeyboardInterrupt)
    | [] => (w, Raise KeyboardInterrupt)
    end.

(** [Confirm.ask(question, console=self.console)] *)
Definition Confirm_ask (question : str) : M bool :=
  fun w =>
    match confirms w with
    | Answer b :: more => (set_confirms more w, Ok b)
    | ReplyCtrlC :: more => (set_confirms more w, Raise KeyboardInterrupt)
    | [] => (w, Raise KeyboardInterrupt)
    end.

(** [Prompt.ask(question, console=self.console)] *)
Definition Prompt_ask (question : str) : M str :=
  fun w =>
    match answers w with
    | Answer x :: more => (set_answers more w, Ok x)
    | ReplyCtrlC :: more => (set_answers more w, Raise KeyboardInterrupt)
    | [] => (w, Raise KeyboardInterrupt)
    end.

(** [openai.ChatCompletion.create(model=model, messages=messages,
    temperature=0, stream=True)], with the retries on a rate limit. *)
Definition ChatCompletion_create (model : str) (messages : list message)
    : M (list stream_event) :=
  fun w =>
    match completions w with
    | c :: more =>
        (set_completions more (sent w ++ [(model, messages)]) w, Ok c)
    | [] => (w, Raise KeyboardInterrupt)
    end.

(** ** The methods of [Coder] *)

(** [Coder.quoted_file] *)
Definition quoted_file (fname : str) : M str :=
  let prompt := [LF] in
  let prompt := prompt ++ fname in
  let prompt := prompt ++ [LF] ++ line "```" in
  let* x := read_text fname in
  let prompt := prompt ++ x in
  let prompt := prompt ++ [LF] ++ line "```" in
  ret prompt.

Fixpoint get_files_content_loop (names : list str) (prompt : str) : M str :=
  match names with
  | [] => ret prompt
  | fname :: more =>
      let* q := quoted_file fname in
      get_files_content_loop more (prompt ++ q)
  end.

(** [Coder.get_files_content] *)
Definition get_files_content : M str :=
  let* names := gets (fun w => dict_keys (fnames w)) in
  get_files_content_loop names [].

(** The loop of [Coder.get_input]; [None] is the return at the end of the
    input. *)
Fixpoint get_input_loop (fuel : nat) (multiline_input : bool) (inp : str)
    : M (option str) :=
  match fuel with
  | 0 => raise KeyboardInterrupt
  | S fuel' =>
      let* l := input in
      match l with
      | None => ret None
      | Some l =>
          if str_eqb (strip l) (s "{") && negb multiline_input
          then get_input_loop fuel' true inp
          else if str_eqb (strip l) (s "}") && multiline_input
          then ret (Some inp)
          else if multiline_input
          then get_input_loop fuel' multiline_input (inp ++ l ++ [LF])
          else ret (Some l)
      end
  end.

(** [Coder.get_input]; every turn of its loop reads a line, so the loop
    runs at most once more than there are events left. *)
Definition get_input : M (option str) :=
  let* n := gets (fun w => length (keyboard w)) in
  get_input_loop (S n) false [].

Fixpoint stat_all (names : list str) : M (list Z) :=
  match names with
  | [] => ret []
  | fname :: more =>
      let* t := stat_mtime fname in
      let* ts := stat_all more in
      ret (t :: ts)
  end.

(** [max(...)] of a sequence *)
Definition py_max (l : list Z) : result Z :=
  match l with
  | [] => Raise ValueError
  | a :: l' => Ok (fold_left Z.max l' a)
  end.

(** [Coder.get_last_modified] *)
Definition get_last_modified : M Z :=
  let* names := gets (fun w => dict_keys (fnames w)) in
  let* ts := stat_all names in
  lift (py_max ts).

(** [Coder.get_files_messages] *)
Definition get_files_messages : M (list message) :=
  let files_content := files_content_prefix prompts in
  let* fc := get_files_content in
  let files_content := files_content ++ fc in
  ret [Message user files_content;
       Message assistant (s "Ok.");
       Message system (files_content_suffix prompts
                       ++ system_reminder prompts)].

(** [finish_reason not in (None, "stop")] *)
Definition finish_unexpected (finish_reason : option str) : bool :=
  match finish_reason with
  | None => false
  | Some r => negb (str_eqb r (s "stop"))
  end.

(** [self.resp += chunk.choices[0].delta.content], where a chunk without
    content raises [AttributeError], which the loops pass over. *)
Definition append_delta (delta_content : option str) : M unit :=
  match delta_content with
  | Some x => modify (fun w => set_resp (resp w ++ x) w)
  | None => ret tt
  end.

Fixpoint show_send_progress_loop (completion : list stream_event) : M unit :=
  match completion with
  | [] => ret tt
  | StreamCtrlC :: _ => raise KeyboardInterrupt
  | Chunk _ delta :: more =>
      append_delta delta ;;; show_send_progress_loop more
  end.

(** [Coder.show_send_progress] *)
Definition show_send_progress (completion : list stream_event) : M unit :=
  modify (set_resp []) ;;; show_send_progress_loop completion.

Fixpoint show_send_output_plain_loop (completion : list stream_event)
    : M unit :=
  match completion with
  | [] => ret tt
  | StreamCtrlC :: _ => raise KeyboardInterrupt
  | Chunk _ delta :: more =>
      append_delta delta ;;; show_send_output_plain_loop more
  end.

(** [Coder.show_send_output_plain] *)
Definition show_send_output_plain (completion : list stream_event)
    (silent : bool) : M unit :=
  modify (set_resp []) ;;; show_send_output_plain_loop completion.

Fixpoint show_send_output_color_loop (completion : list stream_event)
    : M unit :=
  match completion with
  | [] => ret tt
  | StreamCtrlC :: _ => raise KeyboardInterrupt
  | Chunk finish_reason delta :: more =>
      if finish_unexpected finish_reason then raise AssertionError
      else append_delta delta ;;; show_send_output_color_loop more
  end.

(** [Coder.show_send_output_color] *)
Definition show_send_output_color (completion : list stream_event) : M unit :=
  modify (set_resp []) ;;; show_send_output_color_loop completion.

Definition on_KeyboardInterrupt {A} (h : M A) (e : exn) : option (M A) :=
  match e with
  | KeyboardInterrupt => Some h
  | _ => None
  end.

(** [Coder.send].  [progress_bar_expected] is only tested for being zero;
    the callers pass [len(content) + len(edit) / 2], which is given here
    doubled, as a natural number. *)
Definition send (messages : list message) (model : option str)
    (progress_bar_expected : nat) (silent : bool) : M (str * bool) :=
  let* model :=
    match model with
    | None | Some [] => gets main_model
    | Some m => ret m
    end in
  let* completion := ChatCompletion_create model messages in
  let* is_pretty := gets pretty in
  let* interrupted :=
    try_except
      ((if negb (Nat.eqb progress_bar_expected 0)
        then show_send_progress completion
        else if is_pretty && negb silent
        then show_send_output_color completion
        else show_send_output_plain completion silent) ;;;
       ret false)
      (on_KeyboardInterrupt (ret true)) in
  let* r := gets resp in
  ret (r, interrupted).

(** [Coder.do_replace]; the result is [True] or [None]. *)
Definition do_replace (fname before_text after_text : str) : M bool :=
  let* before_text := lift (strip_quoted_wrapping before_text (StrName fname)) in
  let* after_text := lift (strip_quoted_wrapping after_text (StrName fname)) in
  let* there := path_exists fname in
  (if negb there && str_eqb before_text []
   then touch fname
   else ret tt) ;;;
  let* content := read_text fname in
  if str_eqb before_text [] && str_eqb content []
  then
    (* first populating an empty file *)
    write_text fname after_text ;;; ret true
  else
    match replace_most_similar_chunk content before_text after_text with
    | None | Some [] => ret false
    | Some new_content => write_text fname new_content ;;; ret true
    end.

(** [Coder.do_gpt_powered_replace] *)
Definition do_gpt_powered_replace (fname edit request : str) : M unit :=
  let model := s "gpt-3.5-turbo" in
  let* content := read_text fname in
  let prompt := editor_user_format prompts request edit fname content in
  let messages := [Message system (editor_system prompts);
                   Message user prompt] in
  let* (res, interrupted) :=
    send messages (Some model) (2 * length content + length edit) false in
  if (interrupted : bool) then ret tt
  else
    let* res := lift (strip_quoted_wrapping res (PathName fname)) in
    write_text fname res.

(** The names [_, path, _, _, original, updated] of [match.groups()];
    the three groups take part in every match. *)
Definition m_path (m : rmatch) : str := default [] (group 2 m).
Definition m_original (m : rmatch) : str := default [] (group 5 m).
Definition m_updated (m : rmatch) : str := default [] (group 6 m).

(** The [if path not in self.fnames:] of [Coder.update_files]: a path that
    is not tracked needs the user's consent, and is tracked from then on;
    the result tells whether the edit goes on. *)
Definition allow_edit (path : str) : M bool :=
  let* known := gets (fun w => dict_has path (fnames w)) in
  if negb known
  then
    let* there := path_exists path in
    let question :=
      if negb there
      then s "[red bold]Allow creation of new file " ++ path ++ s "?"
      else s "[red bold]Allow edits to " ++ path
           ++ s " which was not previously provided?" in
    let* yes := Confirm_ask question in
    if negb yes then ret false
    else
      modify (fun w => set_fnames (dict_set path 0%Z (fnames w)) w) ;;;
      ret true
  else ret true.

(** The loop of [Coder.update_files], for the matches that are left. *)
Fixpoint update_files_loop (inp : str) (matches : list rmatch)
    (edited : gset str) : M (gset str) :=
  match matches with
  | [] => ret edited
  | m :: more =>
      let path := m_path m in
      let original := m_original m in
      let updated := m_updated m in
      let* allowed := allow_edit path in
      if negb allowed then update_files_loop inp more edited
      else
        let edited := {[path]} ∪ edited in
        let* done := do_replace path original updated in
        if done then update_files_loop inp more edited
        else
          let edit := m_group0 m in
          do_gpt_powered_replace path edit inp ;;;
          update_files_loop inp more edited
  end.

(** [Coder.update_files] *)
Definition update_files (content inp : str) : M (gset str) :=
  update_files_loop inp (finditer pattern content) ∅.

(** The loop of [Coder.commit] over the tracked files: the diffs, the
    dirty names and the dirty relative names. *)
Fixpoint commit_scan (r : Repo) (names : list str)
    (diffs : str) (dirty_fnames relative_dirty_fnames : list str)
    : M (str * list str * list str) :=
  match names with
  | [] => ret (diffs, dirty_fnames, relative_dirty_fnames)
  | fname :: more =>
      let relative_fname := relpath r fname in
      let* files := gets disk in
      let* these_diffs := lift (git_diff_HEAD r files relative_fname) in
      match these_diffs with
      | [] => commit_scan r more diffs dirty_fnames relative_dirty_fnames
      | _ =>
          commit_scan r more (diffs ++ these_diffs ++ [LF])
            (dirty_fnames ++ [fname])
            (relative_dirty_fnames ++ [relative_fname])
      end
  end.

Definition history_context (history : option (list message)) : str :=
  match history with
  | None | Some [] => []
  | Some msgs =>
      fold_left
        (fun context msg =>
           context ++ role_upper (role msg) ++ s ": " ++ content msg ++ [LF])
        msgs (line "# Context:")
  end.

Definition answer_in (x : str) (choices : list string) : bool :=
  bool_decide (x ∈ map s choices).

(** The end of [Coder.commit]: the dirty files are staged and committed,
    and the baseline of the modification times is set. *)
Definition commit_make (r : Repo) (relative_dirty_fnames : list str)
    (context commit_message : str) : M (option (str * str)) :=
  let* files := gets disk in
  let* r := lift (git_add r files relative_dirty_fnames) in
  modify (set_repo_state (Some r)) ;;;
  let full_commit_message := commit_message ++ [LF; LF] ++ context in
  let* r := lift (git_commit r files full_commit_message) in
  modify (set_repo_state (Some r)) ;;;
  let commit_hash := firstn 7 (head_hexsha r) in
  let* t := get_last_modified in
  modify (set_last_modified t) ;;;
  ret (Some (commit_hash, commit_message)).

(** The [if ask:] of [Coder.commit]; the result is the message to commit
    with, or [None] where the user declines. *)
Definition commit_ask (commit_message : str) : M (option str) :=
  let* t := get_last_modified in
  modify (set_last_modified t) ;;;
  let* res :=
    Prompt_ask
      (s "[red]Commit before the chat proceeds? [y/n/commit message]") in
  let res := strip res in
  if answer_in (lower res) ["n"; "no"]%string
  then ret None
  else if negb (answer_in (lower res) ["y"; "yes"]%string)
  then ret (Some res)
  else ret (Some commit_message).

(** The answer of the model, stripped of white space, of double quotes and
    of white space again, with the prefix before it. *)
Definition drafted_message (prefix : option str) (commit_message : str)
    : str :=
  let commit_message :=
    strip (strip_chars [DQUOTE] (strip commit_message)) in
  match prefix with
  | None | Some [] => commit_message
  | Some pre => pre ++ commit_message
  end.

(** [Coder.commit]; the result is [(commit_hash, commit_message)] or
    [None]. *)
Definition commit (history : option (list message)) (prefix : option str)
    (ask : bool) : M (option (str * str)) :=
  let* repo_now := gets repo in
  match repo_now with
  | None => ret None
  | Some r =>
      let* files := gets disk in
      if negb (is_dirty r files) then ret None
      else
        let* names := gets (fun w => dict_keys (fnames w)) in
        let* (diffs_dirty, relative_dirty_fnames) :=
          commit_scan r names [] [] [] in
        let (diffs, dirty_fnames) := (diffs_dirty : str * list str) in
        match dirty_fnames with
        | [] =>
            let* t := get_last_modified in
            modify (set_last_modified t) ;;;
            ret None
        | _ =>
            let diffs := line "# Diffs:" ++ diffs in
            let context := history_context history in
            let messages := [Message system (commit_system prompts);
                             Message user (context ++ diffs)] in
            let* (commit_message, interrupted) :=
              send messages (Some (s "gpt-3.5-turbo")) 0 true in
            if (interrupted : bool) then raise KeyboardInterrupt
            else
              let commit_message := drafted_message prefix commit_message in
              let* decision :=
                if ask then commit_ask commit_message
                else ret (Some commit_message) in
              match decision with
              | None => ret None
              | Some commit_message =>
                  commit_make r relative_dirty_fnames context commit_message
              end
        end
  end.

(** [self.check_for_local_edits(True)]: the class defines no such
    attribute, the lookup raises. *)
Definition check_for_local_edits (init : bool) : M unit :=
  raise AttributeError.

Definition last_edit_path : str := s "tmp.last-edit.md".

Definition on_Exception {A} (h : M A) (e : exn) : option (M A) :=
  match e with
  | KeyboardInterrupt => None
  | _ => Some h
  end.

(** [Coder.run_loop], from the reset of the interrupt count to the
    transcript that is sent. *)
Definition run_loop_prepare (inp : str) : M (list message) :=
  modify (set_num_control_c 0) ;;;
  let* last := gets last_modified in
  let* now := get_last_modified in
  (if (last <? now)%Z
   then
     commit None None true ;;;
     (* files changed, move cur messages back behind the files messages *)
     modify (fun w =>
       set_done_messages (done_messages w ++ cur_messages w) w) ;;;
     modify (fun w =>
       set_done_messages
         (done_messages w
          ++ [Message user (files_content_local_edits prompts);
              Message assistant (s "Ok.")]) w) ;;;
     modify (set_cur_messages [])
   else ret tt) ;;;
  modify (fun w =>
    set_cur_messages (cur_messages w ++ [Message user inp]) w) ;;;
  let messages :=
    [Message system (main_system prompts ++ system_reminder prompts)] in
  let* done := gets done_messages in
  let messages := messages ++ done in
  let* fm := get_files_messages in
  let messages := messages ++ fm in
  let* cur := gets cur_messages in
  let messages := messages ++ cur in
  ret messages.

(** [Coder.run_loop], from the request to the model to the response in the
    active buffer; the result is the response as it is kept, and whether it
    was interrupted. *)
Definition run_loop_respond (messages : list message) : M (str * bool) :=
  let* (content, interrupted) := send messages None 0 false in
  let content :=
    if (interrupted : bool)
    then content ++ [LF] ++ s "^C KeyboardInterrupt"
    else content in
  write_text last_edit_path content ;;;
  modify (fun w =>
    set_cur_messages (cur_messages w ++ [Message assistant content]) w) ;;;
  ret (content, interrupted).

(** [Coder.run_loop], from [update_files] to the end. *)
Definition run_loop_apply (inp content : str) : M (option bool) :=
  let* edited :=
    try_except
      (let* e := update_files content inp in ret (Some e))
      (on_Exception (ret None)) in
  match edited with
  | None => ret (Some true)
  | Some edited =>
      if bool_decide (edited = ∅) then ret (Some true)
      else
        let* cur := gets cur_messages in
        let* res := commit (Some cur) None false in
        let saved_message :=
          match res with
          | Some (commit_hash, commit_message) =>
              files_content_gpt_edits_format prompts
                commit_hash commit_message
          | None => files_content_gpt_no_edits prompts
          end in
        check_for_local_edits true ;;;
        modify (fun w =>
          set_done_messages (done_messages w ++ cur_messages w) w) ;;;
        modify (fun w =>
          set_done_messages
            (done_messages w
             ++ [Message user saved_message;
                 Message assistant (s "Ok.")]) w) ;;;
        modify (set_cur_messages []) ;;;
        ret (Some true)
  end.

(** [Coder.run_loop]; the result is [True] or [None]. *)
Definition run_loop : M (option bool) :=
  let* inp := get_input in
  match inp with
  | None => ret None
  | Some inp =>
      let* messages := run_loop_prepare inp in
      let* (content, interrupted) := run_loop_respond messages in
      if (interrupted : bool) then ret (Some true)
      else run_loop_apply inp content
  end.

(** One turn of the [while True] of [Coder.run]; the result tells whether
    the loop is left. *)
Definition run_turn : M bool :=
  try_except
    (run_loop ;;; ret false)
    (on_KeyboardInterrupt
       (modify (fun w => set_num_control_c (num_control_c w + 1) w) ;;;
        let* n := gets num_control_c in
        if (2 <=? n)%Z then ret true else ret false)).

Fixpoint run_while (fuel : nat) : M bool :=
  match fuel with
  | 0 => ret false
  | S fuel' =>
      let* stop := run_turn in
      if (stop : bool) then ret true else run_while fuel'
  end.

(** The start of [Coder.run], before its loop. *)
Definition run_start : M unit :=
  modify (set_done_messages []) ;;;
  modify (set_cur_messages []) ;;;
  modify (set_num_control_c 0).

(** [Coder.run], for at most [fuel] turns of its loop; the result tells
    whether the loop was left. *)
Definition run (fuel : nat) : M bool :=
  run_start ;;; run_while fuel.

(** The worlds in which the turns of [Coder.run] start. *)
Fixpoint turn_starts (fuel : nat) (w : World) : list World :=
  match fuel with
  | 0 => []
  | S fuel' =>
      w :: match run_turn w with
           | (w', Ok false) => turn_starts fuel' w'
           | _ => []
           end
  end.
End Methods.

(** ** An in-memory stand-in for the collaborators

    Used to run the methods on concrete worlds. *)

Module Fake.

(** The first occurrence of [part] in [whole] replaced by [replace]. *)
Fixpoint replace_first (whole part replace : str) : option str :=
  if startswith whole part
  then Some (replace ++ skipn (length part) whole)
  else match whole with
       | [] => None
       | c :: whole' =>
           match replace_first whole' part replace with
           | Some x => Some (c :: x)
           | None => None
           end
       end.

(** Modelled from the spec: [findblock.py] is not part of the source; this
    is step 1 of the chunk matcher (an exact occurrence of [before], the
    first one replaced), and NO_MATCH where step 1 fails; the approximate
    steps 2 and 3 are left out. *)
Definition exact_chunk_matcher (whole part replace : str) : option str :=
  replace_first whole part replace.

(** A repository: the text of every file in the last commit, the staged
    names, and the messages of the commits made. *)
Record fake_repo := MkRepo {
  head_tree : dict str;
  staged : list str;
  log : list str }.

Definition file_text (files : gmap str File) (p : str) : option str :=
  text <$> files !! p.

Definition differs (files : gmap str File) (entry : str * str) : bool :=
  negb (bool_decide (file_text files (fst entry) = Some (snd entry))).

Definition fake_is_dirty (r : fake_repo) (files : gmap str File) : bool :=
  existsb (differs files) (head_tree r).

Definition fake_diff (r : fake_repo) (files : gmap str File) (p : str)
    : result str :=
  match dict_get p (head_tree r) with
  | Some old =>
      if differs files (p, old)
      then Ok (line "--- a" ++ old ++ line "+++ b"
               ++ default [] (file_text files p))
      else Ok []
  | None => Ok []
  end.

Definition fake_add (r : fake_repo) (files : gmap str File) (names : list str)
    : result fake_repo :=
  Ok (MkRepo (head_tree r) (staged r ++ names) (log r)).

Definition commit_file (files : gmap str File) (tree : dict str) (p : str)
    : dict str :=
  match file_text files p with
  | Some x => dict_set p x tree
  | None => tree
  end.

Definition fake_commit (r : fake_repo) (files : gmap str File) (msg : str)
    : result fake_repo :=
  match strip msg with
  | [] => Raise GitCommandError
  | _ => Ok (MkRepo (fold_left (commit_file files) (staged r) (head_tree r))
               [] (msg :: log r))
  end.

Definition hex_digit (n : nat) : ascii :=
  nth (n mod 16) (s "0123456789abcdef") "0"%char.

(** Forty hexadecimal digits that tell the commits apart. *)
Definition fake_hexsha (r : fake_repo) : str :=
  map (fun i => hex_digit (length (log r) + i)) (seq 0 40).

Definition fake_prompts : Prompts := {|
  main_system := line "I want you to act as an expert software engineer.";
  system_reminder := line "Describe every change with an edit block.";
  files_content_prefix := line "Here is the current content of the files:";
  files_content_suffix := line "Base any edits on these files.";
  files_content_local_edits := line "I made some changes to the files myself.";
  files_content_gpt_no_edits := line "I was not able to see any changes.";
  files_content_gpt_edits_format := fun hash message =>
    s "I committed your suggested changes with git hash " ++ hash
    ++ s " and commit message" ++ [LF] ++ message ++ [LF];
  editor_system := line "You are an expert code editor.";
  editor_user_format := fun request edit fname content =>
    line "To complete this request:" ++ request ++ [LF]
    ++ line "You need to apply this change:" ++ edit ++ [LF]
    ++ line "To this file:" ++ fname ++ [LF] ++ content;
  commit_system := line "Write a one line commit message for the diffs." |}.

#[export] Instance collaborators : Collaborators := {|
  prompts := fake_prompts;
  replace_most_similar_chunk := exact_chunk_matcher;
  Repo := fake_repo;
  is_dirty := fake_is_dirty;
  relpath := fun _ p => p;
  git_diff_HEAD := fake_diff;
  git_add := fake_add;
  git_commit := fake_commit;
  head_hexsha := fake_hexsha;
  head_hexsha_length := fun _ => eq_refl |}.

(** A session on one file, [foo.py], committed as it is on disk; nothing is
    scripted yet. *)
Definition foo : str := s "foo.py".
Definition foo_text : str := line "def f():" ++ line "    return 1".

Definition start : World := {|
  main_model := s "gpt-4";
  pretty := false;
  fnames := [(foo, 100%Z)];
  last_modified := 100%Z;
  repo := Some (MkRepo [(foo, foo_text)] [] []);
  done_messages := [];
  cur_messages := [];
  num_control_c := 0%Z;
  resp := [];
  disk := {[ foo := MkFile foo_text 100%Z ]};
  clock := 101%Z;
  keyboard := [];
  confirms := [];
  answers := [];
  completions := [];
  sent := [] |}.

(** The script of a world. *)
Definition scripted (keys : list key_event) (yesno : list (reply bool))
    (typed : list (reply str)) (streams : list (list stream_event))
    (w : World) : World :=
  set_completions streams (sent w)
    (set_answers typed (set_confirms yesno (set_keyboard keys w))).

(** A completion that arrives whole, in one chunk. *)
Definition whole (x : str) : list stream_event :=
  [Chunk None (Some x); Chunk (Some (s "stop")) None].

(** A completion that the user interrupts after its first chunk. *)
Definition interrupted_stream (x : str) : list stream_event :=
  [Chunk None (Some x); StreamCtrlC].

(** A second file, which the session does not track and the disk does not
    hold. *)
Definition bar : str := s "bar.py".

(** [foo.py] as the user has changed it after the last commit. *)
Definition foo_edited : str := line "def f():" ++ line "    return 2".

Definition edited_outside : World :=
  set_disk (<[foo := MkFile foo_edited 200%Z]> (disk start)) 201%Z start.

(** An edit block for [foo.py] whose original section is not in the
    file. *)
Definition unmatched_edit : str :=
  edit_block foo (line "zzz") (line "yyy").

(** The user interrupts the next completion. *)
Definition cancelled_escalation : World :=
  scripted [] [] [] [interrupted_stream (s "par")] start.

(** Two turns of talk; the model proposes no edit. *)
Definition small_talk : World :=
  scripted [Line (s "hello"); Line (s "thanks")] [] []
    [whole (s "hi"); whole (s "you are welcome")] start.

(** Nothing differs from the last commit, and the baseline is older than
    the files. *)
Definition stale_baseline : World := set_last_modified 50%Z start.

(** [foo.py] differs from the last commit, and the model drafts an empty
    commit message. *)
Definition silent_model : World :=
  scripted [] [] [] [whole []] edited_outside.

(** The user interrupts the response of the first turn. *)
Definition interrupted_turn : World :=
  scripted [Line (s "hi")] [] [] [interrupted_stream (s "par")] start.

(** [foo.py] differs from the last commit, and the user declines the
    commit that is proposed. *)
Definition declined_commit : World :=
  scripted [] [] [Answer (s "n")] [whole (s "msg")] edited_outside.

(** The user allows the creation of [bar.py]. *)
Definition new_file : World := scripted [] [Answer true] [] [] start.

(** A directive that populates [bar.py]. *)
Definition bar_match : rmatch :=
  RMatch [(6, line "x = 1"); (5, []); (2, bar)]
    (edit_block bar [] (line "x = 1")).

(** An edit block for [foo.py] whose original section is in the file. *)
Definition matched_edit : str :=
  edit_block foo (line "    return 1") (line "    return 2").

(** The user asks for a change; the model answers with an edit block that
    applies, and drafts the commit message when it is asked to. *)
Definition applied_turn : World :=
  scripted [Line (s "do it")] [] [] [whole matched_edit; whole (s "msg")]
    start.

(** The same turn after the response, before its directives are
    applied. *)
Definition applied_turn_answered : World :=
  set_cur_messages
    [Message user (s "do it"); Message assistant matched_edit]
    (scripted [] [] [] [whole (s "msg")] start).

(** A turn of talk after the response: the buffer holds the exchange, and
    the response holds no directive. *)
Definition small_talk_answered : World :=
  set_cur_messages [Message user (s "hello"); Message assistant (s "hi")]
    start.

End Fake.

(** ** What a pattern can match

    [den a st st']: pattern [a] can take a match attempt from [st] to [st'],
    whatever the order in which the matcher tries the possibilities. *)

Inductive den : regex -> mstate -> mstate -> Prop :=
| den_eps st : den Eps st st
| den_chr p c x st :
    rest st = c :: x -> p c = true ->
    den (Chr p) st (MState (Some c) x (groups st))
| den_seq a b st1 st2 st3 :
    den a st1 st2 -> den b st2 st3 -> den (Seq a b) st1 st3
| den_alt_l a b st st' : den a st st' -> den (Alt a b) st st'
| den_alt_r a b st st' : den b st st' -> den (Alt a b) st st'
| den_star_0 g a st : den (Star g a) st st
| den_star_S g a st st1 st2 :
    den a st st1 -> length (rest st1) < length (rest st) ->
    den (Star g a) st1 st2 -> den (Star g a) st st2
| den_bol st : at_bol st = true -> den Bol st st
| den_group n a st st' :
    den a st st' -> den (Group n a) st (set_group n st st').

(** The character before the position that lies [x] after a position whose
    previous character is [before]. *)
Definition prev_after (before : option ascii) (x : str) : option ascii :=
  match rev x with
  | [] => before
  | c :: _ => Some c
  end.

(** * Notions for the statements

    What the theorems below speak of: shapes of texts, views of the world
    that the methods read, and relations between worlds. *)

(** ** Positions, shapes and occurrences *)

(** [st'] lies [x] behind [st] in the same text. *)
Definition moved (x : str) (st st' : mstate) : Prop :=
  rest st = x ++ rest st' /\ prev st' = prev_after (prev st) x.

(** The same, with the groups as they were. *)
Definition moved_only (x : str) (st st' : mstate) : Prop :=
  moved x st st' /\ groups st' = groups st.

(** The characters of a file name, of a path, and the texts that the parts
    of the pattern can match. *)
Definition name_char (c : ascii) : bool := isword c || Ascii.eqb c "."%char.

(** A character of the class of directories, a separator, or the colon of a
    drive. *)
Definition path_char (c : ascii) : bool :=
  dir_char c || is_sep c || Ascii.eqb c ":"%char.

(** [d] is empty or ends with a separator. *)
Definition ends_with_sep (d : str) : bool :=
  match rev d with [] => true | c :: _ => is_sep c end.

(** What group 2 of the pattern can hold: directories, closed by a
    separator, and a name that is not empty. *)
Definition path_shape (p : str) : Prop :=
  exists d l, p = d ++ l /\ forallb path_char d = true /\
    ends_with_sep d = true /\ l <> [] /\ forallb name_char l = true.

(** What [fence_re] can match: the fence, characters that are no white
    space, and white space. *)
Definition fence_shape (f : str) : Prop :=
  exists ns ws, f = fence ++ ns ++ ws /\
    forallb nonspace ns = true /\ forallb isspace ws = true.

(** The most recent capture of group [n] among the groups of a state. *)
Definition glookup (n : nat) (gs : list (nat * str)) : option str :=
  snd <$> List.find (fun g => Nat.eqb (fst g) n) gs.

(** The pattern up to the ORIGINAL marker, and the pattern behind it. *)
Definition head_re : regex :=
  Cat [Opt (Group 1 fence_re); Bol; Group 2 path_re; Plus (Chr isspace);
       Opt (Group 4 fence_re); Bol; Lit ORIGINAL].

Definition tail_re : regex :=
  Cat [Group 5 (Cat [Star false (Chr any_char); Opt (Chr (Ascii.eqb LF))]);
       Bol; Lit DIVIDER; Group 6 (Star false (Chr any_char));
       Bol; Lit UPDATED].

(** What the directories of a path can be. *)
Definition dirs_shape (d : str) : Prop :=
  forallb path_char d = true /\ ends_with_sep d = true.

(** [mk] occurs in [x]. *)
Fixpoint occurs (mk x : str) : bool :=
  startswith x mk ||
  match x with
  | [] => false
  | _ :: x' => occurs mk x'
  end.

(** [path_shape], decided. *)
Definition path_shapeb (p : str) : bool :=
  existsb (fun i =>
    forallb path_char (firstn i p) && ends_with_sep (firstn i p)
    && negb (bool_decide (skipn i p = [])) && forallb name_char (skipn i p))
    (seq 0 (S (length p))).

(** ** Lines *)

(** The text of the lines [ls], each closed by a line feed. *)
Definition unlines (ls : list str) : str := concat (map (fun l => l ++ [LF]) ls).

(** A line without a character that [splitlines] takes for a line
    boundary. *)
Definition plain_line (l : str) : bool :=
  forallb (fun c => negb (is_line_boundary c)) l.



(** ** Observations of the world, and streams *)

Section FramesDefs.
Context `{C : Collaborators}.

(** [m] leaves the observation [f] of the world as it was, whatever it
    returns or raises. *)
Definition keeps {A B} (f : World -> B) (m : M A) : Prop :=
  forall w, f (m w).1 = f w.

End FramesDefs.

Section FrameLemmasDefs.
Context `{C : Collaborators}.
Context {B : Type} (f : World -> B).

(** What an observation may depend on. *)
Definition ignores_resp := forall v w, f (set_resp v w) = f w.

Definition ignores_completions := forall v l w, f (set_completions v l w) = f w.

Definition ignores_disk := forall v t w, f (set_disk v t w) = f w.

Definition ignores_fnames := forall v w, f (set_fnames v w) = f w.

Definition ignores_confirms := forall v w, f (set_confirms v w) = f w.

Definition ignores_answers := forall v w, f (set_answers v w) = f w.

Definition ignores_keyboard := forall v w, f (set_keyboard v w) = f w.

Definition ignores_last_modified := forall v w, f (set_last_modified v w) = f w.

Definition ignores_repo := forall v w, f (set_repo_state v w) = f w.

End FrameLemmasDefs.

(** The text that the consumer of a stream has received when the stream ends
    or is interrupted. *)
Fixpoint received (c : list stream_event) : str :=
  match c with
  | [] => []
  | StreamCtrlC :: _ => []
  | Chunk _ (Some x) :: more => x ++ received more
  | Chunk _ None :: more => received more
  end.

(** The user interrupts the stream. *)
Fixpoint cancelled (c : list stream_event) : bool :=
  match c with
  | [] => false
  | StreamCtrlC :: _ => true
  | Chunk _ _ :: more => cancelled more
  end.

(** No chunk that is consumed has a finish reason other than [stop]. *)
Fixpoint finishes_normally (c : list stream_event) : bool :=
  match c with
  | [] => true
  | StreamCtrlC :: _ => true
  | Chunk finish_reason _ :: more =>
      negb (finish_unexpected finish_reason) && finishes_normally more
  end.

Section StreamsDefs.
Context `{C : Collaborators}.

(** How the consumption of a stream ends. *)
Definition stream_result (c : list stream_event) : result unit :=
  if cancelled c then Raise KeyboardInterrupt else Ok tt.

(** The model that [send] asks. *)
Definition model_choice (model : option str) (w : World) : str :=
  match model with
  | None | Some [] => main_model w
  | Some m => m
  end.

(** The world after [send] has consumed the stream [c]. *)
Definition after_send (msgs : list message) (model : option str)
    (c : list stream_event) (more : list (list stream_event)) (w : World)
    : World :=
  set_resp (received c)
    (set_completions more (sent w ++ [(model_choice model w, msgs)]) w).

End StreamsDefs.

(** ** Views of the files and the repository *)

Section ViewsDefs.
Context `{C : Collaborators}.

(** The modification times that [stat_all] reads. *)
Fixpoint mtimes (files : gmap str File) (names : list str)
    : result (list Z) :=
  match names with
  | [] => Ok []
  | fname :: more =>
      match files !! fname with
      | None => Raise FileNotFoundError
      | Some f => rbind (mtimes files more) (fun ts => Ok (st_mtime f :: ts))
      end
  end.

(** What [get_last_modified] returns in a world: the latest modification
    time of the tracked files. *)
Definition current_mtime (w : World) : result Z :=
  rbind (mtimes (disk w) (dict_keys (fnames w))) py_max.

(** What [commit_scan] returns. *)
Fixpoint scan_diffs (r : Repo) (files : gmap str File) (names : list str)
    (diffs : str) (dirty_fnames relative_dirty_fnames : list str)
    : result (str * list str * list str) :=
  match names with
  | [] => Ok (diffs, dirty_fnames, relative_dirty_fnames)
  | fname :: more =>
      match git_diff_HEAD r files (relpath r fname) with
      | Raise e => Raise e
      | Ok [] =>
          scan_diffs r files more diffs dirty_fnames relative_dirty_fnames
      | Ok these_diffs =>
          scan_diffs r files more (diffs ++ these_diffs ++ [LF])
            (dirty_fnames ++ [fname])
            (relative_dirty_fnames ++ [relpath r fname])
      end
  end.

(** The user declines the commit. *)
Definition declines (a : reply str) : bool :=
  match a with
  | Answer x => answer_in (lower (strip x)) ["n"; "no"]%string
  | ReplyCtrlC => false
  end.

End ViewsDefs.

(** ** The registry of tracked files *)

Section RegistryDefs.
Context `{C : Collaborators}.

(** Every tracked path of [w] is tracked in [w'], with the modification
    time recorded for it. *)
Definition registry_grows (w w' : World) : Prop :=
  forall p t, dict_get p (fnames w) = Some t ->
              dict_get p (fnames w') = Some t.

(** [m] leads from every world to a world related by [R]. *)
Definition leads {A} (R : World -> World -> Prop) (m : M A) : Prop :=
  forall w, R w (m w).1.

End RegistryDefs.

(** ** The buffers of the conversation *)

Section MoreFramesDefs.
Context `{C : Collaborators}.
Context {B : Type} (f : World -> B).

(** The observation does not depend on the two buffers and the count of
    interrupts. *)
Definition ignores_messages :=
  (forall v w, f (set_done_messages v w) = f w) /\
  (forall v w, f (set_cur_messages v w) = f w) /\
  (forall v w, f (set_num_control_c v w) = f w).

End MoreFramesDefs.

(** ** The response as it is kept *)

(** The interruption marker of [run_loop]. *)
Definition interrupt_marker : str := [LF] ++ s "^C KeyboardInterrupt".

(** The response as [run_loop] keeps it. *)
Definition kept_response (c : list stream_event) : str :=
  if cancelled c then received c ++ interrupt_marker else received c.

(** [update_files] applied no directive: it returned the empty set, or raised
    an exception that [run_loop] catches. *)
Definition no_edit (r : result (gset str)) : Prop :=
  match r with
  | Ok edited => edited = ∅
  | Raise e => e <> KeyboardInterrupt
  end.

(** ** Lines without markers *)

(** A text without a line feed. *)
Definition no_LF (l : str) : bool := forallb (fun c => negb (Ascii.eqb c LF)) l.

(** No line of [ls] holds a line feed or starts with the marker [mk]. *)
Definition free_of (mk : str) (ls : list str) : bool :=
  forallb (fun l => no_LF l && negb (startswith (l ++ [LF]) mk)) ls.

(** The pattern from the divider on. *)
Definition tail1_re : regex :=
  Cat [Bol; Lit DIVIDER; Group 6 (Star false (Chr any_char)); Bol; Lit UPDATED].

(** ** File names and directives *)

(** Every [<] of [x] follows a character that is no white space; [ok] tells
    whether the character before [x] is one. *)
Fixpoint guarded (ok : bool) (x : str) : bool :=
  match x with
  | [] => true
  | c :: x' =>
      (negb (Ascii.eqb c "<"%char) || ok) && guarded (negb (isspace c)) x'
  end.

(** [u] is empty or ends with a character outside the class [q]. *)
Definition closed_by (q : ascii -> bool) (u : str) : bool :=
  match rev u with
  | [] => true
  | c :: _ => negb (q c)
  end.

(** [mk] stands in [x] at the start of a line; [b] is the character before
    [x]. *)
Fixpoint starts_line (mk : str) (b : option ascii) (x : str) : bool :=
  is_bol b && startswith x mk ||
  match x with
  | [] => false
  | c :: x' => starts_line mk (Some c) x'
  end.

(** [x] is not empty. *)
Definition nonempty (x : str) : bool :=
  match x with
  | [] => false
  | _ => true
  end.

(** An extension: nothing, or a dot and word characters. *)
Definition ext_ok (e : str) : bool :=
  match e with
  | [] => true
  | c :: e' => Ascii.eqb c "."%char && nonempty e' && forallb isword e'
  end.

(** A file name without a directory: word characters and an optional
    extension. *)
Definition file_name (base ext : str) : bool :=
  nonempty base && forallb isword base && ext_ok ext.

(** The three named groups of a match. *)
Definition directive (m : rmatch) : str * str * str :=
  (m_path m, m_original m, m_updated m).

(** The state in which a match of a block ends: the text [w] after the block
    is left, and the groups hold the path and the two sections. *)
Definition block_match (p o u w : str) (r : mstate) : Prop :=
  rest r = w /\
  glookup 2 (groups r) = Some p /\
  glookup 5 (groups r) = Some o /\
  glookup 6 (groups r) = Some u.

(** ** Views of a turn *)



Section TurnViewsDefs.
Context `{C : Collaborators}.

(** What [get_files_content_loop] returns: the files of [names] quoted
    behind [prompt], one after the other. *)
Fixpoint quoted_files (files : gmap str File) (names : list str)
    (prompt : str) : result str :=
  match names with
  | [] => Ok prompt
  | fname :: more =>
      match files !! fname with
      | None => Raise FileNotFoundError
      | Some f =>
          quoted_files files more
            (prompt ++ [LF] ++ fname ++ [LF] ++ line "```" ++ text f
             ++ [LF] ++ line "```")
      end
  end.

(** The three messages of the frame of file contents. *)
Definition files_frame (fc : str) : list message :=
  [Message user (files_content_prefix prompts ++ fc);
   Message assistant (s "Ok.");
   Message system (files_content_suffix prompts ++ system_reminder prompts)].

(** The two messages that close an archived exchange. *)
Definition local_edits_marker : list message :=
  [Message user (files_content_local_edits prompts);
   Message assistant (s "Ok.")].

(** The world of a [Coder] that was made with [pretty] as [v]. *)
Definition set_pretty (v : bool) (w : World) : World :=
  MkWorld (main_model w) v (fnames w) (last_modified w) (repo w)
    (done_messages w) (cur_messages w) (num_control_c w) (resp w) (disk w)
    (clock w) (keyboard w) (confirms w) (answers w) (completions w) (sent w).

(** [commit] has nothing to look at: no repository, or a clean one. *)
Definition nothing_to_commit (w : World) : Prop :=
  repo w = None \/ exists r, repo w = Some r /\ is_dirty r (disk w) = false.

(** The message that [commit] commits with when the user is asked and does
    not decline: the draft on [y] or [yes], any other answer itself. *)
Definition answered_message (draft x : str) : str :=
  if answer_in (lower (strip x)) ["y"; "yes"]%string then draft
  else strip x.

End TurnViewsDefs.

(** [b] is empty or starts with a character outside the class [p]. *)
Definition starts_outside (p : ascii -> bool) (b : str) : bool :=
  match b with
  | [] => true
  | c :: _ => negb (p c)
  end.

(** The class of the double quote. *)
Definition is_quote (c : ascii) : bool := bool_decide (c ∈ [DQUOTE]).

(** * Properties of the matcher *)

Section MatcherFacts.
Context {R : Type}.
Implicit Types (k : mstate -> option R) (st : mstate).

Lemma star_loop_sound g a fuel :
  (forall st k r, mtch a st k = Some r ->
     exists st', den a st st' /\ k st' = Some r) ->
  forall st k r, star_loop g (mtch a) fuel st k = Some r ->
    exists st', den (Star g a) st st' /\ k st' = Some r.
Proof.
  intros Hbody. induction fuel as [|fuel IH]; intros st k r H; simpl in H.
  - exists st. split; [constructor | exact H].
  - assert (Hmore : forall r,
      mtch a st (fun st' =>
        if length (rest st') <? length (rest st)
        then star_loop g (mtch a) fuel st' k else None) = Some r ->
      exists st', den (Star g a) st st' /\ k st' = Some r).
    { intros r' Hm. apply Hbody in Hm as (st1 & Hd & Hk).
      destruct (Nat.ltb_spec (length (rest st1)) (length (rest st)));
        [|discriminate].
      apply IH in Hk as (st2 & Hd2 & Hk2).
      exists st2. split; [eapply den_star_S; eauto | exact Hk2]. }
    assert (Hzero : forall r, k st = Some r ->
      exists st', den (Star g a) st st' /\ k st' = Some r).
    { intros r' Hk. exists st. split; [constructor | exact Hk]. }
    destruct g; unfold orelse in H.
    + destruct (mtch a st _) eqn:E; [inversion H; subst; eauto | eauto].
    + destruct (k st) eqn:E; [inversion H; subst; eauto | eauto].
Qed.

(** Every success of the matcher is a match of the pattern. *)
Lemma mtch_sound a : forall st k r,
  mtch a st k = Some r -> exists st', den a st st' /\ k st' = Some r.
Proof.
  induction a as [|p|a IHa b IHb|a IHa b IHb|g a IHa| |n a IHa];
    intros st k r H; simpl in H.
  - exists st. split; [constructor | exact H].
  - destruct (rest st) as [|c x] eqn:E; [discriminate|].
    destruct (p c) eqn:Ep; [|discriminate].
    eexists. split; [econstructor; eauto | exact H].
  - apply IHa in H as (st1 & H1 & H). apply IHb in H as (st2 & H2 & H).
    exists st2. split; [econstructor; eauto | exact H].
  - unfold orelse in H. destruct (mtch a st k) eqn:E.
    + inversion H; subst. apply IHa in E as (st' & ? & ?).
      exists st'. split; [apply den_alt_l|]; assumption.
    + apply IHb in H as (st' & ? & ?).
      exists st'. split; [apply den_alt_r|]; assumption.
  - eapply star_loop_sound; eauto.
  - destruct (at_bol st) eqn:E; [|discriminate].
    exists st. split; [constructor; exact E | exact H].
  - apply IHa in H as (st' & H1 & H).
    eexists. split; [constructor; exact H1 | exact H].
Qed.

Lemma star_complete sa st st' :
  den sa st st' ->
  forall g a, sa = Star g a ->
  (forall st1 st2 k r, den a st1 st2 -> k st2 = Some r ->
     exists r', mtch a st1 k = Some r') ->
  forall fuel k r, length (rest st) <= fuel -> k st' = Some r ->
    exists r', star_loop g (mtch a) fuel st k = Some r'.
Proof.
  induction 1 as [| | | | |g0 a0 st|g0 a0 st st1 st2 Hd1 _ Hlt Hd2 IH| |];
    intros gg aa Esa Hbody fuel k r Hfuel Hk; try discriminate;
    inversion Esa; subst g0 a0; clear Esa.
  - destruct fuel; simpl; [eauto|].
    destruct gg; unfold orelse.
    + destruct (mtch aa st _); eauto.
    + rewrite Hk. eauto.
  - destruct fuel as [|fuel]; [lia|]. simpl.
    assert (Hmore : exists r',
      mtch aa st (fun st' =>
        if length (rest st') <? length (rest st)
        then star_loop gg (mtch aa) fuel st' k else None) = Some r').
    { destruct (IH gg aa eq_refl Hbody fuel k r ltac:(lia) Hk) as [r' Hr'].
      eapply Hbody; [exact Hd1|].
      destruct (Nat.ltb_spec (length (rest st1)) (length (rest st)));
        [exact Hr' | lia]. }
    destruct Hmore as [r' Hr'].
    destruct gg; unfold orelse.
    + rewrite Hr'. eauto.
    + destruct (k st); eauto.
Qed.

(** Where the pattern can match and what follows can go on, the matcher
    succeeds. *)
Lemma mtch_complete a : forall st st' k r,
  den a st st' -> k st' = Some r -> exists r', mtch a st k = Some r'.
Proof.
  induction a as [|p|a IHa b IHb|a IHa b IHb|g a IHa| |n a IHa];
    intros st st' k r Hd Hk; simpl.
  - inversion Hd; subst. eauto.
  - inversion Hd as [|? ? ? ? Hr Hp| | | | | | |]; subst.
    rewrite Hr, Hp. eauto.
  - inversion Hd as [| |? ? ? st2 ? H1 H2| | | | | |]; subst.
    destruct (IHb _ _ _ _ H2 Hk) as [r1 Hr1].
    eapply IHa; eauto.
  - unfold orelse.
    inversion Hd as [| | |? ? ? ? H1|? ? ? ? H1| | | |]; subst.
    + destruct (IHa _ _ _ _ H1 Hk) as [r1 Hr1]. rewrite Hr1. eauto.
    + destruct (mtch a st k); eauto.
  - eapply star_complete; eauto.
  - inversion Hd as [| | | | | | |? Hb|]; subst. rewrite Hb. eauto.
  - inversion Hd as [| | | | | | | |? ? ? ? H1]; subst.
    eapply IHa; eauto.
Qed.
End MatcherFacts.

(** * What a match of the pattern holds *)

Lemma prev_after_app b x y :
  prev_after (prev_after b x) y = prev_after b (x ++ y).
Proof.
  unfold prev_after. rewrite rev_app_distr.
  destruct (rev y); simpl; [|reflexivity]. reflexivity.
Qed.

Lemma moved_nil st : moved [] st st.
Proof. split; reflexivity. Qed.

Lemma moved_trans x y st1 st2 st3 :
  moved x st1 st2 -> moved y st2 st3 -> moved (x ++ y) st1 st3.
Proof.
  intros [H1 H2] [H3 H4]. split.
  - rewrite H1, H3. now rewrite app_assoc.
  - rewrite H4, H2. apply prev_after_app.
Qed.

Lemma moved_only_nil st : moved_only [] st st.
Proof. split; [apply moved_nil | reflexivity]. Qed.

Lemma moved_only_trans x y st1 st2 st3 :
  moved_only x st1 st2 -> moved_only y st2 st3 -> moved_only (x ++ y) st1 st3.
Proof.
  intros [H1 H2] [H3 H4]. split; [eapply moved_trans; eauto | congruence].
Qed.

Lemma moved_consumed x st st' : moved x st st' -> consumed st st' = x.
Proof.
  intros [H _]. unfold consumed. rewrite H, length_app.
  replace (length x + length (rest st') - length (rest st')) with (length x) by lia.
  apply take_app_length.
Qed.

Lemma den_chr_inv p st st' :
  den (Chr p) st st' -> exists c, p c = true /\ moved_only [c] st st'.
Proof.
  inversion 1; subst. eexists; split; [eassumption|].
  repeat split; simpl; assumption.
Qed.

Ltac den_inv :=
  repeat match goal with
  | H : den Eps _ _ |- _ => inversion H; subst; clear H
  | H : den (Seq _ _) _ _ |- _ => inversion H; subst; clear H
  | H : den (Alt _ _) _ _ |- _ => inversion H; subst; clear H
  | H : den Bol _ _ |- _ => inversion H; subst; clear H
  | H : den (Group _ _) _ _ |- _ => inversion H; subst; clear H
  | H : den (Chr _) _ _ |- _ =>
      apply den_chr_inv in H; destruct H as (? & ? & ?)
  end.

Lemma den_lit_inv x : forall st st',
  den (Lit x) st st' -> moved_only x st st'.
Proof.
  induction x as [|c x IH]; intros st st' H; unfold Lit in *; simpl in H.
  - den_inv. apply moved_only_nil.
  - inversion H as [| |? ? ? st1 ? H1 H2| | | | | |]; subst; clear H.
    apply den_chr_inv in H1 as (c' & Hc & Hm).
    apply Ascii.eqb_eq in Hc. subst c'.
    change (c :: x) with ([c] ++ x). eapply moved_only_trans; eauto.
Qed.

Lemma den_star_chr_inv sa st st' :
  den sa st st' -> forall g p, sa = Star g (Chr p) ->
  exists x, forallb p x = true /\ moved_only x st st'.
Proof.
  induction 1 as [| | | | |g0 a0 st|g0 a0 st st1 st2 Hd1 _ Hlt Hd2 IH| |];
    intros gg pp E; try discriminate; inversion E; subst; clear E.
  - exists []. split; [reflexivity | apply moved_only_nil].
  - destruct (IH _ _ eq_refl) as (x & Hx & Hm).
    apply den_chr_inv in Hd1 as (c & Hc & Hm1).
    exists ([c] ++ x). split; [simpl; now rewrite Hc|].
    eapply moved_only_trans; eauto.
Qed.

Lemma den_plus_chr_inv p st st' :
  den (Plus (Chr p)) st st' ->
  exists x, x <> [] /\ forallb p x = true /\ moved_only x st st'.
Proof.
  unfold Plus. intros H.
  inversion H as [| |? ? ? st1 ? H1 H2| | | | | |]; subst; clear H.
  apply den_chr_inv in H1 as (c & Hc & Hm1).
  eapply den_star_chr_inv in H2 as (x & Hx & Hm); [|reflexivity].
  exists ([c] ++ x). split; [discriminate|]. split.
  - simpl. now rewrite Hc.
  - eapply moved_only_trans; eauto.
Qed.

Lemma at_bol_is_bol st : at_bol st = is_bol (prev st).
Proof. reflexivity. Qed.

Lemma mtch_pattern_split {R} st (k : mstate -> option R) :
  mtch pattern st k = mtch head_re st (fun st1 => mtch tail_re st1 k).
Proof. reflexivity. Qed.

Lemma den_Cat_app l1 l2 : forall st st',
  den (Cat (l1 ++ l2)) st st' <->
  exists st1, den (Cat l1) st st1 /\ den (Cat l2) st1 st'.
Proof.
  induction l1 as [|a l1 IH]; intros st st'; simpl.
  - split.
    + intros H. exists st. split; [constructor | exact H].
    + intros (st1 & H1 & H2). inversion H1; subst. exact H2.
  - split.
    + intros H. inversion H as [| |? ? ? st2 ? H1 H2| | | | | |]; subst.
      apply IH in H2 as (st1 & H2 & H3).
      exists st1. split; [econstructor; eauto | exact H3].
    + intros (st1 & H1 & H2).
      inversion H1 as [| |? ? ? st2 ? H3 H4| | | | | |]; subst.
      econstructor; [exact H3|]. apply IH. eauto.
Qed.

Lemma den_pattern_split st st' :
  den pattern st st' <-> exists st1, den head_re st st1 /\ den tail_re st1 st'.
Proof. apply (den_Cat_app [_; _; _; _; _; _; _] [_; _; _; _; _; _]). Qed.

Lemma den_Cat_cons a l st st' :
  den (Cat (a :: l)) st st' <->
  exists st1, den a st st1 /\ den (Cat l) st1 st'.
Proof.
  simpl. split.
  - intros H. inversion H as [| |? ? ? st2 ? H1 H2| | | | | |]; subst. eauto.
  - intros (st1 & H1 & H2). econstructor; eauto.
Qed.

Lemma den_Cat_nil st st' : den (Cat []) st st' <-> st' = st.
Proof.
  simpl. split; [inversion 1; reflexivity | intros ->; constructor].
Qed.

Lemma den_opt_inv a st st' : den (Opt a) st st' -> den a st st' \/ st' = st.
Proof.
  unfold Opt. inversion 1 as [| | |? ? ? ? H1|? ? ? ? H1| | | |]; subst.
  - now left.
  - inversion H1; subst. now right.
Qed.

Lemma den_bol_inv st st' : den Bol st st' -> st' = st /\ is_bol (prev st) = true.
Proof. inversion 1; subst. split; [reflexivity | assumption]. Qed.

Lemma den_group_inv n a st st' :
  den (Group n a) st st' -> exists st1, den a st st1 /\ st' = set_group n st st1.
Proof. inversion 1; subst. eauto. Qed.

Lemma set_group_moved n x st st1 :
  moved x st st1 ->
  moved x st (set_group n st st1) /\
  groups (set_group n st st1) = (n, x) :: groups st1.
Proof.
  intros Hm. split.
  - destruct Hm as [H1 H2]. split; assumption.
  - simpl. now rewrite (moved_consumed _ _ _ Hm).
Qed.

(** The text of a fence opener. *)
Lemma den_fence_inv st st' :
  den fence_re st st' ->
  is_bol (prev st) = true /\
  exists f, fence_shape f /\ moved_only f st st'.
Proof.
  unfold fence_re. intros H.
  apply den_Cat_cons in H as (s1 & H1 & H).
  apply den_Cat_cons in H as (s2 & H2 & H).
  apply den_Cat_cons in H as (s3 & H3 & H).
  apply den_Cat_cons in H as (s4 & H4 & H).
  apply den_Cat_nil in H. subst st'.
  apply den_bol_inv in H1 as [-> Hb].
  apply den_lit_inv in H2.
  eapply den_star_chr_inv in H3 as (ns & Hns & H3); [|reflexivity].
  eapply den_star_chr_inv in H4 as (ws & Hws & H4); [|reflexivity].
  split; [exact Hb|].
  exists (fence ++ ns ++ ws). split.
  - exists ns, ws. auto.
  - eapply moved_only_trans; [eassumption|].
    eapply moved_only_trans; eassumption.
Qed.

Lemma glookup_cons_ne n m x gs : n <> m -> glookup n ((m, x) :: gs) = glookup n gs.
Proof.
  intros Hne. unfold glookup. simpl.
  destruct (Nat.eqb_spec m n); [congruence | reflexivity].
Qed.

Lemma glookup_cons_eq n x gs : glookup n ((n, x) :: gs) = Some x.
Proof. unfold glookup. simpl. now rewrite Nat.eqb_refl. Qed.

(** An optional fence group: nothing, or a fence at the start of a line. *)
Lemma den_opt_fence_inv n st st' :
  den (Opt (Group n fence_re)) st st' ->
  exists f, moved f st st' /\
    (f = [] \/ (is_bol (prev st) = true /\ fence_shape f)) /\
    forall m, m <> n -> glookup m (groups st') = glookup m (groups st).
Proof.
  intros H. apply den_opt_inv in H as [H | ->].
  - apply den_group_inv in H as (s1 & H & ->).
    apply den_fence_inv in H as (Hb & f & Hf & Hm & Hg).
    exists f. destruct (set_group_moved n _ _ _ Hm) as [Hm' Hg'].
    split; [exact Hm'|]. split; [right; auto|].
    intros m Hne. rewrite Hg', glookup_cons_ne, Hg; auto.
  - exists []. split; [apply moved_nil|]. split; [now left | reflexivity].
Qed.

Lemma letter_path_char c : is_ascii_letter c = true -> path_char c = true.
Proof.
  intros H. unfold path_char, dir_char, isword. rewrite H. reflexivity.
Qed.

Lemma dir_path_char c : dir_char c = true -> path_char c = true.
Proof. intros H. unfold path_char. rewrite H. reflexivity. Qed.

Lemma sep_path_char c : is_sep c = true -> path_char c = true.
Proof.
  intros H. unfold path_char. rewrite H. now rewrite orb_true_r.
Qed.

Lemma word_name_char c : isword c = true -> name_char c = true.
Proof. intros H. unfold name_char. now rewrite H. Qed.

Lemma forallb_impl (p q : ascii -> bool) x :
  (forall c, p c = true -> q c = true) -> forallb p x = true -> forallb q x = true.
Proof.
  intros Hpq. induction x as [|c x IH]; simpl; [reflexivity|].
  intros H. apply andb_true_iff in H as [H1 H2].
  rewrite (Hpq _ H1), (IH H2). reflexivity.
Qed.

Lemma ends_with_sep_app a b :
  ends_with_sep (a ++ b) =
  match b with [] => ends_with_sep a | _ => ends_with_sep b end.
Proof.
  unfold ends_with_sep. destruct b as [|c b]; [now rewrite app_nil_r|].
  rewrite rev_app_distr. destruct (rev (c :: b)) eqn:E; [|reflexivity].
  apply (f_equal (@length _)) in E. rewrite length_rev in E. discriminate.
Qed.

Lemma dirs_shape_app a b : dirs_shape a -> dirs_shape b -> dirs_shape (a ++ b).
Proof.
  intros [Ha1 Ha2] [Hb1 Hb2]. split.
  - rewrite forallb_app, Ha1, Hb1. reflexivity.
  - rewrite ends_with_sep_app. destruct b; assumption.
Qed.

Lemma den_seq_inv a b st st' :
  den (Seq a b) st st' -> exists st1, den a st st1 /\ den b st1 st'.
Proof. inversion 1; subst; eauto. Qed.

Lemma den_eps_inv st st' : den Eps st st' -> st' = st.
Proof. inversion 1; reflexivity. Qed.

Lemma den_alt_inv a b st st' :
  den (Alt a b) st st' -> den a st st' \/ den b st st'.
Proof. inversion 1; subst; [now left | now right]. Qed.

Lemma den_drive_inv st st' :
  den (Opt (Alt (Cat [Chr is_ascii_letter; Lit [":"%char; BACKSLASH]])
                (Lit (s "/")))) st st' ->
  exists d, dirs_shape d /\ moved_only d st st'.
Proof.
  intros H. apply den_opt_inv in H as [H | ->].
  - apply den_alt_inv in H as [H1 | H1].
    + apply den_Cat_cons in H1 as (s1 & H1 & H).
      apply den_Cat_cons in H as (s2 & H2 & H).
      apply den_Cat_nil in H. subst s2.
      apply den_chr_inv in H1 as (c & Hc & H1).
      apply den_lit_inv in H2.
      exists ([c] ++ [":"%char; BACKSLASH]). split.
      * split; [simpl; now rewrite (letter_path_char _ Hc) | reflexivity].
      * eapply moved_only_trans; eassumption.
    + apply den_lit_inv in H1. exists (s "/"). split; [|exact H1].
      split; reflexivity.
  - exists []. split; [split; reflexivity | apply moved_only_nil].
Qed.

Lemma den_dirs_inv sa st st' :
  den sa st st' ->
  forall g, sa = Star g (Cat [Plus (Chr dir_char); Chr is_sep]) ->
  exists d, dirs_shape d /\ moved_only d st st'.
Proof.
  induction 1 as [| | | | |g0 a0 st|g0 a0 st st1 st2 Hd1 _ Hlt Hd2 IH| |];
    intros gg E; try discriminate; inversion E; subst; clear E.
  - exists []. split; [split; reflexivity | apply moved_only_nil].
  - destruct (IH _ eq_refl) as (d & Hd & Hm).
    apply den_seq_inv in Hd1 as (s1 & H1 & H).
    apply den_seq_inv in H as (s2 & H2 & H).
    apply den_eps_inv in H. subst s2.
    apply den_plus_chr_inv in H1 as (x & _ & Hx & H1).
    apply den_chr_inv in H2 as (c & Hc & H2).
    exists ((x ++ [c]) ++ d). split.
    + apply dirs_shape_app; [|exact Hd]. split.
      * rewrite forallb_app. simpl.
        rewrite (forallb_impl _ _ _ dir_path_char Hx), (sep_path_char _ Hc).
        reflexivity.
      * rewrite ends_with_sep_app. unfold ends_with_sep. simpl. exact Hc.
    + eapply moved_only_trans; [|exact Hm].
      eapply moved_only_trans; eassumption.
Qed.

Lemma den_ext_inv st st' :
  den (Opt (Group 3 (Cat [Lit (s "."); Plus (Chr isword)]))) st st' ->
  exists e, forallb name_char e = true /\ moved e st st' /\
    forall m, m <> 3 -> glookup m (groups st') = glookup m (groups st).
Proof.
  intros H. apply den_opt_inv in H as [H | ->].
  - apply den_group_inv in H as (s0 & H & ->).
    apply den_Cat_cons in H as (s1 & H1 & H).
    apply den_Cat_cons in H as (s2 & H2 & H).
    apply den_Cat_nil in H. subst s2.
    apply den_lit_inv in H1.
    apply den_plus_chr_inv in H2 as (x & _ & Hx & H2).
    pose proof (moved_only_trans _ _ _ _ _ H1 H2) as [Hm Hg].
    destruct (set_group_moved 3 _ _ _ Hm) as [Hm' Hg'].
    exists (s "." ++ x). split; [|split].
    + simpl. exact (forallb_impl _ _ _ word_name_char Hx).
    + exact Hm'.
    + intros m Hne. rewrite Hg', glookup_cons_ne, Hg; auto.
  - exists []. split; [reflexivity|]. split; [apply moved_nil | reflexivity].
Qed.

(** The text of a path: directories, then a name. *)
Lemma den_path_inv st st' :
  den path_re st st' ->
  exists p, path_shape p /\ moved p st st' /\
    forall m, m <> 3 -> glookup m (groups st') = glookup m (groups st).
Proof.
  unfold path_re. intros H.
  apply den_Cat_cons in H as (s1 & H1 & H).
  apply den_Cat_cons in H as (s2 & H2 & H).
  apply den_Cat_cons in H as (s3 & H3 & H).
  apply den_Cat_cons in H as (s4 & H4 & H).
  apply den_Cat_nil in H. subst s4.
  apply den_drive_inv in H1 as (d1 & Hd1 & H1).
  eapply den_dirs_inv in H2 as (d2 & Hd2 & H2); [|reflexivity].
  apply den_plus_chr_inv in H3 as (w & Hw0 & Hw & H3).
  apply den_ext_inv in H4 as (e & He & H4 & Hg4).
  pose proof (moved_only_trans _ _ _ _ _ H1 H2) as H12.
  pose proof (moved_only_trans _ _ _ _ _ H12 H3) as [Hm Hg].
  exists ((d1 ++ d2) ++ w ++ e). split; [|split].
  - exists (d1 ++ d2), (w ++ e). split; [reflexivity|].
    destruct (dirs_shape_app _ _ Hd1 Hd2) as [Ha Hb].
    repeat split; try assumption.
    + destruct w; [congruence | discriminate].
    + rewrite forallb_app, (forallb_impl _ _ _ word_name_char Hw), He.
      reflexivity.
  - rewrite app_assoc. eapply moved_trans; eassumption.
  - intros m Hne. rewrite (Hg4 m Hne). now rewrite Hg.
Qed.

Lemma moved_only_moved x st st' : moved_only x st st' -> moved x st st'.
Proof. now intros [H _]. Qed.

(** What the part of the pattern up to the ORIGINAL marker matches. *)
Lemma den_head_inv st st1 :
  den head_re st st1 ->
  exists f1 p ws f4,
    moved (f1 ++ p ++ ws ++ f4 ++ ORIGINAL) st st1 /\
    (f1 = [] \/ fence_shape f1) /\
    is_bol (prev_after (prev st) f1) = true /\
    path_shape p /\
    ws <> [] /\ forallb isspace ws = true /\
    (f4 = [] \/ fence_shape f4) /\
    glookup 2 (groups st1) = Some p /\
    is_bol (prev_after (prev st) (f1 ++ p ++ ws ++ f4)) = true.
Proof.
  unfold head_re. intros H.
  apply den_Cat_cons in H as (s1 & H1 & H).
  apply den_Cat_cons in H as (s2 & H2 & H).
  apply den_Cat_cons in H as (s3 & H3 & H).
  apply den_Cat_cons in H as (s4 & H4 & H).
  apply den_Cat_cons in H as (s5 & H5 & H).
  apply den_Cat_cons in H as (s6 & H6 & H).
  apply den_Cat_cons in H as (s7 & H7 & H).
  apply den_Cat_nil in H. subst s7.
  apply den_opt_fence_inv in H1 as (f1 & Hm1 & Hf1 & Hg1).
  apply den_bol_inv in H2 as [-> Hb2].
  apply den_group_inv in H3 as (s0 & H3 & ->).
  apply den_path_inv in H3 as (p & Hp & Hm3 & Hg3).
  destruct (set_group_moved 2 _ _ _ Hm3) as [Hm3' Hg3'].
  apply den_plus_chr_inv in H4 as (ws & Hws0 & Hws & [Hm4 Hg4]).
  apply den_opt_fence_inv in H5 as (f4 & Hm5 & Hf4 & Hg5).
  apply den_bol_inv in H6 as [-> Hb6].
  apply den_lit_inv in H7 as [Hm7 Hg7].
  exists f1, p, ws, f4. repeat split; try assumption.
  - destruct (moved_trans _ _ _ _ _ Hm1
               (moved_trans _ _ _ _ _ Hm3'
                 (moved_trans _ _ _ _ _ Hm4
                   (moved_trans _ _ _ _ _ Hm5 Hm7)))); assumption.
  - destruct (moved_trans _ _ _ _ _ Hm1
               (moved_trans _ _ _ _ _ Hm3'
                 (moved_trans _ _ _ _ _ Hm4
                   (moved_trans _ _ _ _ _ Hm5 Hm7)))); assumption.
  - destruct Hf1 as [->|[_ Hf1]]; [now left | now right].
  - destruct Hm1 as [_ <-]. exact Hb2.
  - destruct Hf4 as [->|[_ Hf4]]; [now left | now right].
  - rewrite Hg7, (Hg5 2), Hg4, Hg3' by discriminate.
    apply glookup_cons_eq.
  - destruct (moved_trans _ _ _ _ _ Hm1
               (moved_trans _ _ _ _ _ Hm3'
                 (moved_trans _ _ _ _ _ Hm4 Hm5))) as [_ E].
    rewrite <- E. exact Hb6.
Qed.

(** What the part of the pattern after the ORIGINAL marker matches. *)
Lemma den_tail_inv st1 st' :
  den tail_re st1 st' ->
  exists o u,
    moved (o ++ DIVIDER ++ u ++ UPDATED) st1 st' /\
    glookup 5 (groups st') = Some o /\
    glookup 6 (groups st') = Some u /\
    forall m, m <> 5 -> m <> 6 ->
      glookup m (groups st') = glookup m (groups st1).
Proof.
  unfold tail_re. intros H.
  apply den_Cat_cons in H as (s1 & H1 & H).
  apply den_Cat_cons in H as (s2 & H2 & H).
  apply den_Cat_cons in H as (s3 & H3 & H).
  apply den_Cat_cons in H as (s4 & H4 & H).
  apply den_Cat_cons in H as (s5 & H5 & H).
  apply den_Cat_cons in H as (s6 & H6 & H).
  apply den_Cat_nil in H. subst s6.
  apply den_group_inv in H1 as (s0 & H1 & ->).
  apply den_Cat_cons in H1 as (t1 & H1a & H1).
  apply den_Cat_cons in H1 as (t2 & H1b & H1).
  apply den_Cat_nil in H1. subst t2.
  eapply den_star_chr_inv in H1a as (x & _ & H1a); [|reflexivity].
  assert (H1b' : exists y, moved_only y t1 s0).
  { apply den_opt_inv in H1b as [H1b | ->].
    - apply den_chr_inv in H1b as (c & _ & H1b). eauto.
    - exists []. apply moved_only_nil. }
  destruct H1b' as (y & H1b').
  pose proof (moved_only_trans _ _ _ _ _ H1a H1b') as [Hmo Hgo].
  destruct (set_group_moved 5 _ _ _ Hmo) as [Hmo' Hgo'].
  apply den_bol_inv in H2 as [-> _].
  apply den_lit_inv in H3 as [Hm3 Hg3].
  apply den_group_inv in H4 as (s0' & H4 & ->).
  eapply den_star_chr_inv in H4 as (u & _ & [Hmu Hgu]); [|reflexivity].
  destruct (set_group_moved 6 _ _ _ Hmu) as [Hmu' Hgu'].
  apply den_bol_inv in H5 as [-> _].
  apply den_lit_inv in H6 as [Hm6 Hg6].
  exists (x ++ y), u. repeat split.
  - destruct (moved_trans _ _ _ _ _ Hmo'
               (moved_trans _ _ _ _ _ Hm3
                 (moved_trans _ _ _ _ _ Hmu' Hm6))); assumption.
  - destruct (moved_trans _ _ _ _ _ Hmo'
               (moved_trans _ _ _ _ _ Hm3
                 (moved_trans _ _ _ _ _ Hmu' Hm6))); assumption.
  - rewrite Hg6, Hgu', glookup_cons_ne, Hgu, Hg3, Hgo' by discriminate.
    apply glookup_cons_eq.
  - rewrite Hg6, Hgu'. apply glookup_cons_eq.
  - intros m H5' H6'.
    rewrite Hg6, Hgu', glookup_cons_ne, Hgu, Hg3, Hgo', glookup_cons_ne, Hgo
      by congruence.
    reflexivity.
Qed.

Lemma startswith_spec x pre :
  startswith x pre = true <-> exists y, x = pre ++ y.
Proof.
  revert x. induction pre as [|p pre IH]; intros x; simpl.
  - split; [intros _; exists x; reflexivity | reflexivity].
  - destruct x as [|c x]; [split; [discriminate | intros [y Hy]; discriminate]|].
    rewrite andb_true_iff, Ascii.eqb_eq, IH. split.
    + intros [-> [y ->]]. eauto.
    + intros [y Hy]. inversion Hy; subst. eauto.
Qed.

Lemma occurs_spec mk x :
  occurs mk x = true <-> exists a b, x = a ++ mk ++ b.
Proof.
  induction x as [|c x IH]; simpl.
  - rewrite orb_false_r, startswith_spec. split.
    + intros [y Hy]. exists [], y. exact Hy.
    + intros (a & b & H). destruct a; [eauto|discriminate].
  - rewrite orb_true_iff, startswith_spec, IH. split.
    + intros [[y Hy] | (a & b & ->)].
      * exists [], y. exact Hy.
      * exists (c :: a), b. reflexivity.
    + intros (a & b & H). destruct a as [|c' a].
      * left. eauto.
      * right. inversion H; subst. eauto.
Qed.

(** ** The scan *)
Lemma scan_sound re : forall x skip b m,
  In m (scan re skip b x) ->
  exists b' y st', (exists a, x = a ++ y) /\
    mtch re (MState b' y []) Some = Some st' /\
    m = RMatch (groups st') (consumed (MState b' y []) st').
Proof.
  induction x as [|c x IH]; intros skip b m H; simpl in H;
    apply in_app_or in H as [H | H].
  - destruct skip; [|destruct H].
    destruct (mtch re (MState b [] []) Some) as [st'|] eqn:E; [|destruct H].
    destruct H as [<- | []]. exists b, [], st'.
    split; [exists []; reflexivity | auto].
  - destruct H.
  - destruct skip; [|destruct H].
    destruct (mtch re (MState b (c :: x) []) Some) as [st'|] eqn:E;
      [|destruct H].
    destruct H as [<- | []]. exists b, (c :: x), st'.
    split; [exists []; reflexivity | auto].
  - apply IH in H as (b' & y & st' & [a ->] & H1 & H2).
    exists b', y, st'. split; [exists (c :: a); reflexivity | auto].
Qed.

(** Every match of the edit-block pattern contains the ORIGINAL marker and
    has a path of the shape of [path_re]. *)
Lemma pattern_match_inv st st' :
  mtch pattern st Some = Some st' ->
  occurs ORIGINAL (rest st) = true /\
  exists p o u, glookup 2 (groups st') = Some p /\ path_shape p /\
    glookup 5 (groups st') = Some o /\ glookup 6 (groups st') = Some u.
Proof.
  intros H. apply mtch_sound in H as (st2 & Hd & E). inversion E; subst st2.
  apply den_pattern_split in Hd as (st1 & Hh & Ht).
  apply den_head_inv in Hh as (f1 & p & ws & f4 & [Hm _] & _ & _ & Hp & _ & _ & _ & Hg & _).
  apply den_tail_inv in Ht as (o & u & _ & Ho & Hu & Hk).
  split.
  - apply occurs_spec. exists (f1 ++ p ++ ws ++ f4), (rest st1).
    rewrite Hm. now rewrite <- !app_assoc.
  - exists p, o, u. rewrite Hk, Hg by discriminate. auto.
Qed.

Lemma occurs_suffix mk a y : occurs mk y = true -> occurs mk (a ++ y) = true.
Proof.
  rewrite !occurs_spec. intros (a' & b & ->). exists (a ++ a'), b.
  now rewrite <- app_assoc.
Qed.

(** A text without the ORIGINAL marker has no edit block. *)
Lemma finditer_no_marker x :
  occurs ORIGINAL x = false -> finditer pattern x = [].
Proof.
  intros H. destruct (finditer pattern x) as [|m l] eqn:E; [reflexivity|].
  assert (Hin : In m (finditer pattern x)) by (rewrite E; now left).
  apply scan_sound in Hin as (b' & y & st' & [a ->] & Hm & _).
  apply pattern_match_inv in Hm as [Ho _]. simpl in Ho.
  rewrite (occurs_suffix _ a _ Ho) in H. discriminate.
Qed.

Lemma path_shape_b p : path_shape p -> path_shapeb p = true.
Proof.
  intros (d & l & -> & H1 & H2 & H3 & H4). unfold path_shapeb.
  apply existsb_exists. exists (length d). split.
  - apply in_seq. rewrite length_app. lia.
  - rewrite take_app_length, drop_app_length, H1, H2, H4.
    rewrite bool_decide_eq_false_2 by assumption. reflexivity.
Qed.

Lemma m_path_shape x m :
  In m (finditer pattern x) -> path_shape (default [] (group 2 m)).
Proof.
  intros Hin.
  apply scan_sound in Hin as (b' & y & st' & _ & Hm & ->).
  apply pattern_match_inv in Hm as (_ & p & o & u & Hp & Hs & _).
  unfold group. simpl. unfold glookup in Hp. rewrite Hp. exact Hs.
Qed.

(** * Texts of plain lines, and [do_replace] on an empty file *)

Lemma splitlines_from_line l : forall cur x,
  plain_line l = true ->
  splitlines_from false cur (l ++ LF :: x)
  = (rev cur ++ l) :: splitlines_from false [] x.
Proof.
  induction l as [|c l IH]; intros cur x H; simpl.
  - now rewrite app_nil_r.
  - simpl in H. apply andb_true_iff in H as [Hc Hl].
    apply negb_true_iff in Hc. rewrite andb_false_r, Hc.
    rewrite IH by assumption. simpl. now rewrite <- app_assoc.
Qed.

Lemma splitlines_unlines ls :
  forallb plain_line ls = true -> splitlines (unlines ls) = ls.
Proof.
  unfold splitlines. induction ls as [|l ls IH]; intros H; simpl.
  - reflexivity.
  - simpl in H. apply andb_true_iff in H as [Hl Hls].
    change (unlines (l :: ls)) with ((l ++ [LF]) ++ unlines ls).
    rewrite <- app_assoc. simpl.
    rewrite splitlines_from_line by assumption. simpl.
    now rewrite IH.
Qed.

Lemma join_unlines ls : ls <> [] -> join [LF] ls ++ [LF] = unlines ls.
Proof.
  induction ls as [|l ls IH]; intros H; [congruence|].
  destruct ls as [|l' ls].
  - unfold unlines. simpl. now rewrite ?app_nil_r.
  - change (join [LF] (l :: l' :: ls)) with (l ++ [LF] ++ join [LF] (l' :: ls)).
    change (unlines (l :: l' :: ls)) with ((l ++ [LF]) ++ unlines (l' :: ls)).
    rewrite <- IH by discriminate. now rewrite <- !app_assoc.
Qed.

Lemma plain_line_no_LF l c x : plain_line (l ++ c :: x) = true -> c <> LF.
Proof.
  unfold plain_line. rewrite forallb_app. simpl. intros H.
  apply andb_true_iff in H as [_ H]. apply andb_true_iff in H as [H _].
  intros ->. discriminate.
Qed.

Lemma rev_join_last ls :
  ls <> [] -> List.last ls [] <> [] -> plain_line (List.last ls []) = true ->
  exists c x, rev (join [LF] ls) = c :: x /\ c <> LF.
Proof.
  induction ls as [|l ls IH]; intros H Hl Hp; [congruence|].
  destruct ls as [|l' ls].
  - simpl in *. destruct (rev l) as [|c x] eqn:E.
    + apply (f_equal (@rev _)) in E. rewrite rev_involutive in E. contradiction.
    + exists c, x. split; [reflexivity|].
      apply (f_equal (@rev _)) in E. rewrite rev_involutive in E. simpl in E.
      subst l. eapply plain_line_no_LF. exact Hp.
  - change (join [LF] (l :: l' :: ls)) with (l ++ [LF] ++ join [LF] (l' :: ls)).
    destruct IH as (c & x & E & Hc); try assumption; [discriminate|].
    rewrite !rev_app_distr, E. simpl. eauto.
Qed.




Section DoReplace.
Context `{C : Collaborators}.

Lemma do_replace_populates (w : World) (fname before after after' : str) :
  strip_quoted_wrapping before (StrName fname) = Ok [] ->
  strip_quoted_wrapping after (StrName fname) = Ok after' ->
  (text <$> disk w !! fname = None \/ text <$> disk w !! fname = Some []) ->
  exists w',
    do_replace fname before after w = (w', Ok true) /\
    text <$> disk w' !! fname = Some after' /\
    (forall p, p <> fname -> disk w' !! p = disk w !! p).
Proof.
  intros Hb Ha Hfile. unfold do_replace, bind, lift, path_exists, gets.
  rewrite Hb, Ha. simpl.
  destruct (disk w !! fname) as [f|] eqn:Ef.
  - destruct Hfile as [Hf|Hf]; [discriminate|]. simpl in Hf.
    injection Hf as Hf.
    rewrite bool_decide_eq_true_2 by eauto. simpl.
    unfold read_text. rewrite Ef, Hf. simpl.
    eexists. split; [reflexivity|]. simpl. split.
    + now rewrite lookup_insert_eq.
    + intros p Hp. now rewrite lookup_insert_ne.
  - rewrite bool_decide_eq_false_2 by (intros [? ?]; discriminate). simpl.
    unfold read_text. simpl. rewrite lookup_insert_eq, Ef. simpl.
    eexists. split; [reflexivity|]. simpl. split.
    + now rewrite lookup_insert_eq.
    + intros p Hp. now rewrite !lookup_insert_ne.
Qed.
End DoReplace.

(** * What the methods leave as it was; streams *)

Section Frames.
Context `{C : Collaborators}.

Lemma keeps_ret {A B} (f : World -> B) (a : A) : keeps f (ret a).
Proof. intros w. reflexivity. Qed.

Lemma keeps_raise {A B} (f : World -> B) e : keeps f (raise (A := A) e).
Proof. intros w. reflexivity. Qed.

Lemma keeps_gets {A B} (f : World -> B) (g : World -> A) : keeps f (gets g).
Proof. intros w. reflexivity. Qed.

Lemma keeps_lift {A B} (f : World -> B) (r : result A) : keeps f (lift r).
Proof. intros w. reflexivity. Qed.

Lemma keeps_modify {B} (f : World -> B) g :
  (forall w, f (g w) = f w) -> keeps f (modify g).
Proof. intros H w. apply H. Qed.

Lemma keeps_bind {A A' B} (f : World -> B) (m : M A) (k : A -> M A') :
  keeps f m -> (forall a, keeps f (k a)) -> keeps f (bind m k).
Proof.
  intros Hm Hk w. unfold bind. specialize (Hm w).
  destruct (m w) as [w' [a|e]]; simpl in *.
  - now rewrite Hk.
  - exact Hm.
Qed.

Lemma keeps_try_except {A B} (f : World -> B) (m : M A) handler :
  keeps f m -> (forall e h, handler e = Some h -> keeps f h) ->
  keeps f (try_except m handler).
Proof.
  intros Hm Hh w. unfold try_except. specialize (Hm w).
  destruct (m w) as [w' [a|e]]; simpl in *; [exact Hm|].
  destruct (handler e) as [h|] eqn:E; simpl; [|exact Hm].
  now rewrite (Hh _ _ E).
Qed.

Lemma keeps_on_KeyboardInterrupt {A B} (f : World -> B) (h0 : M A) e h :
  keeps f h0 -> on_KeyboardInterrupt h0 e = Some h -> keeps f h.
Proof. intros H0 E. destruct e; try discriminate. now inversion E; subst. Qed.

Lemma keeps_on_Exception {A B} (f : World -> B) (h0 : M A) e h :
  keeps f h0 -> on_Exception h0 e = Some h -> keeps f h.
Proof. intros H0 E. destruct e; try discriminate; now inversion E; subst. Qed.
End Frames.

Create HintDb keeps.
#[global] Hint Resolve keeps_ret keeps_raise keeps_gets keeps_lift : keeps.

Ltac keeps_step :=
  first
    [ solve [auto with keeps]
    | apply keeps_modify; intros; reflexivity
    | apply keeps_bind; [|intros]
    | eapply keeps_try_except; [|intros ? ? ?]
    | eapply keeps_on_KeyboardInterrupt; [|eassumption]
    | eapply keeps_on_Exception; [|eassumption]
    | match goal with
      | |- keeps _ (match ?x with _ => _ end) => destruct x
      | |- keeps _ (let (_, _) := ?x in _) => destruct x
      end ].

Ltac keeps_auto := repeat keeps_step.

Section FrameLemmas.
Context `{C : Collaborators}.
Context {B : Type} (f : World -> B).

Lemma keeps_read_text p : keeps f (read_text p).
Proof. intros w. unfold read_text. destruct (disk w !! p); reflexivity. Qed.

Lemma keeps_stat_mtime p : keeps f (stat_mtime p).
Proof. intros w. unfold stat_mtime. destruct (disk w !! p); reflexivity. Qed.

Lemma keeps_path_exists p : keeps f (path_exists p).
Proof. intros w. reflexivity. Qed.

Hint Resolve keeps_read_text keeps_stat_mtime keeps_path_exists : keeps.

Lemma keeps_write_text p x : ignores_disk f -> keeps f (write_text p x).
Proof. intros H w. apply H. Qed.

Lemma keeps_touch p : ignores_disk f -> keeps f (touch p).
Proof. intros H w. apply H. Qed.

Lemma keeps_input : ignores_keyboard f -> keeps f input.
Proof.
  intros H w. unfold input. destruct (keyboard w) as [|[]]; simpl; auto.
Qed.

Lemma keeps_Confirm_ask q : ignores_confirms f -> keeps f (Confirm_ask q).
Proof.
  intros H w. unfold Confirm_ask. destruct (confirms w) as [|[]]; simpl; auto.
Qed.

Lemma keeps_Prompt_ask q : ignores_answers f -> keeps f (Prompt_ask q).
Proof.
  intros H w. unfold Prompt_ask. destruct (answers w) as [|[]]; simpl; auto.
Qed.

Lemma keeps_create model msgs :
  ignores_completions f -> keeps f (ChatCompletion_create model msgs).
Proof.
  intros H w. unfold ChatCompletion_create.
  destruct (completions w); simpl; auto.
Qed.

Lemma keeps_set_resp v : ignores_resp f -> keeps f (modify (set_resp v)).
Proof. intros H w. apply H. Qed.

Lemma keeps_append_delta d : ignores_resp f -> keeps f (append_delta d).
Proof. intros H. destruct d; simpl; [intros w; apply H | apply keeps_ret]. Qed.

Hint Resolve keeps_append_delta keeps_set_resp : keeps.

Lemma keeps_show_send_progress_loop c :
  ignores_resp f -> keeps f (show_send_progress_loop c).
Proof. intros H. induction c as [|[fr d|] c IH]; simpl; keeps_auto. Qed.

Lemma keeps_show_send_output_plain_loop c :
  ignores_resp f -> keeps f (show_send_output_plain_loop c).
Proof. intros H. induction c as [|[fr d|] c IH]; simpl; keeps_auto. Qed.

Lemma keeps_show_send_output_color_loop c :
  ignores_resp f -> keeps f (show_send_output_color_loop c).
Proof. intros H. induction c as [|[fr d|] c IH]; simpl; keeps_auto. Qed.

Hint Resolve keeps_create keeps_show_send_progress_loop
  keeps_show_send_output_plain_loop keeps_show_send_output_color_loop
  : keeps.

Lemma keeps_send msgs model pbe silent :
  ignores_resp f -> ignores_completions f -> keeps f (send msgs model pbe silent).
Proof. intros H1 H2. unfold send. keeps_auto. Qed.

Lemma keeps_stat_all names : keeps f (stat_all names).
Proof.
  induction names as [|n names IH]; simpl; keeps_auto.
Qed.

Hint Resolve keeps_stat_all : keeps.

Lemma keeps_get_last_modified : keeps f get_last_modified.
Proof. unfold get_last_modified. keeps_auto. Qed.

Lemma keeps_commit_scan r names : forall d1 d2 d3,
  keeps f (commit_scan r names d1 d2 d3).
Proof.
  induction names as [|n names IH]; intros; simpl; keeps_auto.
Qed.

Lemma keeps_set_last_modified v :
  ignores_last_modified f -> keeps f (modify (set_last_modified v)).
Proof. intros H w. apply H. Qed.

Lemma keeps_set_repo_state v :
  ignores_repo f -> keeps f (modify (set_repo_state v)).
Proof. intros H w. apply H. Qed.

Hint Resolve keeps_send keeps_get_last_modified keeps_commit_scan
  keeps_Prompt_ask keeps_set_last_modified keeps_set_repo_state : keeps.

Lemma keeps_commit_make r rel context msg :
  ignores_last_modified f -> ignores_repo f ->
  keeps f (commit_make r rel context msg).
Proof. intros H1 H2. unfold commit_make. keeps_auto. Qed.

Lemma keeps_commit_ask msg :
  ignores_last_modified f -> ignores_answers f -> keeps f (commit_ask msg).
Proof. intros H1 H2. unfold commit_ask. keeps_auto. Qed.

Hint Resolve keeps_commit_make keeps_commit_ask : keeps.

Lemma keeps_commit history prefix ask :
  ignores_resp f -> ignores_completions f -> ignores_last_modified f ->
  ignores_repo f -> ignores_answers f ->
  keeps f (commit history prefix ask).
Proof. intros H1 H2 H3 H4 H5. unfold commit. keeps_auto. Qed.

Hint Resolve keeps_path_exists keeps_read_text keeps_touch keeps_write_text
  : keeps.

Lemma keeps_do_replace fname before after :
  ignores_disk f -> keeps f (do_replace fname before after).
Proof. intros H. unfold do_replace. keeps_auto. Qed.

Lemma keeps_do_gpt_powered_replace fname edit request :
  ignores_disk f -> ignores_resp f -> ignores_completions f ->
  keeps f (do_gpt_powered_replace fname edit request).
Proof. intros H1 H2 H3. unfold do_gpt_powered_replace. keeps_auto. Qed.

Lemma keeps_set_fnames g :
  ignores_fnames f -> keeps f (modify (fun w => set_fnames (g w) w)).
Proof. intros H w. apply H. Qed.

Hint Resolve keeps_do_replace keeps_do_gpt_powered_replace keeps_Confirm_ask
  keeps_set_fnames : keeps.

Lemma keeps_allow_edit path :
  ignores_fnames f -> ignores_confirms f -> keeps f (allow_edit path).
Proof. intros H1 H2. unfold allow_edit. keeps_auto. Qed.

Hint Resolve keeps_allow_edit : keeps.

Lemma keeps_update_files_loop inp ms : forall edited,
  ignores_disk f -> ignores_resp f -> ignores_completions f ->
  ignores_fnames f -> ignores_confirms f ->
  keeps f (update_files_loop inp ms edited).
Proof.
  intros edited H1 H2 H3 H4 H5. revert edited.
  induction ms as [|m ms IH]; intros edited; simpl; keeps_auto.
Qed.
End FrameLemmas.

#[global] Hint Resolve keeps_read_text keeps_stat_mtime keeps_path_exists
  keeps_write_text keeps_touch keeps_input keeps_Confirm_ask keeps_Prompt_ask
  keeps_create keeps_set_resp keeps_append_delta
  keeps_show_send_progress_loop keeps_show_send_output_plain_loop
  keeps_show_send_output_color_loop keeps_send keeps_stat_all
  keeps_get_last_modified keeps_commit_scan keeps_set_last_modified
  keeps_set_repo_state keeps_commit_make keeps_commit_ask keeps_commit
  keeps_do_replace
  keeps_do_gpt_powered_replace keeps_set_fnames keeps_allow_edit
  keeps_update_files_loop : keeps.

#[global] Hint Extern 1 (ignores_resp _) => (red; intros; reflexivity) : keeps.
#[global] Hint Extern 1 (ignores_completions _) =>
  (red; intros; reflexivity) : keeps.
#[global] Hint Extern 1 (ignores_disk _) => (red; intros; reflexivity) : keeps.
#[global] Hint Extern 1 (ignores_fnames _) => (red; intros; reflexivity) : keeps.
#[global] Hint Extern 1 (ignores_confirms _) =>
  (red; intros; reflexivity) : keeps.
#[global] Hint Extern 1 (ignores_answers _) => (red; intros; reflexivity) : keeps.
#[global] Hint Extern 1 (ignores_keyboard _) =>
  (red; intros; reflexivity) : keeps.
#[global] Hint Extern 1 (ignores_last_modified _) =>
  (red; intros; reflexivity) : keeps.
#[global] Hint Extern 1 (ignores_repo _) => (red; intros; reflexivity) : keeps.

Section Streams.
Context `{C : Collaborators}.

Lemma bind_modify {A} g (k : unit -> M A) w :
  bind (modify g) k w = k tt (g w).
Proof. reflexivity. Qed.

Lemma bind_gets {A B} (g : World -> A) (k : A -> M B) w :
  bind (gets g) k w = k (g w) w.
Proof. reflexivity. Qed.

Lemma bind_ret {A B} (a : A) (k : A -> M B) w : bind (ret a) k w = k a w.
Proof. reflexivity. Qed.

Lemma bind_eq {A B} (m : M A) (k : A -> M B) w w' r :
  m w = (w', r) ->
  bind m k w = match r with Ok a => k a w' | Raise e => (w', Raise e) end.
Proof. intros E. unfold bind. now rewrite E. Qed.

Lemma append_delta_spec d v w :
  append_delta d (set_resp v w)
  = (set_resp (v ++ match d with Some x => x | None => [] end) w, Ok tt).
Proof. destruct d; simpl; [reflexivity | now rewrite app_nil_r]. Qed.

Lemma show_send_progress_loop_spec c : forall v w,
  show_send_progress_loop c (set_resp v w)
  = (set_resp (v ++ received c) w, stream_result c).
Proof.
  induction c as [|[fr d|] c IH]; intros v w; simpl.
  - now rewrite app_nil_r.
  - unfold bind. rewrite append_delta_spec, IH.
    destruct d; now rewrite <- ?app_assoc, ?app_nil_r.
  - now rewrite app_nil_r.
Qed.

Lemma show_send_output_plain_loop_spec c : forall v w,
  show_send_output_plain_loop c (set_resp v w)
  = (set_resp (v ++ received c) w, stream_result c).
Proof.
  induction c as [|[fr d|] c IH]; intros v w; simpl.
  - now rewrite app_nil_r.
  - unfold bind. rewrite append_delta_spec, IH.
    destruct d; now rewrite <- ?app_assoc, ?app_nil_r.
  - now rewrite app_nil_r.
Qed.

Lemma show_send_output_color_loop_spec c : forall v w,
  finishes_normally c = true ->
  show_send_output_color_loop c (set_resp v w)
  = (set_resp (v ++ received c) w, stream_result c).
Proof.
  induction c as [|[fr d|] c IH]; intros v w H; simpl.
  - now rewrite app_nil_r.
  - simpl in H. apply andb_true_iff in H as [H1 H2].
    apply negb_true_iff in H1. rewrite H1.
    unfold bind. rewrite append_delta_spec, IH by assumption.
    destruct d; now rewrite <- ?app_assoc, ?app_nil_r.
  - now rewrite app_nil_r.
Qed.

(** [send] on a stream without an unexpected finish (or one that is not
    shown in colour): the text received, and whether the stream was
    cancelled. *)
Lemma send_spec msgs model pbe silent w c more :
  completions w = c :: more ->
  pbe <> 0 \/ pretty w = false \/ silent = true \/ finishes_normally c = true ->
  send msgs model pbe silent w
  = (after_send msgs model c more w, Ok (received c, cancelled c)).
Proof.
  intros Hc Hok. unfold send, after_send.
  assert (Hpick :
    (match model with None | Some [] => gets main_model | Some m => ret m end) w
    = (w, Ok (model_choice model w))).
  { destruct model as [[|]|]; reflexivity. }
  unfold bind at 1. rewrite Hpick.
  unfold bind at 1. unfold ChatCompletion_create at 1. rewrite Hc.
  set (w1 := set_completions more (sent w ++ [(model_choice model w, msgs)]) w).
  unfold bind at 1. unfold gets at 1.
  assert (Hshow :
    (if negb (pbe =? 0) then show_send_progress c
     else if pretty w1 && negb silent then show_send_output_color c
     else show_send_output_plain c silent) w1
    = (set_resp (received c) w1, stream_result c)).
  { destruct (Nat.eqb_spec pbe 0) as [Hp|Hp]; cbn [negb].
    - destruct (pretty w1 && negb silent) eqn:Ep.
      + assert (Hf : finishes_normally c = true).
        { destruct Hok as [?|[Hq|[Hq|?]]]; try congruence.
          - change (pretty w1) with (pretty w) in Ep.
            rewrite Hq in Ep. discriminate.
          - rewrite Hq, andb_false_r in Ep. discriminate. }
        unfold show_send_output_color. rewrite bind_modify.
        now rewrite show_send_output_color_loop_spec.
      + unfold show_send_output_plain. rewrite bind_modify.
        now rewrite show_send_output_plain_loop_spec.
    - unfold show_send_progress. rewrite bind_modify.
      now rewrite show_send_progress_loop_spec. }
  unfold bind at 1. unfold try_except. unfold bind at 1. rewrite Hshow.
  unfold stream_result. destruct (cancelled c); reflexivity.
Qed.

(** A cancelled stream makes the colour consumer raise, whatever the
    chunks. *)
Lemma show_send_output_color_loop_cancelled c : forall w,
  cancelled c = true ->
  exists w' e, show_send_output_color_loop c w = (w', Raise e).
Proof.
  induction c as [|[fr d|] c IH]; intros w H; simpl.
  - discriminate.
  - destruct (finish_unexpected fr); [eexists _, _; reflexivity|].
    unfold bind. destruct d; simpl; apply IH; exact H.
  - eexists _, _. reflexivity.
Qed.

(** [send] on a cancelled stream reports the interrupt or raises. *)
Lemma send_cancelled msgs model pbe silent w c more :
  completions w = c :: more -> cancelled c = true ->
  exists w', (exists x, send msgs model pbe silent w = (w', Ok (x, true)))
          \/ (exists e, send msgs model pbe silent w = (w', Raise e)).
Proof.
  intros Hc Hx.
  destruct (finishes_normally c) eqn:Ef.
  - rewrite (send_spec msgs model pbe silent w c more Hc) by auto.
    rewrite Hx. eexists. left. eexists. reflexivity.
  - destruct (Nat.eqb_spec pbe 0) as [Hp|Hp];
      [|rewrite (send_spec msgs model pbe silent w c more Hc) by auto;
        rewrite Hx; eexists; left; eexists; reflexivity].
    destruct (pretty w) eqn:Ew;
      [|rewrite (send_spec msgs model pbe silent w c more Hc) by auto;
        rewrite Hx; eexists; left; eexists; reflexivity].
    destruct silent;
      [rewrite (send_spec msgs model pbe true w c more Hc) by auto;
        rewrite Hx; eexists; left; eexists; reflexivity|].
    subst pbe. remember (send msgs model 0 false w) as X eqn:EX.
    unfold send in EX.
    assert (Hpick :
      (match model with None | Some [] => gets main_model | Some m => ret m end) w
      = (w, Ok (model_choice model w))).
    { destruct model as [[|]|]; reflexivity. }
    unfold bind at 1 in EX. rewrite Hpick in EX.
    unfold bind at 1 in EX. unfold ChatCompletion_create at 1 in EX.
    rewrite Hc in EX.
    unfold bind at 1 in EX. unfold gets at 1 in EX. simpl pretty in EX.
    rewrite Ew in EX. cbn [negb andb Nat.eqb] in EX.
    unfold bind at 1 in EX. unfold try_except in EX.
    unfold bind at 1 in EX.
    unfold show_send_output_color in EX. rewrite bind_modify in EX.
    match type of EX with context [show_send_output_color_loop c ?w0] =>
      destruct (show_send_output_color_loop_cancelled c w0 Hx) as (w2 & e & E)
    end.
    rewrite E in EX. subst X.
    destruct e; simpl; eexists;
      first [right; eexists; reflexivity | left; eexists; reflexivity].
Qed.

(** C5: when the user interrupts the completion that an escalated directive
    asks of the second model, [do_gpt_powered_replace] writes nothing: the
    files, with their modification times, are as they were before the
    escalation began. *)
Theorem escalation_cancelled w fname edit request c more :
  completions w = c :: more -> cancelled c = true ->
  let w' := (do_gpt_powered_replace fname edit request w).1 in
  disk w' = disk w /\ clock w' = clock w.
Proof.
  intros Hc Hx.
  remember (do_gpt_powered_replace fname edit request w) as X eqn:EX.
  unfold do_gpt_powered_replace in EX.
  unfold bind at 1 in EX. unfold read_text in EX.
  destruct (disk w !! fname) as [f|]; [|subst X; split; reflexivity].
  unfold bind at 1 in EX.
  match type of EX with context [send ?m ?mo ?p ?s w] =>
    pose proof (keeps_send (fun w => (disk w, clock w)) m mo p s
      ltac:(red; intros; reflexivity) ltac:(red; intros; reflexivity) w) as Hk;
    destruct (send_cancelled m mo p s w c more Hc Hx) as (w' & [[x E]|[e E]]);
    rewrite E in EX, Hk; subst X; simpl in *
  end; now inversion Hk.
Qed.
End Streams.

(** * [commit] *)

Section CommitFacts.
Context `{C : Collaborators}.

Lemma stat_all_pure names w : stat_all names w = (w, mtimes (disk w) names).
Proof.
  induction names as [|n names IH]; simpl; [reflexivity|].
  unfold bind, stat_mtime. destruct (disk w !! n); [|reflexivity].
  rewrite IH. destruct (mtimes (disk w) names); reflexivity.
Qed.

Lemma get_last_modified_pure w : get_last_modified w = (w, current_mtime w).
Proof.
  unfold get_last_modified, current_mtime. rewrite bind_gets.
  unfold bind. rewrite stat_all_pure.
  destruct (mtimes _ _); reflexivity.
Qed.

Lemma commit_scan_pure r names : forall d1 d2 d3 w,
  commit_scan r names d1 d2 d3 w = (w, scan_diffs r (disk w) names d1 d2 d3).
Proof.
  induction names as [|n names IH]; intros; simpl; [reflexivity|].
  rewrite bind_gets. unfold bind, lift.
  destruct (git_diff_HEAD r (disk w) (relpath r n)) as [[|c x]|]; auto.
Qed.

(** Where no tracked file differs from the last commit, the scan finds no
    dirty file. *)
Lemma scan_diffs_clean r files names : forall d1 d2 d3,
  (forall fname, In fname names ->
     git_diff_HEAD r files (relpath r fname) = Ok []) ->
  scan_diffs r files names d1 d2 d3 = Ok (d1, d2, d3).
Proof.
  induction names as [|n names IH]; intros d1 d2 d3 H; simpl; [reflexivity|].
  rewrite (H n) by now left. apply IH. intros. apply H. now right.
Qed.

(** The dirty names are the tracked names with a diff, and every tracked
    name is looked at. *)
Lemma scan_diffs_dirty r files names : forall d1 d2 d3 d1' d2' d3',
  scan_diffs r files names d1 d2 d3 = Ok (d1', d2', d3') ->
  forall fname, In fname d2' <->
    In fname d2 \/
    (In fname names /\ git_diff_HEAD r files (relpath r fname) <> Ok []).
Proof.
  induction names as [|n names IH]; intros d1 d2 d3 d1' d2' d3' H fname;
    simpl in H.
  - inversion H; subst. simpl. tauto.
  - destruct (git_diff_HEAD r files (relpath r n)) as [[|c x]|] eqn:E;
      [| |discriminate].
    + rewrite (IH _ _ _ _ _ _ H). simpl. split.
      * intros [?|[? ?]]; auto.
      * intros [?|[[Hn|?] Hd]]; auto. subst n. contradiction.
    + rewrite (IH _ _ _ _ _ _ H), in_app_iff. simpl. split.
      * intros [[?|[Hn|[]]]|[? ?]]; auto. subst n.
        right. split; [auto|]. rewrite E. discriminate.
      * intros [?|[[Hn|?] ?]]; auto.
Qed.

Lemma current_mtime_frame w w' :
  disk w' = disk w -> fnames w' = fnames w ->
  current_mtime w' = current_mtime w.
Proof. intros H1 H2. unfold current_mtime. now rewrite H1, H2. Qed.

(** A commit that is made: what was staged and committed, the record
    returned, and the baseline. *)
Lemma commit_make_ok r rel ctx msg w w' v :
  commit_make r rel ctx msg w = (w', Ok v) ->
  exists r1 r2,
    git_add r (disk w) rel = Ok r1 /\
    git_commit r1 (disk w) (msg ++ [LF; LF] ++ ctx) = Ok r2 /\
    repo w' = Some r2 /\
    v = Some (firstn 7 (head_hexsha r2), msg) /\
    current_mtime w' = Ok (last_modified w') /\
    disk w' = disk w /\ fnames w' = fnames w.
Proof.
  unfold commit_make. rewrite bind_gets. unfold bind at 1. unfold lift at 1.
  destruct (git_add r (disk w) rel) as [r1|] eqn:E1; [|discriminate].
  rewrite bind_modify. unfold bind at 1. unfold lift at 1.
  simpl disk.
  destruct (git_commit r1 (disk w) _) as [r2|] eqn:E2; [|discriminate].
  rewrite bind_modify. unfold bind at 1.
  rewrite get_last_modified_pure.
  match goal with |- context [current_mtime ?w0] =>
    destruct (current_mtime w0) as [t|] eqn:Et; [|discriminate]
  end.
  rewrite bind_modify. unfold ret. intros [= <- <-].
  exists r1, r2. repeat split; try reflexivity; assumption.
Qed.

(** The question to the user: the baseline is set before the user
    answers. *)
Lemma commit_ask_spec msg w t a rest :
  current_mtime w = Ok t -> answers w = a :: rest ->
  commit_ask msg w
  = (set_answers rest (set_last_modified t w),
     match a with
     | ReplyCtrlC => Raise KeyboardInterrupt
     | Answer x =>
         Ok (if declines a then None
             else if negb (answer_in (lower (strip x)) ["y"; "yes"]%string)
             then Some (strip x) else Some msg)
     end).
Proof.
  intros Ht Ha. unfold commit_ask. unfold bind at 1.
  rewrite get_last_modified_pure, Ht. rewrite bind_modify.
  unfold bind at 1. unfold Prompt_ask. simpl answers. rewrite Ha.
  destruct a as [x|]; [|reflexivity]. simpl declines.
  destruct (answer_in (lower (strip x)) ["n"; "no"]%string); [reflexivity|].
  destruct (answer_in (lower (strip x)) ["y"; "yes"]%string); reflexivity.
Qed.
End CommitFacts.

Section CommitTheorems.
Context `{C : Collaborators}.

Lemma commit_make_baseline r rel ctx msg w :
  current_mtime w = Ok (last_modified w) ->
  let w' := (commit_make r rel ctx msg w).1 in
  last_modified w' = last_modified w /\
  current_mtime w' = Ok (last_modified w') /\
  answers w' = answers w /\ disk w' = disk w.
Proof.
  intros Ht. remember (commit_make r rel ctx msg w) as X eqn:EX.
  unfold commit_make in EX. rewrite bind_gets in EX.
  unfold bind at 1 in EX. unfold lift at 1 in EX.
  destruct (git_add r (disk w) rel) as [r1|];
    [|subst X; simpl; auto].
  rewrite bind_modify in EX. unfold bind at 1 in EX. unfold lift at 1 in EX.
  destruct (git_commit r1 (disk w) _) as [r2|];
    [|subst X; simpl; auto].
  rewrite bind_modify in EX. unfold bind at 1 in EX.
  rewrite get_last_modified_pure in EX.
  assert (Hc : current_mtime
    (set_repo_state (Some r2) (set_repo_state (Some r1) w))
    = Ok (last_modified w)) by exact Ht.
  rewrite Hc in EX. rewrite bind_modify in EX. subst X. simpl. auto.
Qed.

(** C9: a call of [commit] with [ask=True] that reaches the prompt (the
    repository is dirty, a tracked file differs from the last commit, and
    the drafting of the message is not interrupted) reads the answer with
    the baseline already advanced to the latest modification time of the
    tracked files.  Whatever the answer, the baseline is then the value
    that [get_last_modified] returns, so the next turn does not see the
    same changes as new; when the user declines, [commit] returns [None]
    and the repository is as it was. *)
Theorem commit_ask_baseline w history prefix r diffs dirty rel c more t a rest :
  repo w = Some r -> is_dirty r (disk w) = true ->
  scan_diffs r (disk w) (dict_keys (fnames w)) [] [] [] = Ok (diffs, dirty, rel) ->
  dirty <> [] ->
  completions w = c :: more -> cancelled c = false ->
  current_mtime w = Ok t -> answers w = a :: rest ->
  let w' := (commit history prefix true w).1 in
  answers w' = rest /\ last_modified w' = t /\
  current_mtime w' = Ok (last_modified w') /\
  (declines a = true ->
     (commit history prefix true w).2 = Ok None /\ repo w' = repo w).
Proof.
  intros Hr Hd Hs Hne Hc Hx Ht Ha.
  remember (commit history prefix true w) as X eqn:EX.
  unfold commit in EX. rewrite bind_gets in EX. cbv beta in EX.
  rewrite Hr in EX. cbv beta iota in EX. rewrite bind_gets in EX.
  cbv beta in EX. rewrite Hd in EX.
  cbv beta iota delta [negb] in EX. rewrite bind_gets in EX.
  unfold bind at 1 in EX. rewrite commit_scan_pure, Hs in EX.
  destruct dirty as [|d0 dirty]; [congruence|]. cbv beta iota in EX.
  unfold bind at 1 in EX.
  rewrite (send_spec _ _ _ _ _ _ _ Hc) in EX by auto.
  rewrite Hx in EX. cbv beta iota in EX. unfold bind at 1 in EX.
  match type of EX with context [commit_ask ?m ?w1] =>
    rewrite (commit_ask_spec m w1 t a rest Ht Ha) in EX
  end.
  assert (Ht1 : forall w1, disk w1 = disk w -> fnames w1 = fnames w ->
    last_modified w1 = t -> current_mtime w1 = Ok (last_modified w1)).
  { intros w1 E1 E2 ->. rewrite <- Ht. now apply current_mtime_frame. }
  destruct a as [x|].
  - destruct (declines (Answer x)) eqn:Ed.
    + subst X. simpl. repeat split; auto.
    + destruct (answer_in (lower (strip x)) ["y"; "yes"]%string);
        cbv beta iota delta [negb] in EX;
        match type of EX with context [commit_make ?r ?rel ?ctx ?m ?w2] =>
          destruct (commit_make_baseline r rel ctx m w2
            ltac:(apply Ht1; reflexivity)) as (H1 & H2 & H3 & H4)
        end; subst X;
        (split; [exact H3 | split; [exact H1 | split; [exact H2|]]];
         discriminate).
  - subst X. simpl. repeat split; auto. discriminate.
Qed.

(** C4 (amended): [commit] returns [None] without a repository or with a
    clean one.  In a dirty repository in
    which no tracked file differs from the last commit it returns [None]
    and advances the baseline to the latest modification time of the
    tracked files.  When it returns a record, the hash has seven
    characters, what was committed is the message of the record (which
    may be empty), a blank line and the context, and the baseline is the
    latest modification time of the tracked files. *)
Theorem commit_result w history prefix ask :
  ((repo w = None \/ exists r, repo w = Some r /\ is_dirty r (disk w) = false) ->
     (commit history prefix ask w).2 = Ok None) /\
  (forall r t, repo w = Some r -> is_dirty r (disk w) = true ->
     (forall fname, In fname (dict_keys (fnames w)) ->
        git_diff_HEAD r (disk w) (relpath r fname) = Ok []) ->
     current_mtime w = Ok t ->
     commit history prefix ask w = (set_last_modified t w, Ok None)) /\
  (forall w' hash msg,
     commit history prefix ask w = (w', Ok (Some (hash, msg))) ->
     length hash = 7 /\
     exists r1 r2,
       git_commit r1 (disk w) (msg ++ [LF; LF] ++ history_context history)
         = Ok r2 /\
       repo w' = Some r2 /\ hash = firstn 7 (head_hexsha r2) /\
       current_mtime w' = Ok (last_modified w')).
Proof.
  split; [|split].
  - intros [Hr | (r & Hr & Hd)]; unfold commit; rewrite bind_gets;
      cbv beta; rewrite Hr; [reflexivity|].
    cbv beta iota. rewrite bind_gets. cbv beta. rewrite Hd. reflexivity.
  - intros r t Hr Hd Hclean Ht. unfold commit. rewrite bind_gets. cbv beta.
    rewrite Hr. cbv beta iota. rewrite bind_gets. cbv beta. rewrite Hd.
    cbv beta iota delta [negb]. rewrite bind_gets.
    unfold bind at 1. rewrite commit_scan_pure.
    rewrite (scan_diffs_clean _ _ _ _ _ _ Hclean). cbv beta iota.
    unfold bind at 1. rewrite get_last_modified_pure, Ht.
    now rewrite bind_modify.
  - intros w' hash msg H. unfold commit in H. rewrite bind_gets in H.
    cbv beta in H. destruct (repo w) as [r|]; [|discriminate].
    cbv beta iota in H. rewrite bind_gets in H. cbv beta in H.
    destruct (is_dirty r (disk w)); [|discriminate].
    cbv beta iota delta [negb] in H. rewrite bind_gets in H.
    unfold bind at 1 in H. rewrite commit_scan_pure in H.
    destruct (scan_diffs _ _ _ _ _ _) as [[[diffs dirty] rel]|];
      [|discriminate].
    destruct dirty as [|d0 dirty]; cbv beta iota in H.
    { unfold bind at 1 in H. rewrite get_last_modified_pure in H.
      destruct (current_mtime w); [rewrite bind_modify in H|]; discriminate. }
    unfold bind at 1 in H.
    match type of H with context [send ?m ?mo ?p ?s w] =>
      pose proof (keeps_send (fun w => (disk w, fnames w)) m mo p s
        ltac:(red; intros; reflexivity) ltac:(red; intros; reflexivity) w)
        as Hk1;
      destruct (send m mo p s w) as [w1 [[cm int]|e]]; [|discriminate]
    end.
    destruct int; [discriminate|]. cbv beta iota in H.
    unfold bind at 1 in H.
    assert (Hw2 : exists w2 m, disk w2 = disk w /\
      commit_make r rel (history_context history) m w2
      = (w', Ok (Some (hash, msg)))).
    { destruct ask.
      - pose proof (keeps_commit_ask disk (drafted_message prefix cm)
          ltac:(red; intros; reflexivity) ltac:(red; intros; reflexivity) w1)
          as Hk2.
        destruct (commit_ask _ w1) as [w2 [[m|]|e]]; try discriminate.
        exists w2, m. split; [|exact H].
        simpl in Hk1, Hk2. inversion Hk1. congruence.
      - exists w1, (drafted_message prefix cm). split; [|exact H].
        simpl in Hk1. now inversion Hk1. }
    destruct Hw2 as (w2 & m & Hdisk & Hm).
    apply commit_make_ok in Hm
      as (r1 & r2 & Hadd & Hcommit & Hrepo & Hv & Hbase & _).
    inversion Hv; subst hash msg.
    split.
    + rewrite length_take, head_hexsha_length. reflexivity.
    + exists r1, r2. rewrite <- Hdisk. auto.
Qed.
End CommitTheorems.

(** * The registry only grows *)

Lemma str_eqb_eq x y : str_eqb x y = true <-> x = y.
Proof. unfold str_eqb. apply bool_decide_eq_true. Qed.

Lemma str_eqb_refl x : str_eqb x x = true.
Proof. now apply str_eqb_eq. Qed.

Lemma dict_get_set_eq {V} k (v : V) d : dict_get k (dict_set k v d) = Some v.
Proof.
  induction d as [|[k' v'] d IH]; simpl.
  - now rewrite str_eqb_refl.
  - destruct (str_eqb k' k) eqn:E; simpl; rewrite E; [reflexivity | exact IH].
Qed.

Lemma dict_get_set_ne {V} k k' (v : V) d :
  k' <> k -> dict_get k' (dict_set k v d) = dict_get k' d.
Proof.
  intros Hne. induction d as [|[k0 v0] d IH]; simpl.
  - destruct (str_eqb k k') eqn:E; [|reflexivity].
    apply str_eqb_eq in E. congruence.
  - destruct (str_eqb k0 k) eqn:E; simpl.
    + apply str_eqb_eq in E. subst k0.
      destruct (str_eqb k k') eqn:E'; [|reflexivity].
      apply str_eqb_eq in E'. congruence.
    + now rewrite IH.
Qed.

Lemma dict_get_keys {V} k (d : dict V) :
  In k (dict_keys d) <-> dict_has k d = true.
Proof.
  unfold dict_has. induction d as [|[k' v'] d IH]; simpl.
  - split; [tauto | discriminate].
  - destruct (str_eqb k' k) eqn:E.
    + apply str_eqb_eq in E. split; auto.
    + rewrite <- IH. split; [|auto]. intros [H|H]; [|exact H].
      apply str_eqb_eq in H. congruence.
Qed.

Section Registry.
Context `{C : Collaborators}.

Lemma registry_grows_refl w : registry_grows w w.
Proof. intros p t H. exact H. Qed.

Lemma registry_grows_trans w1 w2 w3 :
  registry_grows w1 w2 -> registry_grows w2 w3 -> registry_grows w1 w3.
Proof. intros H1 H2 p t H. apply H2, H1, H. Qed.

Lemma registry_grows_eq w w' : fnames w' = fnames w -> registry_grows w w'.
Proof. intros E p t H. now rewrite E. Qed.

Lemma leads_keeps {A} (m : M A) : keeps fnames m -> leads registry_grows m.
Proof. intros H w. apply registry_grows_eq, H. Qed.

Lemma leads_bind {A B} (m : M A) (k : A -> M B) :
  leads registry_grows m -> (forall a, leads registry_grows (k a)) ->
  leads registry_grows (bind m k).
Proof.
  intros Hm Hk w. unfold bind. specialize (Hm w).
  destruct (m w) as [w' [a|e]]; simpl in *; [|exact Hm].
  eapply registry_grows_trans; [exact Hm | apply Hk].
Qed.

Lemma leads_try_except {A} (m : M A) handler :
  leads registry_grows m ->
  (forall e h, handler e = Some h -> leads registry_grows h) ->
  leads registry_grows (try_except m handler).
Proof.
  intros Hm Hh w. unfold try_except. specialize (Hm w).
  destruct (m w) as [w' [a|e]]; simpl in *; [exact Hm|].
  destruct (handler e) as [h|] eqn:E; simpl; [|exact Hm].
  eapply registry_grows_trans; [exact Hm | now apply (Hh _ _ E)].
Qed.

(** The answer to the question of [allow_edit]. *)
Lemma allow_edit_known path w :
  dict_has path (fnames w) = true -> allow_edit path w = (w, Ok true).
Proof. intros H. unfold allow_edit, path_exists. rewrite bind_gets, H. reflexivity. Qed.

Lemma allow_edit_asked path w b cs :
  dict_has path (fnames w) = false -> confirms w = Answer b :: cs ->
  allow_edit path w
  = if b
    then (set_fnames (dict_set path 0%Z (fnames w)) (set_confirms cs w),
          Ok true)
    else (set_confirms cs w, Ok false).
Proof.
  intros H Hc. unfold allow_edit, path_exists. rewrite bind_gets, H. cbv beta iota delta [negb].
  rewrite bind_gets. cbv beta. unfold bind at 1. unfold Confirm_ask.
  rewrite Hc. destruct b; reflexivity.
Qed.

Lemma allow_edit_grows path : leads registry_grows (allow_edit path).
Proof.
  intros w. unfold allow_edit, path_exists. rewrite bind_gets. cbv beta.
  destruct (dict_has path (fnames w)) eqn:H;
    [apply registry_grows_refl|].
  cbv beta iota delta [negb]. rewrite bind_gets. cbv beta.
  unfold bind at 1. unfold Confirm_ask.
  destruct (confirms w) as [|[[|]|] cs]; simpl;
    try (apply registry_grows_eq; reflexivity).
  intros p t Hp. simpl. rewrite dict_get_set_ne; [exact Hp|].
  intros ->. unfold dict_has in H. now rewrite Hp in H.
Qed.

(** After [allow_edit] has answered yes, the path is tracked. *)
Lemma allow_edit_tracked path w w' :
  allow_edit path w = (w', Ok true) -> dict_has path (fnames w') = true.
Proof.
  unfold allow_edit, path_exists. rewrite bind_gets. cbv beta.
  destruct (dict_has path (fnames w)) eqn:H.
  - intros [= <-]. exact H.
  - cbv beta iota delta [negb]. rewrite bind_gets. cbv beta.
    unfold bind at 1. unfold Confirm_ask.
    destruct (confirms w) as [|[[|]|] cs]; simpl; try discriminate.
    intros [= <-]. simpl. unfold dict_has. now rewrite dict_get_set_eq.
Qed.

Lemma update_files_loop_grows inp ms : forall edited,
  leads registry_grows (update_files_loop inp ms edited).
Proof.
  induction ms as [|m ms IH]; intros edited; simpl.
  - intros w. apply registry_grows_refl.
  - apply leads_bind; [apply allow_edit_grows|]. intros [|]; simpl; [|apply IH].
    apply leads_bind; [apply leads_keeps; auto with keeps|].
    intros [|]; [apply IH|].
    apply leads_bind; [apply leads_keeps; auto with keeps|].
    intros _. apply IH.
Qed.

Lemma registry_grows_has w w' p :
  registry_grows w w' -> dict_has p (fnames w) = true ->
  dict_has p (fnames w') = true.
Proof.
  unfold dict_has. intros H Hp.
  destruct (dict_get p (fnames w)) as [t|] eqn:E; [|discriminate].
  now rewrite (H _ _ E).
Qed.

(** The edited set only grows, and what it gains are paths of directives
    that are tracked in the end. *)
Lemma update_files_loop_edited inp ms : forall edited w w' edited',
  update_files_loop inp ms edited w = (w', Ok edited') ->
  edited ⊆ edited' /\
  forall p, p ∈ edited' ->
    p ∈ edited \/ (In p (map m_path ms) /\ dict_has p (fnames w') = true).
Proof.
  induction ms as [|m ms IH]; intros edited w w' edited' H; simpl in H.
  - inversion H; subst. split; [reflexivity | auto].
  - unfold bind at 1 in H.
    destruct (allow_edit (m_path m) w) as [w1 [[|]|]] eqn:Ea;
      [| |discriminate]; cbv beta iota delta [negb] in H.
    + assert (Ht : dict_has (m_path m) (fnames w') = true).
      { apply allow_edit_tracked in Ea.
        assert (G : registry_grows w1 w').
        { unfold bind at 1 in H.
          pose proof (keeps_do_replace fnames (m_path m) (m_original m)
            (m_updated m) ltac:(red; intros; reflexivity) w1) as K1.
          destruct (do_replace _ _ _ w1) as [w2 [[|]|]]; [| |discriminate].
          - pose proof (update_files_loop_grows inp ms
              ({[m_path m]} ∪ edited) w2) as G2.
            rewrite H in G2. simpl in *.
            eapply registry_grows_trans; [|exact G2].
            now apply registry_grows_eq.
          - unfold bind at 1 in H.
            pose proof (keeps_do_gpt_powered_replace fnames (m_path m)
              (m_group0 m) inp ltac:(red; intros; reflexivity)
              ltac:(red; intros; reflexivity)
              ltac:(red; intros; reflexivity) w2) as K2.
            destruct (do_gpt_powered_replace _ _ _ w2) as [w3 [[]|]];
              [|discriminate].
            pose proof (update_files_loop_grows inp ms
              ({[m_path m]} ∪ edited) w3) as G2.
            rewrite H in G2. simpl in *.
            eapply registry_grows_trans; [|exact G2].
            apply registry_grows_eq. congruence. }
        eapply registry_grows_has; eauto. }
      unfold bind at 1 in H.
      destruct (do_replace _ _ _ w1) as [w2 [[|]|]]; [| |discriminate].
      * apply IH in H as [H1 H2]. split; [intros q Hq; apply H1, elem_of_union; now right|].
        intros p Hp. destruct (H2 p Hp) as [Hin|[Hin Hd]].
        -- apply elem_of_union in Hin as [Hin|Hin]; [|now left].
           apply elem_of_singleton in Hin. subst p. right. simpl. auto.
        -- right. simpl. auto.
      * unfold bind at 1 in H.
        destruct (do_gpt_powered_replace _ _ _ w2) as [w3 [[]|]];
          [|discriminate].
        apply IH in H as [H1 H2]. split; [intros q Hq; apply H1, elem_of_union; now right|].
        intros p Hp. destruct (H2 p Hp) as [Hin|[Hin Hd]].
        -- apply elem_of_union in Hin as [Hin|Hin]; [|now left].
           apply elem_of_singleton in Hin. subst p. right. simpl. auto.
        -- right. simpl. auto.
    + apply IH in H as [H1 H2]. split; [exact H1|].
      intros p Hp. destruct (H2 p Hp) as [Hin|[Hin Hd]]; [now left|].
      right. simpl. auto.
Qed.
End Registry.

(** * The turn *)

Section MoreFrames.
Context `{C : Collaborators}.
Context {B : Type} (f : World -> B).

Lemma keeps_get_input_loop fuel : forall multi inp,
  ignores_keyboard f -> keeps f (get_input_loop fuel multi inp).
Proof.
  intros multi inp H. revert multi inp.
  induction fuel as [|fuel IH]; intros; simpl; keeps_auto.
Qed.

Lemma keeps_get_input : ignores_keyboard f -> keeps f get_input.
Proof.
  intros H. unfold get_input. keeps_auto. now apply keeps_get_input_loop.
Qed.

Lemma keeps_quoted_file p : keeps f (quoted_file p).
Proof. unfold quoted_file. keeps_auto. Qed.

Hint Resolve keeps_quoted_file : keeps.

Lemma keeps_get_files_content_loop names : forall x,
  keeps f (get_files_content_loop names x).
Proof. induction names as [|n names IH]; intros; simpl; keeps_auto. Qed.

Hint Resolve keeps_get_files_content_loop : keeps.

Lemma keeps_get_files_content : keeps f get_files_content.
Proof. unfold get_files_content. keeps_auto. Qed.

Hint Resolve keeps_get_files_content : keeps.

Lemma keeps_get_files_messages : keeps f get_files_messages.
Proof. unfold get_files_messages. keeps_auto. Qed.

Hint Resolve keeps_get_files_messages : keeps.

Lemma keeps_set_messages :
  ignores_messages f ->
  (forall g, keeps f (modify (fun w => set_done_messages (g w) w))) /\
  (forall g, keeps f (modify (fun w => set_cur_messages (g w) w))) /\
  (forall v, keeps f (modify (set_cur_messages v))) /\
  (forall v, keeps f (modify (set_num_control_c v))).
Proof.
  intros (H1 & H2 & H3). repeat split; intros ? w; simpl; auto.
Qed.

Lemma keeps_run_loop_prepare inp :
  ignores_messages f -> ignores_resp f -> ignores_completions f ->
  ignores_last_modified f -> ignores_repo f -> ignores_answers f ->
  keeps f (run_loop_prepare inp).
Proof.
  intros Hm H1 H2 H3 H4 H5.
  destruct (keeps_set_messages Hm) as (K1 & K2 & K3 & K4).
  unfold run_loop_prepare. keeps_auto; auto.
Qed.

Lemma keeps_run_loop_respond msgs :
  ignores_messages f -> ignores_resp f -> ignores_completions f ->
  ignores_disk f -> keeps f (run_loop_respond msgs).
Proof.
  intros Hm H1 H2 H3.
  destruct (keeps_set_messages Hm) as (K1 & K2 & K3 & K4).
  unfold run_loop_respond. keeps_auto; auto.
Qed.
End MoreFrames.

#[global] Hint Resolve keeps_get_input keeps_quoted_file
  keeps_get_files_content keeps_get_files_messages keeps_run_loop_prepare
  keeps_run_loop_respond : keeps.
#[global] Hint Extern 1 (ignores_messages _) =>
  (repeat split; intros; reflexivity) : keeps.

Section Turn.
Context `{C : Collaborators}.

Lemma run_loop_apply_grows inp content :
  leads registry_grows (run_loop_apply inp content).
Proof.
  unfold run_loop_apply. apply leads_bind.
  - apply leads_try_except.
    + apply leads_bind; [apply update_files_loop_grows|].
      intros a w. apply registry_grows_refl.
    + intros e h E. destruct e; inversion E; subst;
        intros w; apply registry_grows_refl.
  - intros [edited|]; [|intros w; apply registry_grows_refl].
    destruct (bool_decide (edited = ∅));
      [intros w; apply registry_grows_refl|].
    apply leads_keeps. unfold check_for_local_edits. keeps_auto.
Qed.

Lemma run_loop_grows : leads registry_grows run_loop.
Proof.
  unfold run_loop. apply leads_bind; [apply leads_keeps; auto with keeps|].
  intros [inp|]; [|intros w; apply registry_grows_refl].
  apply leads_bind; [apply leads_keeps; auto with keeps|]. intros msgs.
  apply leads_bind; [apply leads_keeps; auto with keeps|].
  intros [content [|]]; [intros w; apply registry_grows_refl|].
  apply run_loop_apply_grows.
Qed.

(** No turn of the session removes a path from the registry or changes
    the time recorded for it. *)
Lemma run_turn_grows : leads registry_grows run_turn.
Proof.
  unfold run_turn. apply leads_try_except.
  - apply leads_bind; [apply run_loop_grows|].
    intros a w. apply registry_grows_refl.
  - intros e h E. destruct e; inversion E; subst.
    apply leads_keeps. keeps_auto.
Qed.

Lemma run_while_grows fuel : leads registry_grows (run_while fuel).
Proof.
  induction fuel as [|fuel IH]; simpl.
  - intros w. apply registry_grows_refl.
  - apply leads_bind; [apply run_turn_grows|].
    intros [|]; [intros w; apply registry_grows_refl | exact IH].
Qed.
End Turn.

(** * The last response on disk, and the active buffer *)

Section LastEdit.
Context `{C : Collaborators}.

Lemma keeps_write_other p path x :
  path <> p -> keeps (fun w => disk w !! p) (write_text path x).
Proof. intros Hne w. simpl. now apply lookup_insert_ne. Qed.

Lemma keeps_touch_other p path :
  path <> p -> keeps (fun w => disk w !! p) (touch path).
Proof. intros Hne w. simpl. now apply lookup_insert_ne. Qed.

Lemma keeps_do_replace_other p path before after :
  path <> p -> keeps (fun w => disk w !! p) (do_replace path before after).
Proof.
  intros Hne. pose proof (keeps_write_other p path) as K1.
  pose proof (keeps_touch_other p path Hne) as K2.
  unfold do_replace. keeps_auto; auto.
Qed.

Lemma keeps_do_gpt_powered_replace_other p path edit request :
  path <> p ->
  keeps (fun w => disk w !! p) (do_gpt_powered_replace path edit request).
Proof.
  intros Hne. pose proof (keeps_write_other p path) as K1.
  unfold do_gpt_powered_replace. keeps_auto; auto.
Qed.

Lemma keeps_update_files_loop_other p inp ms : forall edited,
  Forall (fun m => m_path m <> p) ms ->
  keeps (fun w => disk w !! p) (update_files_loop inp ms edited).
Proof.
  intros edited H. revert edited.
  induction H as [|m ms Hm Hms IH]; intros edited; simpl; [keeps_auto|].
  pose proof (keeps_do_replace_other p (m_path m) (m_original m)
    (m_updated m) Hm) as K1.
  pose proof (keeps_do_gpt_powered_replace_other p (m_path m) (m_group0 m)
    inp Hm) as K2.
  keeps_auto.
Qed.

(** No directive names the file of the last response. *)
Lemma finditer_not_last_edit content :
  Forall (fun m => m_path m <> last_edit_path) (finditer pattern content).
Proof.
  apply Forall_forall. intros m Hin E.
  apply list_elem_of_In in Hin.
  apply m_path_shape in Hin. apply path_shape_b in Hin.
  change (default [] (group 2 m)) with (m_path m) in Hin.
  rewrite E in Hin. vm_compute in Hin. discriminate.
Qed.

Lemma keeps_run_loop_apply_last_edit inp content :
  keeps (fun w => disk w !! last_edit_path) (run_loop_apply inp content).
Proof.
  pose proof (keeps_update_files_loop_other last_edit_path inp
    (finditer pattern content) ∅ (finditer_not_last_edit content)) as K.
  unfold run_loop_apply, update_files, check_for_local_edits.
  keeps_auto.
Qed.

(** C6 (amended): once the completion of a turn is consumed (it is not shown
    in colour, or no chunk of it has an unexpected finish reason),
    [tmp.last-edit.md] holds the response as [run_loop] keeps it: the text
    received, and behind it the interruption marker when the user
    interrupted the stream.  The file still holds it after the directives
    of the response are applied. *)
Theorem last_edit_written w msgs inp c more :
  completions w = c :: more ->
  pretty w = false \/ finishes_normally c = true ->
  exists w1,
    run_loop_respond msgs w = (w1, Ok (kept_response c, cancelled c)) /\
    text <$> disk w1 !! last_edit_path = Some (kept_response c) /\
    text <$> disk (run_loop_apply inp (kept_response c) w1).1
               !! last_edit_path = Some (kept_response c).
Proof.
  intros Hc Hok. unfold run_loop_respond. unfold bind at 1.
  rewrite (send_spec _ _ _ _ _ _ _ Hc) by tauto. cbv beta iota.
  unfold write_text. rewrite bind_modify, bind_modify.
  fold interrupt_marker.
  change (if cancelled c then received c ++ interrupt_marker else received c)
    with (kept_response c).
  eexists. split; [reflexivity|].
  assert (H1 : forall w1 : World,
    disk w1 !! last_edit_path
      = Some (MkFile (kept_response c) (clock (after_send msgs None c more w))) ->
    text <$> disk w1 !! last_edit_path = Some (kept_response c)).
  { intros w1 ->. reflexivity. }
  split.
  - apply H1. simpl. apply lookup_insert_eq.
  - apply H1. rewrite (keeps_run_loop_apply_last_edit inp _ _).
    simpl. apply lookup_insert_eq.
Qed.

(** X20: the active buffer is empty when [run] starts its loop.  A turn
    appends the response to it, and a turn in which [update_files] applies
    no directive (or fails with an exception that [run_loop] catches) ends
    normally, with the buffer and the archive as they were after the
    response: the buffer is retained for the next turn. *)
Theorem active_buffer_retained w :
  cur_messages (run_start w).1 = [] /\
  (forall msgs w1 content interrupted,
     run_loop_respond msgs w = (w1, Ok (content, interrupted)) ->
     cur_messages w1 = cur_messages w ++ [Message assistant content]) /\
  (forall inp content,
     no_edit (update_files content inp w).2 ->
     run_loop_apply inp content w
       = ((update_files content inp w).1, Ok (Some true)) /\
     cur_messages (update_files content inp w).1 = cur_messages w /\
     done_messages (update_files content inp w).1 = done_messages w).
Proof.
  split; [reflexivity|]. split.
  - intros msgs w1 content interrupted H.
    unfold run_loop_respond in H. unfold bind at 1 in H.
    pose proof (keeps_send cur_messages msgs None 0 false
      ltac:(red; intros; reflexivity) ltac:(red; intros; reflexivity) w) as K.
    destruct (send msgs None 0 false w) as [w0 [[x i]|e]]; [|discriminate].
    cbv beta iota in H. unfold write_text in H.
    rewrite bind_modify, bind_modify in H. unfold ret in H.
    inversion H; subst. simpl in *. now rewrite K.
  - intros inp content Hno. split; [|split].
    + unfold run_loop_apply. unfold bind at 1. unfold try_except.
      unfold bind at 1.
      destruct (update_files content inp w) as [w2 [edited|e]]; simpl in *.
      * subst edited. reflexivity.
      * destruct e; try reflexivity. congruence.
    + apply (keeps_update_files_loop cur_messages); red; intros; reflexivity.
    + apply (keeps_update_files_loop done_messages); red; intros; reflexivity.
Qed.

(** C3: the fold of the active buffer is never reached.  After the commit
    and before the fold [run_loop] calls [self.check_for_local_edits],
    which [Coder] does not define.  So a turn in which [update_files]
    reports an edited path ends in an exception, [AttributeError] whenever
    [commit] returns, with the active buffer and the archive as they were
    after the response: the buffer is not folded into the archive, no
    outcome marker is appended, and the buffer is not cleared. *)
Theorem applied_edit_is_not_folded inp content w w1 edited :
  update_files content inp w = (w1, Ok edited) -> edited <> ∅ ->
  let r := run_loop_apply inp content w in
  (exists e, r.2 = Raise e) /\
  (forall w2 res,
     commit (Some (cur_messages w1)) None false w1 = (w2, Ok res) ->
     r = (w2, Raise AttributeError)) /\
  cur_messages r.1 = cur_messages w /\
  done_messages r.1 = done_messages w.
Proof.
  intros Hu Hne. cbv zeta.
  assert (Ku : cur_messages w1 = cur_messages w /\
               done_messages w1 = done_messages w).
  { pose proof (keeps_update_files_loop cur_messages inp
      (finditer pattern content) ∅
      ltac:(red; intros; reflexivity) ltac:(red; intros; reflexivity)
      ltac:(red; intros; reflexivity) ltac:(red; intros; reflexivity)
      ltac:(red; intros; reflexivity) w) as K1.
    pose proof (keeps_update_files_loop done_messages inp
      (finditer pattern content) ∅
      ltac:(red; intros; reflexivity) ltac:(red; intros; reflexivity)
      ltac:(red; intros; reflexivity) ltac:(red; intros; reflexivity)
      ltac:(red; intros; reflexivity) w) as K2.
    unfold update_files in Hu. rewrite Hu in K1, K2. now split. }
  pose proof (keeps_commit cur_messages (Some (cur_messages w1)) None false
    ltac:(red; intros; reflexivity) ltac:(red; intros; reflexivity)
    ltac:(red; intros; reflexivity) ltac:(red; intros; reflexivity)
    ltac:(red; intros; reflexivity) w1) as Kc1.
  pose proof (keeps_commit done_messages (Some (cur_messages w1)) None false
    ltac:(red; intros; reflexivity) ltac:(red; intros; reflexivity)
    ltac:(red; intros; reflexivity) ltac:(red; intros; reflexivity)
    ltac:(red; intros; reflexivity) w1) as Kc2.
  destruct Ku as [Ku1 Ku2].
  remember (run_loop_apply inp content w) as X eqn:EX.
  unfold run_loop_apply in EX.
  unfold bind at 1 in EX. unfold try_except in EX.
  unfold bind at 1 in EX. rewrite Hu in EX.
  cbn [ret] in EX. rewrite (bool_decide_eq_false_2 _ Hne) in EX.
  rewrite bind_gets in EX. unfold bind at 1 in EX.
  destruct (commit (Some (cur_messages w1)) None false w1)
    as [w2 [res|e]]; [unfold bind at 1 in EX|];
    cbv beta iota delta [check_for_local_edits raise] in EX;
    subst X; cbn [fst snd] in *.
  - split; [eexists; reflexivity|]. split.
    + intros w3 res' E. now inversion E.
    + split; congruence.
  - split; [eexists; reflexivity|]. split; [discriminate|].
    split; congruence.
Qed.
End LastEdit.

(** * [update_files] *)

Section UpdateFiles.
Context `{C : Collaborators}.

Lemma quoted_file_pure p w :
  exists r, quoted_file p w = (w, r) /\
    forall q, r = Ok q -> occurs p q = true.
Proof.
  unfold quoted_file, bind, read_text.
  destruct (disk w !! p) as [f|]; eexists; (split; [reflexivity|]).
  - intros q [= <-]. apply occurs_spec. exists [LF]. eexists.
    rewrite <- !app_assoc. reflexivity.
  - discriminate.
Qed.

Lemma get_files_content_loop_pure names : forall x w y,
  (get_files_content_loop names x w).2 = Ok y ->
  (exists z, y = x ++ z) /\
  forall p, In p names ->
    exists q, quoted_file p w = (w, Ok q) /\ occurs q y = true.
Proof.
  induction names as [|n names IH]; intros x w y H; simpl in H.
  - inversion H; subst. split; [exists []; now rewrite app_nil_r|].
    intros p [].
  - unfold bind at 1 in H.
    destruct (quoted_file_pure n w) as (r & E & _). rewrite E in H.
    destruct r as [q|]; [|discriminate].
    apply IH in H as [[z ->] H2]. split.
    + exists (q ++ z). now rewrite app_assoc.
    + intros p [<-|Hin]; [|now apply H2].
      exists q. split; [exact E|]. apply occurs_spec.
      exists x, z. now rewrite <- app_assoc.
Qed.

(** C2 (amended): a directive for an untracked path whose authorization
    the user refuses is passed over: the loop goes on with the set and the
    world as they were, the answer consumed.  The path of every other
    directive is in the set that [update_files] returns, whatever became
    of the replacement: applied, escalated and completed, or escalated and
    cancelled.  Every path in the set is the path of a directive of the
    response and is tracked afterwards. *)
Theorem update_files_edited inp :
  (forall m more edited w cs,
     dict_has (m_path m) (fnames w) = false ->
     confirms w = Answer false :: cs ->
     update_files_loop inp (m :: more) edited w
     = update_files_loop inp more edited (set_confirms cs w)) /\
  (forall m more edited w w' edited',
     dict_has (m_path m) (fnames w) = true \/
       (exists cs, confirms w = Answer true :: cs) ->
     update_files_loop inp (m :: more) edited w = (w', Ok edited') ->
     m_path m ∈ edited') /\
  (forall content w w' edited',
     update_files content inp w = (w', Ok edited') ->
     forall p, p ∈ edited' ->
       In p (map m_path (finditer pattern content)) /\
       dict_has p (fnames w') = true).
Proof.
  split; [|split].
  - intros m more edited w cs Hn Hc. simpl. unfold bind at 1.
    now rewrite (allow_edit_asked _ _ _ _ Hn Hc).
  - intros m more edited w w' edited' Hauth H. simpl in H.
    unfold bind at 1 in H.
    assert (Ha : exists w1, allow_edit (m_path m) w = (w1, Ok true)).
    { destruct (dict_has (m_path m) (fnames w)) eqn:Hd.
      - rewrite allow_edit_known by assumption. eauto.
      - destruct Hauth as [?|[cs Hc]]; [discriminate|].
        rewrite (allow_edit_asked _ _ _ _ Hd Hc). eauto. }
    destruct Ha as (w1 & Ha). rewrite Ha in H.
    cbv beta iota delta [negb] in H. unfold bind at 1 in H.
    destruct (do_replace _ _ _ w1) as [w2 [[|]|]]; [| |discriminate].
    + apply update_files_loop_edited in H as [H1 _].
      apply H1, elem_of_union. left. now apply elem_of_singleton.
    + unfold bind at 1 in H.
      destruct (do_gpt_powered_replace _ _ _ w2) as [w3 [[]|]];
        [|discriminate].
      apply update_files_loop_edited in H as [H1 _].
      apply H1, elem_of_union. left. now apply elem_of_singleton.
  - intros content w w' edited' H p Hp. unfold update_files in H.
    apply update_files_loop_edited in H as [_ H2].
    destruct (H2 p Hp) as [Hin|?]; [|assumption].
    now apply not_elem_of_empty in Hin.
Qed.

(** C10: when the user authorizes the edit of an untracked path,
    [update_files] registers it with the modification time 0; a turn, and
    any number of turns, keeps every tracked path with the time recorded for
    it; the file-content frame quotes every tracked file, and the scan of
    [commit] asks for the diff of every tracked file. *)
Theorem registry_only_grows :
  (forall inp m more edited w cs,
     dict_has (m_path m) (fnames w) = false ->
     confirms w = Answer true :: cs ->
     dict_get (m_path m)
       (fnames (update_files_loop inp (m :: more) edited w).1) = Some 0%Z) /\
  (forall w fuel,
     registry_grows w (run_turn w).1 /\
     registry_grows w (run_while fuel w).1) /\
  (forall w p y,
     In p (dict_keys (fnames w)) -> (get_files_content w).2 = Ok y ->
     exists q, quoted_file p w = (w, Ok q) /\ occurs p q = true /\
               occurs q y = true) /\
  (forall w r diffs dirty rel p,
     (commit_scan r (dict_keys (fnames w)) [] [] [] w).2
       = Ok (diffs, dirty, rel) ->
     (In p dirty <->
      In p (dict_keys (fnames w)) /\
      git_diff_HEAD r (disk w) (relpath r p) <> Ok [])).
Proof.
  split; [|split; [|split]].
  - intros inp m more edited w cs Hn Hc.
    remember (update_files_loop inp (m :: more) edited w) as X eqn:EX.
    simpl in EX. unfold bind at 1 in EX.
    rewrite (allow_edit_asked _ _ _ _ Hn Hc) in EX.
    cbv beta iota delta [negb] in EX.
    match type of EX with X = ?m ?w1 =>
      assert (G : registry_grows w1 X.1)
    end.
    { subst X. apply leads_bind; [apply leads_keeps; auto with keeps|].
      intros [|]; [apply update_files_loop_grows|].
      apply leads_bind; [apply leads_keeps; auto with keeps|].
      intros _. apply update_files_loop_grows. }
    apply G. simpl. apply dict_get_set_eq.
  - intros w fuel. split; [apply run_turn_grows | apply run_while_grows].
  - intros w p y Hin H. unfold get_files_content in H.
    rewrite bind_gets in H.
    apply get_files_content_loop_pure in H as [_ H].
    destruct (H p Hin) as (q & E & Ho). exists q.
    split; [exact E|]. split; [|exact Ho].
    destruct (quoted_file_pure p w) as (r & E' & Hq).
    rewrite E in E'. inversion E'; subst. now apply Hq.
  - intros w r diffs dirty rel p H.
    rewrite commit_scan_pure in H. simpl in H.
    rewrite (scan_diffs_dirty _ _ _ _ _ _ _ _ _ H p). simpl. tauto.
Qed.
End UpdateFiles.

(** * The lazy sections of an edit block *)

Arguments Lit : simpl never.

Lemma prev_after_cons b c x : prev_after b (c :: x) = prev_after (Some c) x.
Proof.
  change (c :: x) with ([c] ++ x). now rewrite <- prev_after_app.
Qed.

Section Eval.
Context {R : Type}.
Implicit Types (k : mstate -> option R).

Lemma mtch_lit x : forall b y gs k,
  mtch (Lit x) (MState b (x ++ y) gs) k = k (MState (prev_after b x) y gs).
Proof.
  induction x as [|c x IH]; intros b y gs k.
  - reflexivity.
  - change (Lit (c :: x)) with (Seq (Chr (Ascii.eqb c)) (Lit x)).
    simpl. rewrite Ascii.eqb_refl, IH. now rewrite prev_after_cons.
Qed.

Lemma mtch_lit_fail x : forall st k,
  startswith (rest st) x = false -> mtch (Lit x) st k = None.
Proof.
  induction x as [|c x IH]; intros st k H.
  - discriminate.
  - change (Lit (c :: x)) with (Seq (Chr (Ascii.eqb c)) (Lit x)).
    simpl. simpl in H. destruct (rest st) as [|c' y]; [reflexivity|].
    rewrite Ascii.eqb_sym. destruct (Ascii.eqb c' c); [|reflexivity].
    apply IH. exact H.
Qed.

(** A lazy [.*?] goes on at the first position from which the rest of the
    pattern matches. *)
Lemma lazy_any_first x : forall b y gs fuel k r,
  length x <= fuel ->
  (forall x1 x2, x = x1 ++ x2 -> x2 <> [] ->
     k (MState (prev_after b x1) (x2 ++ y) gs) = None) ->
  k (MState (prev_after b x) y gs) = Some r ->
  star_loop false (mtch (Chr any_char)) fuel (MState b (x ++ y) gs) k
  = Some r.
Proof.
  induction x as [|c x IH]; intros b y gs fuel k r Hf Hnone Hk.
  - destruct fuel; simpl; [exact Hk|]. unfold orelse.
    change (prev_after b []) with b in Hk. simpl in Hk. now rewrite Hk.
  - destruct fuel as [|fuel]; [simpl in Hf; lia|].
    pose proof (Hnone [] (c :: x) eq_refl ltac:(discriminate)) as H0.
    change (prev_after b []) with b in H0. simpl in H0.
    simpl. unfold orelse. rewrite H0.
    destruct (Nat.ltb_spec (length (x ++ y)) (S (length (x ++ y)))); [|lia].
    apply IH.
    + simpl in Hf. lia.
    + intros x1 x2 E Hx2. rewrite <- (prev_after_cons b).
      apply Hnone; [now rewrite E | exact Hx2].
    + now rewrite <- (prev_after_cons b).
Qed.
End Eval.

Lemma is_bol_after b a :
  is_bol (prev_after b a) = true ->
  (a = [] /\ is_bol b = true) \/ exists a', a = a' ++ [LF].
Proof.
  unfold prev_after. destruct (rev a) as [|c r] eqn:E.
  - left. split; [|assumption].
    apply (f_equal (@rev _)) in E. now rewrite rev_involutive in E.
  - simpl. intros H. apply Ascii.eqb_eq in H. subst c. right.
    exists (rev r). apply (f_equal (@rev _)) in E.
    now rewrite rev_involutive in E.
Qed.

Lemma is_bol_after_LF b a : is_bol (prev_after b (a ++ [LF])) = true.
Proof. unfold prev_after. rewrite rev_app_distr. reflexivity. Qed.

Lemma no_LF_app a b : no_LF (a ++ b) = no_LF a && no_LF b.
Proof. apply forallb_app. Qed.

Lemma no_LF_In l : no_LF l = true -> ~ In LF l.
Proof.
  unfold no_LF. rewrite forallb_forall. intros H Hin.
  specialize (H _ Hin). now rewrite Ascii.eqb_refl in H.
Qed.

(** A marker that a line with more text behind it starts with is a start of
    the line alone, when the marker has no line feed before its end. *)
Lemma prefix_line mk : forall l w,
  no_LF (removelast mk) = true ->
  startswith (l ++ LF :: w) mk = true -> startswith (l ++ [LF]) mk = true.
Proof.
  induction mk as [|m mk IH]; intros l w Hmk H; [reflexivity|].
  assert (Hmk' : mk <> [] -> Ascii.eqb m LF = false /\ no_LF (removelast mk) = true).
  { intros Hne. destruct mk as [|m' mk]; [congruence|].
    change (removelast (m :: m' :: mk)) with (m :: removelast (m' :: mk)) in Hmk.
    simpl in Hmk. apply andb_true_iff in Hmk as [H1 H2].
    apply negb_true_iff in H1. auto. }
  destruct l as [|c l]; cbn [app startswith] in H |- *.
  - apply andb_true_iff in H as [H1 H2]. rewrite H1. cbn [andb].
    destruct mk as [|m' mk]; [reflexivity|].
    destruct Hmk' as [Hm _]; [discriminate|].
    apply Ascii.eqb_eq in H1. subst m. discriminate.
  - apply andb_true_iff in H as [H1 H2]. rewrite H1. cbn [andb].
    destruct mk as [|m' mk]; [reflexivity|].
    destruct Hmk' as [_ Hm]; [discriminate|].
    now apply (IH l w).
Qed.

(** At the start of a line inside marker-free lines no marker starts. *)
Lemma line_start_free mk ls : forall a b z,
  free_of mk ls = true -> no_LF (removelast mk) = true ->
  unlines ls = a ++ b -> b <> [] ->
  a = [] \/ (exists a', a = a' ++ [LF]) ->
  startswith (b ++ z) mk = false.
Proof.
  induction ls as [|l ls IH]; intros a b z Hfree Hmk E Hb Ha.
  - change (unlines []) with (@nil ascii) in E.
    destruct a; simpl in E; [congruence | discriminate].
  - simpl in Hfree. apply andb_true_iff in Hfree as [Hl Hls].
    apply andb_true_iff in Hl as [Hl1 Hl2]. apply negb_true_iff in Hl2.
    change (unlines (l :: ls)) with ((l ++ [LF]) ++ unlines ls) in E.
    destruct Ha as [-> | [a' ->]].
    + simpl in E. subst b. rewrite <- !app_assoc. simpl.
      destruct (startswith (l ++ LF :: unlines ls ++ z) mk) eqn:Es;
        [|reflexivity].
      apply prefix_line in Es; [congruence | exact Hmk].
    + symmetry in E. apply app_eq_app in E as [t [[E1 E2] | [E1 E2]]].
      * (* the line is a start of [a] *)
        eapply (IH t b z Hls Hmk E2 Hb).
        destruct t as [|c t]; [now left|]. right.
        destruct (exists_last (l := c :: t) ltac:(discriminate)) as (t' & c' & Et).
        rewrite Et in E1. rewrite !app_assoc in E1.
        apply app_inj_tail in E1 as [_ <-]. eauto.
      * (* [a] ends inside the line: it would hold a line feed *)
        destruct t as [|c t].
        -- simpl in E2. subst b.
           apply (IH [] (unlines ls) z Hls Hmk eq_refl Hb). now left.
        -- exfalso.
           destruct (exists_last (l := c :: t) ltac:(discriminate)) as (t' & c' & Et).
           rewrite Et in E1. rewrite !app_assoc in E1.
           apply app_inj_tail in E1 as [E1 _]. subst l.
           rewrite !no_LF_app in Hl1. change (no_LF [LF]) with false in Hl1.
           rewrite andb_false_r in Hl1. discriminate.
Qed.

Lemma unlines_app a b : unlines (a ++ b) = unlines a ++ unlines b.
Proof. unfold unlines. now rewrite map_app, concat_app. Qed.

Lemma unlines_bol b ls :
  is_bol b = true -> is_bol (prev_after b (unlines ls)) = true.
Proof.
  intros Hb. destruct ls as [|l0 ls]; [exact Hb|].
  destruct (exists_last (l := l0 :: ls) ltac:(discriminate)) as (ls' & l & ->).
  rewrite unlines_app. unfold unlines at 2. simpl.
  rewrite app_nil_r, !app_assoc. apply is_bol_after_LF.
Qed.

Lemma consumed_app b b' x y gs gs' :
  consumed (MState b (x ++ y) gs) (MState b' y gs') = x.
Proof.
  unfold consumed. simpl. rewrite length_app.
  replace (length x + length y - length y) with (length x) by lia.
  apply take_app_length.
Qed.

Section Tail.
Context {R : Type}.
Implicit Types (k : mstate -> option R).

(** The updated section ends at the first UPDATED marker at the start of a
    line. *)
Lemma tail_updated uls b post gs k r :
  free_of UPDATED uls = true -> is_bol b = true ->
  k (MState (Some "D"%char) post ((6, unlines uls) :: gs)) = Some r ->
  mtch (Cat [Group 6 (Star false (Chr any_char)); Bol; Lit UPDATED])
    (MState b (unlines uls ++ UPDATED ++ post) gs) k = Some r.
Proof.
  intros Hfree Hb Hk. unfold Cat. cbn [fold_right mtch rest].
  apply lazy_any_first.
  - rewrite length_app. lia.
  - intros x1 x2 E Hx2.
    unfold at_bol, set_group. cbn [prev rest groups].
    destruct (is_bol (prev_after b x1)) eqn:Hbol; [|reflexivity].
    apply mtch_lit_fail. cbn [rest].
    apply (line_start_free UPDATED uls x1 x2); auto.
    apply is_bol_after in Hbol as [[-> _]|?]; auto.
  - unfold at_bol, set_group. cbn [prev rest groups].
    rewrite consumed_app, (unlines_bol b uls Hb), mtch_lit. exact Hk.
Qed.

Lemma mtch_tail_re st k :
  mtch tail_re st k
  = star_loop false (mtch (Chr any_char)) (length (rest st)) st
      (fun s1 =>
         orelse (mtch (Chr (Ascii.eqb LF)) s1
                   (fun s2 => mtch tail1_re (set_group 5 st s2) k))
                (fun _ => mtch tail1_re (set_group 5 st s1) k)).
Proof. reflexivity. Qed.

Lemma mtch_tail1_re st k :
  mtch tail1_re st k
  = if is_bol (prev st)
    then mtch (Lit DIVIDER) st (fun s =>
           mtch (Cat [Group 6 (Star false (Chr any_char)); Bol; Lit UPDATED])
             s k)
    else None.
Proof. reflexivity. Qed.

Lemma tail1_none st k :
  (is_bol (prev st) = true -> startswith (rest st) DIVIDER = false) ->
  mtch tail1_re st k = None.
Proof.
  intros H. rewrite mtch_tail1_re.
  destruct (is_bol (prev st)); [|reflexivity].
  apply mtch_lit_fail. now apply H.
Qed.

Lemma tail1_ok uls b post gs k r :
  free_of UPDATED uls = true -> is_bol b = true ->
  k (MState (Some "D"%char) post ((6, unlines uls) :: gs)) = Some r ->
  mtch tail1_re (MState b (DIVIDER ++ unlines uls ++ UPDATED ++ post) gs) k
  = Some r.
Proof.
  intros Hfree Hb Hk. rewrite mtch_tail1_re. cbn [prev]. rewrite Hb.
  rewrite mtch_lit. apply tail_updated; auto.
Qed.

Lemma chr_LF_divider b w gs k :
  mtch (Chr (Ascii.eqb LF)) (MState b (DIVIDER ++ w) gs) k = None.
Proof. reflexivity. Qed.

(** The original section ends at the first divider at the start of a line,
    the updated section at the first UPDATED marker at the start of a
    line. *)
Lemma tail_first ols uls b post gs k r :
  free_of DIVIDER ols = true -> free_of UPDATED uls = true ->
  is_bol b = true ->
  k (MState (Some "D"%char) post
       ((6, unlines uls) :: (5, unlines ols) :: gs)) = Some r ->
  mtch tail_re
    (MState b (unlines ols ++ DIVIDER ++ unlines uls ++ UPDATED ++ post) gs) k
  = Some r.
Proof.
  intros Ho Hu Hb Hk. rewrite mtch_tail_re.
  set (Z := DIVIDER ++ unlines uls ++ UPDATED ++ post).
  set (st := MState b (unlines ols ++ Z) gs).
  assert (Hnone : forall a bb b' gs',
    unlines ols = a ++ bb -> bb <> [] ->
    (is_bol b' = true -> a = [] \/ exists a', a = a' ++ [LF]) ->
    mtch tail1_re (MState b' (bb ++ Z) gs') k = None).
  { intros a bb b' gs' E Hbb Ha. apply tail1_none. cbn [prev rest].
    intros Hbol. apply (line_start_free DIVIDER ols a bb Z); auto. }
  destruct ols as [|l0 ols0].
  - (* no original line *)
    change (unlines []) with (@nil ascii) in *. subst st.
    apply lazy_any_first.
    + simpl. lia.
    + intros x1 x2 E Hx2. symmetry in E.
      apply app_eq_nil in E as [_ E]. contradiction.
    + unfold orelse. subst Z. rewrite chr_LF_divider.
      unfold set_group. cbn [prev rest groups].
      rewrite (consumed_app _ _ []).
      change (prev_after b []) with b.
      rewrite (tail1_ok uls b post _ k r Hu Hb Hk). reflexivity.
  - destruct (exists_last (l := l0 :: ols0) ltac:(discriminate))
      as (ols' & l & E).
    subst st. rewrite E in *. clear E l0 ols0.
    assert (Ex : unlines (ols' ++ [l]) = (unlines ols' ++ l) ++ [LF]).
    { rewrite unlines_app. unfold unlines at 2. simpl.
      now rewrite app_nil_r, app_assoc. }
    rewrite Ex in *. rewrite <- app_assoc.
    apply lazy_any_first.
    + cbn [rest]. rewrite !length_app. lia.
    + intros x1 x2 E Hx2. unfold orelse.
      destruct x2 as [|c x2]; [congruence|].
      assert (H2 : mtch tail1_re
        (set_group 5
           (MState b ((unlines ols' ++ l) ++ [LF] ++ Z) gs)
           (MState (prev_after b x1) ((c :: x2) ++ [LF] ++ Z) gs)) k = None).
      { unfold set_group. cbn [prev rest groups].
        rewrite (app_assoc (c :: x2) [LF] Z).
        apply (Hnone x1); [now rewrite E, <- app_assoc | discriminate|].
        intros Hbol. apply is_bol_after in Hbol as [[-> _]|?]; auto. }
      rewrite H2. cbn [mtch rest app].
      destruct (Ascii.eqb LF c) eqn:Ec; [|reflexivity].
      apply Ascii.eqb_eq in Ec. subst c.
      unfold set_group. cbn [prev rest groups].
      change (x2 ++ LF :: Z) with (x2 ++ [LF] ++ Z).
      rewrite (app_assoc x2 [LF] Z).
      rewrite (Hnone (x1 ++ [LF]) (x2 ++ [LF])); [reflexivity| | |].
      * rewrite E, <- !app_assoc. reflexivity.
      * destruct x2; discriminate.
      * intros _. right. eauto.
    + unfold orelse. cbn [mtch rest app]. rewrite Ascii.eqb_refl.
      unfold set_group. cbn [prev rest groups].
      change (LF :: Z) with ([LF] ++ Z). rewrite app_assoc, consumed_app.
      subst Z.
      rewrite (tail1_ok uls (Some LF) post _ k r Hu eq_refl Hk).
      reflexivity.
Qed.
End Tail.

(** * The extraction of the directives *)

Ltac assoc_from H :=
  let H' := fresh in
  pose proof H as H'; rewrite <- ?app_assoc in H'; rewrite <- ?app_assoc;
  exact H'.

Ltac by_cases c :=
  destruct c as [[] [] [] [] [] [] [] []]; vm_compute; congruence.

Lemma name_char_nonspace c : name_char c = true -> nonspace c = true.
Proof. by_cases c. Qed.

Lemma name_char_not_lt c : name_char c = true -> Ascii.eqb c "<"%char = false.
Proof. by_cases c. Qed.

Lemma name_char_not_sep c : name_char c = true -> is_sep c = false.
Proof. by_cases c. Qed.

Lemma name_char_not_LF c : name_char c = true -> Ascii.eqb c LF = false.
Proof. by_cases c. Qed.

Lemma path_char_not_lt c : path_char c = true -> Ascii.eqb c "<"%char = false.
Proof. by_cases c. Qed.

Lemma isspace_not_lt c : isspace c = true -> Ascii.eqb c "<"%char = false.
Proof. by_cases c. Qed.

Lemma guarded_mono x : forall ok, guarded false x = true -> guarded ok x = true.
Proof.
  destruct x as [|c x]; intros ok H; [reflexivity|]. simpl in *.
  apply andb_true_iff in H as [H1 H2]. rewrite H2, andb_true_r.
  rewrite orb_false_r in H1. now rewrite H1.
Qed.

Lemma guarded_app a : forall ok b,
  guarded ok a = true -> guarded false b = true -> guarded ok (a ++ b) = true.
Proof.
  induction a as [|c a IH]; intros ok b Ha Hb; simpl in *.
  - now apply guarded_mono.
  - apply andb_true_iff in Ha as [H1 H2]. rewrite H1. simpl. now apply IH.
Qed.

Lemma guarded_free a : forall ok,
  forallb (fun c => negb (Ascii.eqb c "<"%char)) a = true ->
  guarded ok a = true.
Proof.
  induction a as [|c a IH]; intros ok H; simpl in *; [reflexivity|].
  apply andb_true_iff in H as [H1 H2]. rewrite H1. simpl. now apply IH.
Qed.

Lemma guarded_class (q : ascii -> bool) a ok :
  (forall c, q c = true -> Ascii.eqb c "<"%char = false) ->
  forallb q a = true -> guarded ok a = true.
Proof.
  intros Hq H. apply guarded_free. revert H. apply forallb_impl.
  intros c Hc. now rewrite (Hq c Hc).
Qed.

Lemma guarded_nonspace ns : forall ws,
  forallb nonspace ns = true -> forallb isspace ws = true ->
  guarded true (ns ++ ws) = true.
Proof.
  induction ns as [|c ns IH]; intros ws Hns Hws.
  - apply (guarded_class isspace); [apply isspace_not_lt | exact Hws].
  - simpl in Hns. apply andb_true_iff in Hns as [H1 H2].
    cbn [app guarded]. rewrite orb_true_r. cbn [andb].
    unfold nonspace in H1. rewrite H1. now apply IH.
Qed.

Lemma guarded_fence f : fence_shape f -> guarded false f = true.
Proof.
  intros (ns & ws & -> & Hns & Hws).
  change (guarded false (fence ++ ns ++ ws))
    with (guarded true (ns ++ ws)).
  now apply guarded_nonspace.
Qed.

Lemma guarded_path p ok : path_shape p -> guarded ok p = true.
Proof.
  intros (d & l & -> & Hd & _ & _ & Hl).
  apply guarded_free. rewrite forallb_app. apply andb_true_iff. split.
  - revert Hd. apply forallb_impl. intros c Hc.
    now rewrite (path_char_not_lt c Hc).
  - revert Hl. apply forallb_impl. intros c Hc.
    now rewrite (name_char_not_lt c Hc).
Qed.

Lemma guarded_LF_lt a : forall ok m,
  guarded ok (a ++ LF :: "<"%char :: m) = false.
Proof.
  induction a as [|c a IH]; intros ok m.
  - cbn [app guarded]. change (isspace LF) with true.
    change (Ascii.eqb "<" "<") with true. cbn [negb orb andb].
    apply andb_false_r.
  - cbn [app guarded]. rewrite IH. apply andb_false_r.
Qed.

Lemma closed_by_nil q : closed_by q [] = true.
Proof. reflexivity. Qed.

Lemma closed_by_snoc q a c : closed_by q (a ++ [c]) = negb (q c).
Proof. unfold closed_by. now rewrite rev_app_distr. Qed.

Lemma closed_by_app q (r : ascii -> bool) a b :
  (forall c, r c = true -> q c = false) ->
  b <> [] -> forallb r b = true -> closed_by q (a ++ b) = true.
Proof.
  intros Hr Hb H.
  destruct (exists_last Hb) as (b' & c & ->).
  rewrite app_assoc, closed_by_snoc.
  rewrite forallb_app in H. apply andb_true_iff in H as [_ H]. simpl in H.
  rewrite andb_true_r in H. now rewrite (Hr c H).
Qed.

(** A trailing run of characters of a class, closed on the left, is
    determined by the text. *)
Lemma run_unique q u a u' a' :
  u ++ a = u' ++ a' ->
  forallb q a = true -> forallb q a' = true ->
  closed_by q u = true -> closed_by q u' = true ->
  u = u' /\ a = a'.
Proof.
  assert (Hside : forall u a u' a' t,
    u = u' ++ t -> a' = t ++ a -> forallb q a' = true ->
    closed_by q u = true -> t = []).
  { intros u0 a0 u0' a0' t -> -> Hq Hc.
    destruct t as [|c0 t]; [reflexivity|]. exfalso.
    destruct (exists_last (l := c0 :: t) ltac:(discriminate)) as (t' & c & Et).
    rewrite Et in *. rewrite app_assoc, closed_by_snoc in Hc.
    rewrite !forallb_app in Hq. simpl in Hq.
    apply andb_true_iff in Hq as [Hq _]. apply andb_true_iff in Hq as [_ Hq].
    rewrite andb_true_r in Hq. now rewrite Hq in Hc. }
  intros E Ha Ha' Hu Hu'.
  apply app_eq_app in E as [t [[E1 E2] | [E1 E2]]].
  - assert (t = []) by (eapply (Hside u a u' a' t); eauto). subst t.
    rewrite app_nil_r in E1. simpl in E2. auto.
  - assert (t = []) by (eapply (Hside u' a' u a t); eauto). subst t.
    rewrite app_nil_r in E1. simpl in E2. auto.
Qed.

Lemma bol_closed (q : ascii -> bool) b a :
  q LF = false -> is_bol (prev_after b a) = true -> closed_by q a = true.
Proof.
  intros Hq H. apply is_bol_after in H as [[-> _] | [a' ->]].
  - reflexivity.
  - now rewrite closed_by_snoc, Hq.
Qed.

Lemma unlines_suffix_closed (q : ascii -> bool) ls a b :
  q LF = false -> unlines ls = a ++ b -> closed_by q b = true.
Proof.
  intros Hq E. destruct b as [|c0 b]; [reflexivity|].
  destruct (exists_last (l := c0 :: b) ltac:(discriminate)) as (b' & c & Eb).
  rewrite Eb in *. rewrite closed_by_snoc.
  destruct ls as [|l0 ls].
  - change (unlines []) with (@nil ascii) in E.
    symmetry in E. apply app_eq_nil in E as [_ E].
    apply app_eq_nil in E as [_ E]. discriminate.
  - destruct (exists_last (l := l0 :: ls) ltac:(discriminate)) as (ls' & l & El).
    rewrite El, unlines_app in E. unfold unlines at 2 in E. simpl in E.
    rewrite app_nil_r, !app_assoc in E.
    apply app_inj_tail in E as [_ <-]. now rewrite Hq.
Qed.

Lemma prev_after_snoc b a c : prev_after b (a ++ [c]) = Some c.
Proof. unfold prev_after. now rewrite rev_app_distr. Qed.

Lemma free_of_app mk a b : free_of mk (a ++ b) = free_of mk a && free_of mk b.
Proof. apply forallb_app. Qed.

Lemma ext_ok_chars e : ext_ok e = true -> forallb name_char e = true.
Proof.
  destruct e as [|c e]; [reflexivity|]. simpl. intros H.
  apply andb_true_iff in H as [H H3]. apply andb_true_iff in H as [H1 _].
  apply Ascii.eqb_eq in H1. subst c. cbn [andb].
  change (name_char ".") with true. cbn [andb].
  revert H3. apply forallb_impl, word_name_char.
Qed.

Lemma file_name_chars base ext :
  file_name base ext = true ->
  base ++ ext <> [] /\ forallb name_char (base ++ ext) = true.
Proof.
  unfold file_name. intros H.
  apply andb_true_iff in H as [H H3]. apply andb_true_iff in H as [H1 H2].
  split.
  - destruct base; [discriminate|discriminate].
  - rewrite forallb_app. apply andb_true_iff. split.
    + revert H2. apply forallb_impl, word_name_char.
    + now apply ext_ok_chars.
Qed.

Lemma name_free p :
  p <> [] -> forallb name_char p = true -> free_of ORIGINAL [p] = true.
Proof.
  intros Hne Hp. unfold free_of. cbn [forallb]. rewrite andb_true_r.
  apply andb_true_iff. split.
  - unfold no_LF. revert Hp. apply forallb_impl. intros c Hc.
    now rewrite (name_char_not_LF c Hc).
  - destruct p as [|c p]; [congruence|]. simpl in Hp.
    apply andb_true_iff in Hp as [Hc _].
    unfold ORIGINAL. cbn [s list_ascii_of_string app startswith].
    now rewrite (name_char_not_lt c Hc).
Qed.

Lemma original_no_LF : no_LF (removelast ORIGINAL) = true.
Proof. reflexivity. Qed.

(** Before the ORIGINAL marker of a block whose path is a bare file name, and
    after lines of which none is the marker line, the head of the pattern
    can only match up to that marker, with the file name as its path. *)
Lemma head_block pls base ext done presuf b0 z st st1 :
  free_of ORIGINAL pls = true -> file_name base ext = true ->
  unlines pls = done ++ presuf ->
  prev st = prev_after b0 done ->
  rest st = presuf ++ (base ++ ext) ++ [LF] ++ ORIGINAL ++ z ->
  den head_re st st1 ->
  rest st1 = z /\ prev st1 = Some LF /\
  glookup 2 (groups st1) = Some (base ++ ext).
Proof.
  intros Hfree Hname Epls Hprev Hrest Hd.
  apply file_name_chars in Hname as [Hpne Hp].
  set (p := base ++ ext) in *.
  apply den_head_inv in Hd
    as (f1 & p' & ws & f4 & [Hm Hpv] & Hf1 & Hb1 & Hp' & Hws0 & Hws & Hf4
        & Hg & Hb6).
  assert (Hsp : forall c, isspace c = true -> nonspace c = false).
  { intros c Hc. unfold nonspace. now rewrite Hc. }
  assert (Hns : forall c, nonspace c = true -> isspace c = false).
  { intros c Hc. unfold nonspace in Hc. now apply negb_true_iff in Hc. }
  assert (Hnsp : forall c, name_char c = true -> isspace c = false).
  { intros c Hc. apply Hns. now apply name_char_nonspace. }
  (* the text before the marker, as the head matched it and as it is *)
  assert (E : (f1 ++ p' ++ ws ++ f4) ++ ORIGINAL ++ rest st1
              = (presuf ++ p ++ [LF]) ++ ORIGINAL ++ z).
  { transitivity (rest st);
      [rewrite Hm | rewrite Hrest]; now rewrite <- !app_assoc. }
  assert (Hguard : guarded false (f1 ++ p' ++ ws ++ f4) = true).
  { apply guarded_app; [destruct Hf1 as [-> | Hf1];
                          [reflexivity | now apply guarded_fence]|].
    apply guarded_app; [now apply guarded_path|].
    apply guarded_app;
      [apply (guarded_class isspace); [apply isspace_not_lt | exact Hws]|].
    destruct Hf4 as [-> | Hf4]; [reflexivity | now apply guarded_fence]. }
  assert (EX : f1 ++ p' ++ ws ++ f4 = presuf ++ p ++ [LF] /\ rest st1 = z).
  { apply app_eq_app in E as [t [[E1 E2] | [E1 E2]]].
    - destruct t as [|c t].
      + rewrite app_nil_r in E1. rewrite app_nil_l in E2.
        apply app_inv_head in E2. split; [auto | congruence].
      + exfalso. assert (c = "<"%char) by (inversion E2; reflexivity).
        subst c. rewrite E1 in Hguard.
        replace ((presuf ++ p ++ [LF]) ++ "<"%char :: t)
          with ((presuf ++ p) ++ LF :: "<"%char :: t) in Hguard
          by (now rewrite <- !app_assoc).
        now rewrite guarded_LF_lt in Hguard.
    - destruct t as [|c t].
      + rewrite app_nil_r in E1. rewrite app_nil_l in E2.
        apply app_inv_head in E2. split; [auto | congruence].
      + exfalso.
        assert (Hs : startswith ((c :: t) ++ ORIGINAL ++ z) ORIGINAL = false).
        { apply (line_start_free ORIGINAL (pls ++ [p])
                   (done ++ f1 ++ p' ++ ws ++ f4) (c :: t)).
          - rewrite free_of_app, Hfree. now apply name_free.
          - apply original_no_LF.
          - rewrite unlines_app, Epls.
            change (unlines [p]) with ((p ++ [LF]) ++ []).
            rewrite app_nil_r, <- !app_assoc. f_equal.
            rewrite <- !app_assoc in E1. exact E1.
          - discriminate.
          - rewrite Hprev, prev_after_app in Hb6.
            apply is_bol_after in Hb6 as [[-> _] | ?]; auto. }
        rewrite <- E2 in Hs.
        assert (Ht : startswith (ORIGINAL ++ rest st1) ORIGINAL = true)
          by (apply startswith_spec; eauto).
        congruence. }
  destruct EX as [EX Ez].
  split; [exact Ez|]. split.
  { rewrite Hpv. unfold ORIGINAL. rewrite !app_assoc. apply prev_after_snoc. }
  rewrite Hg. f_equal.
  assert (Hpresuf : forall q, q LF = false -> closed_by q presuf = true).
  { intros q Hq. now apply (unlines_suffix_closed q pls done). }
  destruct Hp' as (d & l & -> & Hd & Hsep & Hl0 & Hl).
  (* no fence between the path and the marker *)
  assert (Cp : closed_by isspace (presuf ++ p) = true)
    by (apply (closed_by_app isspace name_char); auto).
  assert (Np : forallb nonspace p = true)
    by (revert Hp; apply forallb_impl, name_char_nonspace).
  assert (Ef4 : f4 = []).
  { destruct Hf4 as [-> | (ns & ws4 & -> & Hns4 & Hws4)]; [reflexivity|].
    exfalso.
    assert (E1 : (f1 ++ (d ++ l) ++ ws ++ fence ++ ns) ++ ws4
                 = (presuf ++ p) ++ [LF]) by (assoc_from EX).
    assert (C1 : closed_by isspace (f1 ++ (d ++ l) ++ ws ++ fence ++ ns)
                 = true).
    { rewrite !app_assoc, <- (app_assoc _ fence ns).
      apply (closed_by_app isspace nonspace);
        [exact Hns | discriminate |].
      rewrite forallb_app, Hns4. reflexivity. }
    destruct (run_unique isspace _ _ _ _ E1 Hws4 eq_refl C1 Cp) as [E2 _].
    assert (E3 : (f1 ++ (d ++ l) ++ ws) ++ (fence ++ ns) = presuf ++ p)
      by (assoc_from E2).
    assert (C3 : closed_by nonspace (f1 ++ (d ++ l) ++ ws) = true)
      by (rewrite !app_assoc; eapply closed_by_app; eauto).
    assert (N3 : forallb nonspace (fence ++ ns) = true)
      by (rewrite forallb_app, Hns4; reflexivity).
    destruct (run_unique nonspace _ _ _ _ E3 N3 Np C3 (Hpresuf _ eq_refl))
      as [_ E4].
    destruct p as [|c p0]; [congruence|]. inversion E4; subst c.
    discriminate. }
  subst f4. rewrite app_nil_r in EX.
  assert (E1 : (f1 ++ d ++ l) ++ ws = (presuf ++ p) ++ [LF])
    by (assoc_from EX).
  assert (C1 : closed_by isspace (f1 ++ d ++ l) = true)
    by (rewrite app_assoc; apply (closed_by_app isspace name_char); auto).
  destruct (run_unique isspace _ _ _ _ E1 Hws eq_refl C1 Cp) as [E2 _].
  rewrite app_assoc in E2.
  assert (C2 : closed_by name_char (f1 ++ d) = true).
  { destruct d as [|c0 d0].
    - rewrite app_nil_r. now apply (bol_closed name_char (prev st)).
    - destruct (exists_last (l := c0 :: d0) ltac:(discriminate))
        as (d' & c & Ed).
      rewrite Ed in *. rewrite app_assoc, closed_by_snoc.
      unfold ends_with_sep in Hsep. rewrite rev_app_distr in Hsep.
      simpl in Hsep.
      destruct (name_char c) eqn:Ec; [|reflexivity].
      now rewrite (name_char_not_sep c Ec) in Hsep. }
  destruct (run_unique name_char _ _ _ _ E2 Hl Hp C2 (Hpresuf _ eq_refl))
    as [E3 E4].
  destruct d as [|c0 d0]; [exact E4|]. exfalso.
  destruct (exists_last (l := c0 :: d0) ltac:(discriminate)) as (d' & c & Ed).
  rewrite Ed in *.
  unfold ends_with_sep in Hsep. rewrite rev_app_distr in Hsep. simpl in Hsep.
  specialize (Hpresuf is_sep eq_refl).
  rewrite <- E3, app_assoc, closed_by_snoc, Hsep in Hpresuf. discriminate.
Qed.

(** ** Matches that exist *)

Lemma den_chr_here (q : ascii -> bool) c b y gs :
  q c = true -> den (Chr q) (MState b (c :: y) gs) (MState (Some c) y gs).
Proof. intros H. now apply (den_chr q c y (MState b (c :: y) gs)). Qed.

Lemma den_lit_here x : forall b y gs,
  den (Lit x) (MState b (x ++ y) gs) (MState (prev_after b x) y gs).
Proof.
  induction x as [|c x IH]; intros b y gs.
  - apply den_eps.
  - change (Lit (c :: x)) with (Seq (Chr (Ascii.eqb c)) (Lit x)).
    apply (den_seq _ _ _ (MState (Some c) (x ++ y) gs)).
    + apply den_chr_here. apply Ascii.eqb_refl.
    + rewrite prev_after_cons. apply IH.
Qed.

Lemma den_star_chr_here g (q : ascii -> bool) x : forall b y gs,
  forallb q x = true ->
  den (Star g (Chr q)) (MState b (x ++ y) gs) (MState (prev_after b x) y gs).
Proof.
  induction x as [|c x IH]; intros b y gs H.
  - apply den_star_0.
  - simpl in H. apply andb_true_iff in H as [Hc Hx].
    apply (den_star_S g (Chr q) _ (MState (Some c) (x ++ y) gs)).
    + apply den_chr_here. exact Hc.
    + simpl. lia.
    + rewrite prev_after_cons. now apply IH.
Qed.

Lemma den_plus_chr_here (q : ascii -> bool) x b y gs :
  x <> [] -> forallb q x = true ->
  den (Plus (Chr q)) (MState b (x ++ y) gs) (MState (prev_after b x) y gs).
Proof.
  intros Hne H. destruct x as [|c x]; [congruence|].
  simpl in H. apply andb_true_iff in H as [Hc Hx].
  apply (den_seq _ _ _ (MState (Some c) (x ++ y) gs)).
  - apply den_chr_here. exact Hc.
  - rewrite prev_after_cons. now apply den_star_chr_here.
Qed.

Lemma den_ext_here ext b y gs :
  ext_ok ext = true ->
  exists gs',
    den (Opt (Group 3 (Cat [Lit (s "."); Plus (Chr isword)])))
      (MState b (ext ++ y) gs) (MState (prev_after b ext) y gs').
Proof.
  intros H. destruct ext as [|c e].
  - exists gs. apply den_alt_r, den_eps.
  - simpl in H. apply andb_true_iff in H as [H H3].
    apply andb_true_iff in H as [H1 H2]. apply Ascii.eqb_eq in H1. subst c.
    eexists. apply den_alt_l.
    refine (den_group 3 _ (MState b (("."%char :: e) ++ y) gs)
              (MState (prev_after b ("."%char :: e)) y gs) _).
    eapply den_seq; [apply (den_lit_here (s ".") b (e ++ y) gs)|].
    eapply den_seq; [|apply den_eps].
    rewrite prev_after_cons.
    apply den_plus_chr_here; [destruct e; [discriminate | discriminate]|].
    exact H3.
Qed.

Lemma den_path_here base ext b y gs :
  file_name base ext = true ->
  exists gs',
    den path_re (MState b ((base ++ ext) ++ y) gs)
      (MState (prev_after b (base ++ ext)) y gs').
Proof.
  unfold file_name. intros H.
  apply andb_true_iff in H as [H H3]. apply andb_true_iff in H as [H1 H2].
  destruct (den_ext_here ext (prev_after b base) y gs H3) as [gs' He].
  exists gs'. unfold path_re.
  apply den_Cat_cons. eexists. split; [apply den_alt_r, den_eps|].
  apply den_Cat_cons. eexists. split; [apply den_star_0|].
  apply den_Cat_cons. eexists. split.
  { rewrite <- app_assoc. apply den_plus_chr_here; [|exact H2].
    destruct base; [discriminate | discriminate]. }
  apply den_Cat_cons. eexists. split; [|apply den_Cat_nil; reflexivity].
  rewrite <- prev_after_app. exact He.
Qed.

(** At the start of a line that holds a bare file name and is followed by the
    ORIGINAL marker, the head of the pattern matches. *)
Lemma den_head_here base ext b z gs :
  file_name base ext = true -> is_bol b = true ->
  exists st1,
    den head_re (MState b ((base ++ ext) ++ [LF] ++ ORIGINAL ++ z) gs) st1.
Proof.
  intros Hn Hb.
  destruct (den_path_here base ext b ([LF] ++ ORIGINAL ++ z) gs Hn)
    as [gs' Hp].
  eexists. unfold head_re.
  apply den_Cat_cons. eexists. split; [apply den_alt_r, den_eps|].
  apply den_Cat_cons. eexists. split; [apply den_bol; exact Hb|].
  apply den_Cat_cons. eexists. split; [apply den_group; exact Hp|].
  apply den_Cat_cons. eexists. split.
  { unfold set_group. cbn [prev rest groups].
    apply (den_plus_chr_here isspace [LF]); [discriminate | reflexivity]. }
  apply den_Cat_cons. eexists. split; [apply den_alt_r, den_eps|].
  apply den_Cat_cons. eexists. split; [apply den_bol; reflexivity|].
  apply den_Cat_cons. eexists. split; [apply den_lit_here|].
  apply den_Cat_nil. reflexivity.
Qed.

Section All.
Context {R : Type}.

(** When every way of matching [a] lets the continuation succeed with a
    result in [Q], and there is a way, the matcher succeeds with a result
    in [Q]. *)
Lemma mtch_all a st (k : mstate -> option R) (Q : R -> Prop) :
  (exists st1, den a st st1) ->
  (forall st1, den a st st1 -> exists r, k st1 = Some r /\ Q r) ->
  exists r, mtch a st k = Some r /\ Q r.
Proof.
  intros [st1 Hd] Hall.
  destruct (Hall st1 Hd) as (r & Hk & _).
  destruct (mtch_complete a st st1 k r Hd Hk) as [r' Hr'].
  exists r'. split; [exact Hr'|].
  apply mtch_sound in Hr' as (st2 & Hd2 & Hk2).
  destruct (Hall st2 Hd2) as (r2 & Hk2' & HQ). congruence.
Qed.

Lemma mtch_all_sound a st (k : mstate -> option R) (Q : R -> Prop) r :
  (forall st1, den a st st1 -> exists r, k st1 = Some r /\ Q r) ->
  mtch a st k = Some r -> Q r.
Proof.
  intros Hall Hr. apply mtch_sound in Hr as (st2 & Hd2 & Hk2).
  destruct (Hall st2 Hd2) as (r2 & Hk2' & HQ). congruence.
Qed.
End All.

(** ** The pattern at a block *)

Lemma prev_after_updated b x : prev_after b (x ++ UPDATED) = Some "D"%char.
Proof.
  change UPDATED with (s ">>>>>>> UPDATE" ++ ["D"%char]).
  rewrite app_assoc. apply prev_after_snoc.
Qed.

Lemma edit_block_shape p o u w :
  edit_block p o u ++ w
  = p ++ [LF] ++ ORIGINAL ++ (o ++ DIVIDER ++ u ++ UPDATED ++ w).
Proof. unfold edit_block. now rewrite <- !app_assoc. Qed.

Lemma edit_block_nonempty p o u : edit_block p o u <> [].
Proof. unfold edit_block. destruct p; discriminate. Qed.

Lemma prev_after_block b a p o u :
  prev_after b (a ++ edit_block p o u) = Some "D"%char.
Proof.
  unfold edit_block. rewrite !app_assoc. apply prev_after_updated.
Qed.

Section Block.
Variables (pls ols uls : list str) (base ext w : str) (b0 : option ascii).
Hypothesis Hpls : free_of ORIGINAL pls = true.
Hypothesis Hname : file_name base ext = true.
Hypothesis Hols : free_of DIVIDER ols = true.
Hypothesis Huls : free_of UPDATED uls = true.
Hypothesis Hbol : is_bol (prev_after b0 (unlines pls)) = true.

Lemma tail_after_head done presuf st st1 :
  unlines pls = done ++ presuf ->
  prev st = prev_after b0 done ->
  rest st = presuf ++ edit_block (base ++ ext) (unlines ols) (unlines uls) ++ w ->
  den head_re st st1 ->
  exists r, mtch tail_re st1 Some = Some r /\ block_match (base ++ ext) (unlines ols) (unlines uls) w r.
Proof.
  intros Epls Hprev Hrest Hd. rewrite edit_block_shape in Hrest.
  destruct (head_block pls base ext done presuf b0 _ st st1
              Hpls Hname Epls Hprev Hrest Hd) as (Hr & Hp & Hg).
  destruct st1 as [b1 r1 gs1]. cbn [rest prev groups] in *. subst b1 r1.
  eexists. split.
  - apply (tail_first ols uls (Some LF) w gs1 Some); auto.
  - unfold block_match. cbn [rest groups].
    rewrite !glookup_cons_eq, !glookup_cons_ne, glookup_cons_eq
      by discriminate.
    auto.
Qed.

Lemma pattern_at done presuf b r :
  unlines pls = done ++ presuf ->
  b = prev_after b0 done ->
  mtch pattern (MState b (presuf ++ edit_block (base ++ ext) (unlines ols) (unlines uls) ++ w) []) Some = Some r ->
  block_match (base ++ ext) (unlines ols) (unlines uls) w r.
Proof.
  intros Epls Hb H. rewrite mtch_pattern_split in H.
  refine (mtch_all_sound head_re _ _ _ r _ H).
  intros st1 Hd.
  exact (tail_after_head done presuf (MState b _ []) st1 Epls Hb eq_refl
           Hd).
Qed.

Lemma pattern_here b :
  b = prev_after b0 (unlines pls) ->
  exists r,
    mtch pattern (MState b (edit_block (base ++ ext) (unlines ols) (unlines uls) ++ w) []) Some = Some r /\
    block_match (base ++ ext) (unlines ols) (unlines uls) w r.
Proof.
  intros Hb. rewrite mtch_pattern_split. apply mtch_all.
  - rewrite edit_block_shape. apply den_head_here; [exact Hname|].
    now rewrite Hb.
  - intros st1 Hd.
    refine (tail_after_head (unlines pls) [] (MState b _ []) st1 _ Hb
              eq_refl Hd).
    now rewrite app_nil_r.
Qed.
End Block.

(** ** The scan *)

Lemma scan_cons re b c x :
  scan re 0 b (c :: x)
  = match mtch re (MState b (c :: x) []) Some with
    | Some st' =>
        RMatch (groups st') (consumed (MState b (c :: x) []) st')
        :: scan re (pred (length (c :: x) - length (rest st'))) (Some c) x
    | None => scan re 0 (Some c) x
    end.
Proof. simpl. destruct (mtch re _ Some); reflexivity. Qed.

Lemma scan_skip re y : forall b w,
  scan re (length y) b (y ++ w) = scan re 0 (prev_after b y) w.
Proof.
  induction y as [|c y IH]; intros b w; [reflexivity|].
  rewrite prev_after_cons, <- IH. reflexivity.
Qed.

(** A match at the current position is reported, and the scan goes on behind
    it. *)
Lemma scan_hit re b y w st' :
  y <> [] ->
  mtch re (MState b (y ++ w) []) Some = Some st' -> rest st' = w ->
  scan re 0 b (y ++ w)
  = RMatch (groups st') y :: scan re 0 (prev_after b y) w.
Proof.
  intros Hy H Hr. destruct y as [|c y]; [congruence|].
  change ((c :: y) ++ w) with (c :: y ++ w) in *.
  rewrite scan_cons, H. f_equal.
  - f_equal. destruct st' as [b' r' gs']. cbn [rest] in Hr. subst r'.
    change (c :: y ++ w) with ((c :: y) ++ w). apply consumed_app.
  - rewrite Hr. cbn [length]. rewrite length_app.
    replace (pred (S (length y + length w) - length w)) with (length y)
      by lia.
    rewrite scan_skip. now rewrite prev_after_cons.
Qed.

Lemma group_glookup n gs y : group n (RMatch gs y) = glookup n gs.
Proof. reflexivity. Qed.

Lemma starts_line_spec mk x : forall b,
  starts_line mk b x = true <->
  exists a z, x = a ++ mk ++ z /\ is_bol (prev_after b a) = true.
Proof.
  induction x as [|c x IH]; intros b; cbn [starts_line].
  - rewrite orb_false_r, andb_true_iff, startswith_spec. split.
    + intros [Hb [y Hy]]. exists [], y. split; [exact Hy | exact Hb].
    + intros (a & z & H & Hb). destruct a; [|discriminate].
      split; [exact Hb | eauto].
  - rewrite orb_true_iff, andb_true_iff, startswith_spec, IH. split.
    + intros [[Hb [y Hy]] | (a & z & -> & Hb)].
      * exists [], y. auto.
      * exists (c :: a), z. split; [reflexivity|].
        now rewrite prev_after_cons.
    + intros (a & z & H & Hb). destruct a as [|c' a].
      * left. split; [exact Hb | eauto].
      * right. inversion H; subst. exists a, z. split; [reflexivity|].
        now rewrite prev_after_cons in Hb.
Qed.

(** A text in which the marker occurs nowhere has it at no start of a
    line. *)
Lemma starts_line_occurs mk x b :
  occurs mk x = false -> starts_line mk b x = false.
Proof.
  intros H. destruct (starts_line mk b x) eqn:E; [|reflexivity].
  apply starts_line_spec in E as (a & z & -> & _).
  assert (occurs mk (a ++ mk ++ z) = true) by (apply occurs_spec; eauto).
  congruence.
Qed.

Lemma scan_sound_prev re : forall x skip b m,
  In m (scan re skip b x) ->
  exists a y st', x = a ++ y /\
    mtch re (MState (prev_after b a) y []) Some = Some st'.
Proof.
  induction x as [|c x IH]; intros skip b m H; simpl in H;
    apply in_app_or in H as [H | H].
  - destruct skip; [|destruct H].
    destruct (mtch re (MState b [] []) Some) as [st'|] eqn:E; [|destruct H].
    exists [], [], st'. split; [reflexivity | exact E].
  - destruct H.
  - destruct skip; [|destruct H].
    destruct (mtch re (MState b (c :: x) []) Some) as [st'|] eqn:E;
      [|destruct H].
    exists [], (c :: x), st'. split; [reflexivity | exact E].
  - apply IH in H as (a & y & st' & -> & H1).
    exists (c :: a), y, st'. split; [reflexivity|].
    now rewrite prev_after_cons.
Qed.

(** Every match of the pattern has the ORIGINAL marker at the start of a
    line. *)
Lemma pattern_match_marker st st' :
  mtch pattern st Some = Some st' ->
  starts_line ORIGINAL (prev st) (rest st) = true.
Proof.
  intros H. apply mtch_sound in H as (st2 & Hd & _).
  apply den_pattern_split in Hd as (st1 & Hh & _).
  apply den_head_inv in Hh
    as (f1 & p & ws & f4 & [Hm _] & _ & _ & _ & _ & _ & _ & _ & Hb).
  apply starts_line_spec. exists (f1 ++ p ++ ws ++ f4), (rest st1).
  split; [rewrite Hm; now rewrite <- !app_assoc | exact Hb].
Qed.

(** A text without the ORIGINAL marker at the start of a line has no edit
    block. *)
Lemma scan_no_marker x skip b :
  starts_line ORIGINAL b x = false -> scan pattern skip b x = [].
Proof.
  intros H. destruct (scan pattern skip b x) as [|m l] eqn:E; [reflexivity|].
  assert (Hin : In m (scan pattern skip b x)) by (rewrite E; now left).
  apply scan_sound_prev in Hin as (a & y & st' & -> & Hm).
  apply pattern_match_marker in Hm. cbn [prev rest] in Hm.
  apply starts_line_spec in Hm as (a' & z & -> & Hb).
  assert (starts_line ORIGINAL b (a ++ a' ++ ORIGINAL ++ z) = true).
  { apply starts_line_spec. exists (a ++ a'), z.
    split; [now rewrite <- app_assoc | now rewrite <- prev_after_app]. }
  congruence.
Qed.

(** The scan of prose lines and a block behind them reports the block, and
    goes on behind it. *)
Lemma scan_block pls ols uls base ext w b0 :
  free_of ORIGINAL pls = true -> file_name base ext = true ->
  free_of DIVIDER ols = true -> free_of UPDATED uls = true ->
  is_bol (prev_after b0 (unlines pls)) = true ->
  forall presuf done, unlines pls = done ++ presuf ->
  exists m,
    scan pattern 0 (prev_after b0 done)
      (presuf ++ edit_block (base ++ ext) (unlines ols) (unlines uls) ++ w)
    = m :: scan pattern 0 (Some "D"%char) w /\
    directive m = (base ++ ext, unlines ols, unlines uls).
Proof.
  intros Hpls Hname Hols Huls Hbol.
  assert (Hhit : forall presuf done r,
    unlines pls = done ++ presuf ->
    mtch pattern
      (MState (prev_after b0 done)
         (presuf ++ edit_block (base ++ ext) (unlines ols) (unlines uls) ++ w)
         []) Some = Some r ->
    exists m,
      scan pattern 0 (prev_after b0 done)
        (presuf ++ edit_block (base ++ ext) (unlines ols) (unlines uls) ++ w)
      = m :: scan pattern 0 (Some "D"%char) w /\
      directive m = (base ++ ext, unlines ols, unlines uls)).
  { intros presuf done r Epls Hr.
    pose proof (pattern_at pls ols uls base ext w b0 Hpls Hname Hols Huls
                  done presuf _ r Epls eq_refl Hr) as (Hw & H2 & H5 & H6).
    rewrite app_assoc in Hr |- *.
    eexists. split.
    - rewrite (scan_hit pattern _ _ w r); [|  | exact Hr | exact Hw].
      + now rewrite prev_after_block.
      + intros E. apply app_eq_nil in E as [_ E].
        now apply edit_block_nonempty in E.
    - unfold directive, m_path, m_original, m_updated.
      rewrite !group_glookup, H2, H5, H6. reflexivity. }
  induction presuf as [|c presuf IH]; intros done Epls.
  - rewrite app_nil_r in Epls. subst done.
    destruct (pattern_here pls ols uls base ext w b0 Hpls Hname Hols Huls
                Hbol _ eq_refl) as (r & Hr & _).
    apply (Hhit [] (unlines pls) r); [now rewrite app_nil_r | exact Hr].
  - destruct (mtch pattern
      (MState (prev_after b0 done)
         ((c :: presuf)
          ++ edit_block (base ++ ext) (unlines ols) (unlines uls) ++ w)
         []) Some) as [r|] eqn:Hr.
    + now apply (Hhit (c :: presuf) done r).
    + change ((c :: presuf) ++ ?z) with (c :: presuf ++ z) in *.
      rewrite scan_cons, Hr.
      rewrite <- (prev_after_snoc b0 done c).
      apply IH. rewrite Epls. now rewrite <- app_assoc.
Qed.


(** * [strip_quoted_wrapping] on an echo of the file name *)

Lemma splitlines_from_plain l : forall cur,
  plain_line l = true -> rev cur ++ l <> [] ->
  splitlines_from false cur l = [rev cur ++ l].
Proof.
  induction l as [|c l IH]; intros cur H Hne; simpl.
  - rewrite app_nil_r in *. destruct cur; [now simpl in Hne|reflexivity].
  - simpl in H. apply andb_true_iff in H as [Hc Hl].
    apply negb_true_iff in Hc. rewrite andb_false_r, Hc.
    rewrite IH; [simpl; now rewrite <- app_assoc | exact Hl |].
    simpl. rewrite <- app_assoc. destruct (rev cur); discriminate.
Qed.

Lemma splitlines_single l res :
  plain_line l = true ->
  (res = l /\ l <> []) \/ res = l ++ [LF] ->
  res <> [] /\ splitlines res = [l].
Proof.
  intros Hl [[-> Hne] | ->].
  - split; [exact Hne|]. unfold splitlines.
    now rewrite splitlines_from_plain.
  - split; [destruct l; discriminate|].
    change (l ++ [LF]) with (l ++ [LF] ++ []).
    rewrite app_assoc. change ((l ++ [LF]) ++ []) with (unlines [l]).
    apply splitlines_unlines. simpl. now rewrite Hl.
Qed.

(** C8: [strip_quoted_wrapping] does not return on every input.  On a text
    of one line (with or without its line feed) that ends, white space
    apart, with the name of the file, the line is taken for an echo of the
    file name and dropped; the test of the first line for a fence then finds
    no line, and the function raises [IndexError]. *)
Theorem strip_quoted_wrapping_raises l res fname :
  plain_line l = true ->
  (res = l /\ l <> []) \/ res = l ++ [LF] ->
  name_truthy fname = true ->
  endswith (strip l) (Path_name (name_path fname)) = true ->
  strip_quoted_wrapping res fname = Raise IndexError.
Proof.
  intros Hl Hres Hname Hend.
  destruct (splitlines_single l res Hl Hres) as [Hne Hsplit].
  unfold strip_quoted_wrapping. destruct res as [|c res']; [congruence|].
  rewrite Hsplit, Hname. cbn [item0 rbind]. rewrite Hend. reflexivity.
Qed.

Lemma strip_quoted_wrapping_raises_witness :
  strip_quoted_wrapping (s "foo.py") (StrName (s "foo.py")) = Raise IndexError.
Proof.
  apply (strip_quoted_wrapping_raises (s "foo.py"));
    [reflexivity | left; split; [reflexivity | discriminate]
    | reflexivity | reflexivity].
Defined.

Section Populate.
Context `{C : Collaborators}.

End Populate.



(** * The methods one by one *)

Section Input.
Context `{C : Collaborators}.




End Input.

Section Interrupts.
Context `{C : Collaborators}.

Lemma run_turn_interrupt w more :
  keyboard w = KeyCtrlC :: more ->
  run_turn w
  = (set_num_control_c (num_control_c w + 1) (set_keyboard more w),
     Ok (2 <=? num_control_c w + 1)%Z).
Proof.
  intros Hk. unfold run_turn, try_except, run_loop.
  unfold bind at 1. unfold bind at 1. unfold get_input.
  unfold bind at 1, gets at 1. cbn [get_input_loop].
  unfold bind at 1. unfold input. rewrite Hk.
  cbn [on_KeyboardInterrupt]. rewrite bind_modify, bind_gets.
  cbn [num_control_c set_num_control_c].
  destruct (2 <=? num_control_c (set_keyboard more w) + 1)%Z eqn:E;
    cbn [num_control_c set_keyboard] in E; rewrite E; reflexivity.
Qed.

Lemma run_while_two_interrupts w more fuel :
  keyboard w = KeyCtrlC :: KeyCtrlC :: more -> num_control_c w = 0%Z ->
  run_while (S (S fuel)) w
  = (set_num_control_c 2 (set_keyboard more w), Ok true).
Proof.
  intros Hk Hn. cbn [run_while]. unfold bind at 1.
  rewrite (run_turn_interrupt w (KeyCtrlC :: more) Hk), Hn.
  change (2 <=? 0 + 1)%Z with false. cbv iota. unfold bind at 1.
  rewrite (run_turn_interrupt
             (set_num_control_c (0 + 1)
                (set_keyboard (KeyCtrlC :: more) w)) more eq_refl).
  cbn [num_control_c set_num_control_c set_keyboard].
  change (2 <=? 0 + 1 + 1)%Z with true. reflexivity.
Qed.

(** X2: two interrupts at the prompt, one after the other, end [run]: the
    loop is left after the second, and no file is written, created or
    touched. *)
Theorem two_interrupts_end_the_session w more fuel :
  keyboard w = KeyCtrlC :: KeyCtrlC :: more ->
  exists w',
    run (S (S fuel)) w = (w', Ok true) /\
    disk w' = disk w /\ clock w' = clock w /\
    keyboard w' = more /\ num_control_c w' = 2%Z.
Proof.
  intros Hk. unfold run, run_start. unfold bind at 1.
  rewrite !bind_modify. unfold modify.
  rewrite (run_while_two_interrupts
             (set_num_control_c 0
                (set_cur_messages [] (set_done_messages [] w)))
             more fuel Hk eq_refl).
  eexists. split; [reflexivity|]. repeat split.
Qed.
End Interrupts.

Section Counting.
Context `{C : Collaborators}.





End Counting.

Section Sending.
Context `{C : Collaborators}.

(** X4: [send] asks the model that is named (the main model when none is)
    for a completion of the messages, and returns the text of the chunks it
    has consumed, in their order, with the flag that tells whether the user
    interrupted the stream; chunks without content are passed over.  The
    text is also left in [resp]; no file changes.  This holds whenever the
    stream is not shown in colour, or no chunk of it has an unexpected
    finish reason. *)
Theorem send_returns_the_text_received msgs model pbe silent w c more :
  completions w = c :: more ->
  pbe <> 0 \/ pretty w = false \/ silent = true
    \/ finishes_normally c = true ->
  exists w',
    send msgs model pbe silent w = (w', Ok (received c, cancelled c)) /\
    resp w' = received c /\
    sent w' = sent w ++ [(model_choice model w, msgs)] /\
    completions w' = more /\
    disk w' = disk w /\ fnames w' = fnames w.
Proof.
  intros Hc Hok. rewrite (send_spec msgs model pbe silent w c more Hc Hok).
  eexists. split; [reflexivity|]. repeat split.
Qed.

Lemma show_send_output_color_loop_unexpected pre : forall fr d post v w,
  finishes_normally pre = true -> cancelled pre = false ->
  finish_unexpected fr = true ->
  show_send_output_color_loop (pre ++ Chunk fr d :: post) (set_resp v w)
  = (set_resp (v ++ received pre) w, Raise AssertionError).
Proof.
  induction pre as [|[fr0 d0|] pre IH]; intros fr d post v w Hf Hx Hu.
  - cbn [app show_send_output_color_loop]. rewrite Hu.
    cbn [received]. now rewrite app_nil_r.
  - cbn [finishes_normally] in Hf. apply andb_true_iff in Hf as [H1 H2].
    apply negb_true_iff in H1. cbn [cancelled] in Hx.
    cbn [app show_send_output_color_loop]. rewrite H1.
    unfold bind. rewrite append_delta_spec, (IH fr d post _ w H2 Hx Hu).
    destruct d0; cbn [received]; now rewrite <- ?app_assoc, ?app_nil_r.
  - discriminate.
Qed.

(** X5: where the response is shown in colour ([pretty], not silent, no
    progress bar), a chunk with a finish reason other than [stop] makes
    [send] raise [AssertionError]: the chunks behind it are not consumed,
    and [send], which catches interrupts only, lets the exception pass. *)
Theorem send_asserts_in_colour msgs model w pre fr d post more :
  completions w = (pre ++ Chunk fr d :: post) :: more ->
  pretty w = true ->
  finishes_normally pre = true -> cancelled pre = false ->
  finish_unexpected fr = true ->
  exists w',
    send msgs model 0 false w = (w', Raise AssertionError) /\
    resp w' = received pre /\ disk w' = disk w.
Proof.
  intros Hc Hp Hf Hx Hu. unfold send.
  assert (Hpick :
    (match model with None | Some [] => gets main_model | Some m => ret m end) w
    = (w, Ok (model_choice model w))).
  { destruct model as [[|]|]; reflexivity. }
  unfold bind at 1. rewrite Hpick.
  unfold bind at 1. unfold ChatCompletion_create at 1. rewrite Hc.
  set (w1 := set_completions more (sent w ++ [(model_choice model w, msgs)]) w).
  unfold bind at 1. unfold gets at 1.
  change (pretty w1) with (pretty w). rewrite Hp. cbn [Nat.eqb negb andb].
  unfold bind at 1. unfold try_except. unfold bind at 1.
  unfold show_send_output_color. rewrite bind_modify.
  rewrite (show_send_output_color_loop_unexpected pre fr d post [] w1
             Hf Hx Hu).
  cbn [on_KeyboardInterrupt]. eexists. split; [reflexivity|].
  split; reflexivity.
Qed.
End Sending.

Section Preparing.
Context `{C : Collaborators}.

Lemma get_files_content_loop_view names : forall prompt w,
  get_files_content_loop names prompt w
  = (w, quoted_files (disk w) names prompt).
Proof.
  induction names as [|n names IH]; intros prompt w; [reflexivity|].
  cbn [get_files_content_loop quoted_files]. unfold bind at 1.
  unfold quoted_file. unfold bind at 1. unfold read_text.
  destruct (disk w !! n) as [f|]; [|reflexivity].
  cbn [ret]. rewrite IH. now rewrite <- !app_assoc.
Qed.

Lemma get_files_messages_view w :
  get_files_messages w
  = (w, rbind (quoted_files (disk w) (dict_keys (fnames w)) [])
          (fun fc => Ok (files_frame fc))).
Proof.
  unfold get_files_messages, get_files_content.
  unfold bind at 1. rewrite bind_gets, get_files_content_loop_view.
  destruct (quoted_files _ _ _); reflexivity.
Qed.

Lemma commit_nothing history prefix ask w :
  nothing_to_commit w -> commit history prefix ask w = (w, Ok None).
Proof.
  intros [H | (r & H & Hd)]; unfold commit; rewrite bind_gets, H;
    [reflexivity|].
  rewrite bind_gets, Hd. reflexivity.
Qed.

(** The steps of [run_loop_prepare] where no tracked file has changed. *)
Ltac quiet_turn Ht Hle Hfc :=
  unfold run_loop_prepare;
  rewrite bind_modify, bind_gets; unfold bind at 1;
  rewrite get_last_modified_pure;
  match goal with |- context [current_mtime (set_num_control_c 0 ?w)] =>
    change (current_mtime (set_num_control_c 0 w)) with (current_mtime w);
    rewrite Ht; cbn [last_modified set_num_control_c];
    match type of Hle with (?t <= _)%Z =>
      destruct (Z.ltb_spec (last_modified w) t) as [?|_]; [lia|]
    end
  end;
  unfold bind at 1; unfold ret at 1;
  rewrite bind_modify, bind_gets; unfold bind at 1;
  rewrite get_files_messages_view;
  cbn [disk fnames set_cur_messages set_num_control_c];
  rewrite Hfc; cbn [rbind]; rewrite bind_gets;
  cbn [done_messages cur_messages set_cur_messages set_num_control_c];
  unfold ret; rewrite <- ?app_assoc.


(** X6: in a turn before which no tracked file has changed on disk, the
    transcript that [run_loop] sends is the system preamble, the archived
    messages, the frame of three messages with the current content of
    every tracked file, and the active buffer with the new user message at
    its end; the count of interrupts is reset and nothing else changes. *)
Theorem transcript_of_a_turn inp w t fc :
  current_mtime w = Ok t -> (t <= last_modified w)%Z ->
  quoted_files (disk w) (dict_keys (fnames w)) [] = Ok fc ->
  run_loop_prepare inp w
  = (set_cur_messages (cur_messages w ++ [Message user inp])
       (set_num_control_c 0 w),
     Ok ([Message system (main_system prompts ++ system_reminder prompts)]
         ++ done_messages w ++ files_frame fc
         ++ cur_messages w ++ [Message user inp])).
Proof.
  intros Ht Hle Hfc. quiet_turn Ht Hle Hfc.
  reflexivity.
Qed.

(** X7: when a tracked file has changed on disk and [commit] has nothing to
    look at (there is no repository, or it is clean), the turn archives the
    active buffer behind the marker of local edits and starts a new buffer
    with the user message, but the baseline of the modification times stays
    as it was: it is still below the time of the files, so the next turn
    takes the same change for a new one. *)
Theorem local_edits_without_a_commit inp w t :
  nothing_to_commit w ->
  current_mtime w = Ok t -> (last_modified w < t)%Z ->
  let w' := (run_loop_prepare inp w).1 in
  done_messages w'
    = done_messages w ++ cur_messages w ++ local_edits_marker /\
  cur_messages w' = [Message user inp] /\
  last_modified w' = last_modified w /\
  current_mtime w' = Ok t /\ disk w' = disk w.
Proof.
  intros Hn Ht Hlt.
  remember (run_loop_prepare inp w) as X eqn:EX.
  unfold run_loop_prepare in EX.
  rewrite bind_modify, bind_gets in EX. unfold bind at 1 in EX.
  rewrite get_last_modified_pure in EX.
  change (current_mtime (set_num_control_c 0 w)) with (current_mtime w)
    in EX.
  rewrite Ht in EX. cbn [last_modified set_num_control_c] in EX.
  destruct (Z.ltb_spec (last_modified w) t) as [_|?]; [|lia].
  unfold bind at 1 in EX. unfold bind at 1 in EX.
  rewrite (commit_nothing None None true (set_num_control_c 0 w)) in EX
    by exact Hn.
  rewrite !bind_modify in EX. unfold modify at 1 in EX.
  rewrite bind_modify, bind_gets in EX. unfold bind at 1 in EX.
  rewrite get_files_messages_view in EX.
  match type of EX with context [rbind ?q _] => destruct q as [fc|e] end;
    cbn [rbind] in EX; [rewrite bind_gets in EX|]; subst X;
    cbn [fst done_messages cur_messages last_modified disk
         set_cur_messages set_done_messages set_num_control_c];
    (split; [now rewrite <- !app_assoc|]); repeat split; exact Ht.
Qed.

Lemma mtimes_missing files names p :
  In p names -> files !! p = None ->
  mtimes files names = Raise FileNotFoundError.
Proof.
  induction names as [|n names IH]; intros Hin Hp; [destruct Hin|].
  cbn [mtimes]. destruct (files !! n) as [f|] eqn:E; [|reflexivity].
  destruct Hin as [->|Hin]; [congruence|].
  now rewrite (IH Hin Hp).
Qed.


End Preparing.

Lemma add_final_newline_join ls :
  ls <> [] -> List.last ls [] <> [] -> plain_line (List.last ls []) = true ->
  add_final_newline (join [LF] ls) = unlines ls.
Proof.
  intros Hne Hlast Hplain.
  destruct (rev_join_last ls Hne Hlast Hplain) as (c & x & E & Hc).
  unfold add_final_newline. rewrite E.
  destruct (Ascii.eqb_spec c LF); [congruence|].
  now apply join_unlines.
Qed.

Lemma unlines_nonempty l ls : unlines (l :: ls) <> [].
Proof.
  change (unlines (l :: ls)) with ((l ++ [LF]) ++ unlines ls).
  destruct l; discriminate.
Qed.

Lemma item_last_snoc {A} (l : list A) a : item_last (l ++ [a]) = Ok a.
Proof. unfold item_last. now rewrite rev_app_distr. Qed.

(** The text between a pair of fences, as [strip_quoted_wrapping] returns
    it. *)
Lemma strip_fences f1 f2 ls :
  forallb plain_line (f1 :: ls ++ [f2]) = true ->
  startswith f1 fence = true -> startswith f2 fence = true ->
  rbind (item0 (f1 :: ls ++ [f2])) (fun r0 =>
  rbind (if startswith r0 fence
         then rbind (item_last (f1 :: ls ++ [f2])) (fun rl =>
                Ok (if startswith rl fence
                    then slice_1_m1 (f1 :: ls ++ [f2])
                    else f1 :: ls ++ [f2]))
         else Ok (f1 :: ls ++ [f2])) (fun res =>
  Ok (add_final_newline (join [LF] res))))
  = Ok (add_final_newline (join [LF] ls)).
Proof.
  intros _ H1 H2. cbn [item0 rbind]. rewrite H1.
  change (f1 :: ls ++ [f2]) with ((f1 :: ls) ++ [f2]).
  rewrite item_last_snoc. cbn [rbind]. rewrite H2.
  unfold slice_1_m1. cbn [app tl]. now rewrite removelast_last.
Qed.

(** X9: [strip_quoted_wrapping] takes the wrapping off a text of plain lines
    that stand between two fence lines, with or without a line before them
    that ends with the name of the file: what is left is the lines between
    the fences, joined by line feeds, with a line feed at the end unless the
    text is empty or ends with one already.  Where the last of these lines
    is not empty this is the text of the lines as it was. *)
Theorem strip_quoted_wrapping_unwraps fname f1 f2 ls :
  forallb plain_line (f1 :: ls ++ [f2]) = true ->
  startswith f1 fence = true -> startswith f2 fence = true ->
  (name_truthy fname
   && endswith (strip f1) (Path_name (name_path fname)) = false ->
   strip_quoted_wrapping (unlines (f1 :: ls ++ [f2])) fname
   = Ok (add_final_newline (join [LF] ls))) /\
  (forall echo,
     plain_line echo = true -> name_truthy fname = true ->
     endswith (strip echo) (Path_name (name_path fname)) = true ->
     strip_quoted_wrapping (unlines (echo :: f1 :: ls ++ [f2])) fname
     = Ok (add_final_newline (join [LF] ls))) /\
  (ls <> [] -> List.last ls [] <> [] ->
   add_final_newline (join [LF] ls) = unlines ls).
Proof.
  intros Hplain H1 H2. split; [|split].
  - intros Hecho. unfold strip_quoted_wrapping.
    pose proof (unlines_nonempty f1 (ls ++ [f2])) as Hne.
    destruct (unlines (f1 :: ls ++ [f2])) as [|c x] eqn:E; [congruence|].
    rewrite <- E, (splitlines_unlines _ Hplain).
    destruct (name_truthy fname).
    + cbn [item0 rbind]. cbn [andb] in Hecho. rewrite Hecho.
      now apply strip_fences.
    + cbn [rbind]. now apply strip_fences.
  - intros echo He Hn Hend. unfold strip_quoted_wrapping.
    pose proof (unlines_nonempty echo (f1 :: ls ++ [f2])) as Hne.
    destruct (unlines (echo :: f1 :: ls ++ [f2])) as [|c x] eqn:E;
      [congruence|].
    rewrite <- E, splitlines_unlines
      by (cbn [forallb]; rewrite He; exact Hplain).
    rewrite Hn. cbn [item0 rbind]. rewrite Hend.
    unfold slice_from1. cbn [tl]. now apply strip_fences.
  - intros Hne Hlast. apply add_final_newline_join; auto.
    cbn [forallb] in Hplain. apply andb_true_iff in Hplain as [_ Hp].
    rewrite forallb_app in Hp. apply andb_true_iff in Hp as [Hp _].
    rewrite forallb_forall in Hp. apply Hp.
    destruct (exists_last Hne) as (ls' & l & ->).
    rewrite last_last. apply in_or_app. right. now left.
Qed.

Section Replacing.
Context `{C : Collaborators}.

Lemma do_replace_missing w fname before after b a :
  strip_quoted_wrapping before (StrName fname) = Ok b ->
  strip_quoted_wrapping after (StrName fname) = Ok a ->
  disk w !! fname = None -> b <> [] ->
  do_replace fname before after w = (w, Raise FileNotFoundError).
Proof.
  intros Hb Ha Hf Hne. unfold do_replace. unfold bind at 1, lift at 1.
  rewrite Hb. unfold bind at 1, lift at 1. rewrite Ha.
  unfold bind at 1, path_exists, gets at 1.
  rewrite bool_decide_eq_false_2 by (rewrite Hf; intros [? ?]; discriminate).
  unfold str_eqb. rewrite (bool_decide_eq_false_2 _ Hne).
  cbn [negb andb]. unfold bind at 1. unfold ret at 1.
  unfold bind at 1, read_text. now rewrite Hf.
Qed.

(** X10: on a file that exists, with an original text or a file content
    that is not empty, [do_replace] leaves the edit to the chunk matcher.
    Where the matcher finds no match, and also where its result is the
    empty text, nothing is written and the edit counts as not applied;
    otherwise the file is rewritten with the result.  On a file that does
    not exist, with an original text that is not empty, [do_replace] raises
    [FileNotFoundError] and creates nothing. *)
Theorem do_replace_by_the_matcher w fname before after b a :
  strip_quoted_wrapping before (StrName fname) = Ok b ->
  strip_quoted_wrapping after (StrName fname) = Ok a ->
  (forall f, disk w !! fname = Some f -> b <> [] \/ text f <> [] ->
     ((replace_most_similar_chunk (text f) b a = None \/
       replace_most_similar_chunk (text f) b a = Some []) ->
      do_replace fname before after w = (w, Ok false)) /\
     (forall new,
        replace_most_similar_chunk (text f) b a = Some new -> new <> [] ->
        do_replace fname before after w
        = (set_disk (<[fname := MkFile new (clock w)]> (disk w))
             (clock w + 1) w, Ok true))) /\
  (disk w !! fname = None -> b <> [] ->
   do_replace fname before after w = (w, Raise FileNotFoundError)).
Proof.
  intros Hb Ha. split.
  - intros f Hf Hne.
    assert (Hsel : str_eqb b [] && str_eqb (text f) [] = false).
    { unfold str_eqb.
      destruct Hne as [Hne|Hne];
        [rewrite (bool_decide_eq_false_2 _ Hne)
        |rewrite (bool_decide_eq_false_2 (text f = []) Hne),
           andb_false_r]; reflexivity. }
    assert (Hstart :
      do_replace fname before after w
      = (let* content := read_text fname in
         if str_eqb b [] && str_eqb content []
         then write_text fname a ;;; ret true
         else
           match replace_most_similar_chunk content b a with
           | None | Some [] => ret false
           | Some new_content => write_text fname new_content ;;; ret true
           end) w).
    { unfold do_replace. unfold bind at 1, lift at 1.
      rewrite Hb. unfold bind at 1, lift at 1. rewrite Ha.
      unfold bind at 1, path_exists, gets at 1.
      rewrite bool_decide_eq_true_2 by eauto. cbn [negb andb].
      unfold bind at 1. reflexivity. }
    rewrite Hstart. clear Hstart. split.
    + intros Hm. unfold bind at 1, read_text. rewrite Hf, Hsel.
      destruct Hm as [Hm|Hm]; rewrite Hm; reflexivity.
    + intros new Hm Hnew. unfold bind at 1, read_text.
      rewrite Hf, Hsel, Hm.
      destruct new as [|c new]; [congruence|]. reflexivity.
  - intros Hf Hne. now apply (do_replace_missing w fname before after b a).
Qed.
End Replacing.

Section Escalating.
Context `{C : Collaborators}.

(** X11: an escalation that is not interrupted asks [gpt-3.5-turbo], with
    the system prompt of the editor and the user prompt made of the
    request, the edit, the name and the current content of the file, and
    rewrites the file with the answer as [strip_quoted_wrapping] returns
    it; no other file changes.  Where [strip_quoted_wrapping] raises,
    nothing is written.  Where the file does not exist, the escalation
    raises [FileNotFoundError] before the model is asked. *)
Theorem escalation_rewrites_the_file w fname edit request :
  (forall f c more,
     disk w !! fname = Some f ->
     completions w = c :: more -> cancelled c = false -> edit <> [] ->
     let asked :=
       (s "gpt-3.5-turbo",
        [Message system (editor_system prompts);
         Message user
           (editor_user_format prompts request edit fname (text f))]) in
     let r := do_gpt_powered_replace fname edit request w in
     sent r.1 = sent w ++ [asked] /\
     match strip_quoted_wrapping (received c) (PathName fname) with
     | Ok x =>
         r.2 = Ok tt /\ text <$> disk r.1 !! fname = Some x /\
         forall p, p <> fname -> disk r.1 !! p = disk w !! p
     | Raise e => r.2 = Raise e /\ disk r.1 = disk w
     end) /\
  (disk w !! fname = None ->
   do_gpt_powered_replace fname edit request w
   = (w, Raise FileNotFoundError)).
Proof.
  split.
  - intros f c more Hf Hc Hx He. cbv zeta.
    remember (do_gpt_powered_replace fname edit request w) as X eqn:EX.
    unfold do_gpt_powered_replace in EX.
    unfold bind at 1 in EX. unfold read_text in EX. rewrite Hf in EX.
    unfold bind at 1 in EX.
    rewrite (send_spec _ _ _ false w c more Hc) in EX.
    2: { left. destruct edit; [congruence|]. cbn [length]. lia. }
    rewrite Hx in EX. unfold bind at 1, lift at 1 in EX.
    destruct (strip_quoted_wrapping (received c) (PathName fname))
      as [x|e]; subst X; cbn.
    + split; [reflexivity|]. split; [reflexivity|]. split.
      * now rewrite lookup_insert_eq.
      * intros p Hp. now rewrite lookup_insert_ne.
    + repeat split.
  - intros Hf. unfold do_gpt_powered_replace.
    unfold bind at 1. unfold read_text. now rewrite Hf.
Qed.
End Escalating.

Section Committing.
Context `{C : Collaborators}.

Lemma commit_drafts w history prefix ask r diffs dirty rel c more :
  repo w = Some r -> is_dirty r (disk w) = true ->
  scan_diffs r (disk w) (dict_keys (fnames w)) [] [] []
    = Ok (diffs, dirty, rel) ->
  dirty <> [] -> completions w = c :: more ->
  let messages :=
    [Message system (commit_system prompts);
     Message user (history_context history ++ line "# Diffs:" ++ diffs)] in
  let w1 := after_send messages (Some (s "gpt-3.5-turbo")) c more w in
  commit history prefix ask w
  = if cancelled c then (w1, Raise KeyboardInterrupt)
    else
      (let* decision :=
         if ask then commit_ask (drafted_message prefix (received c))
         else ret (Some (drafted_message prefix (received c))) in
       match decision with
       | None => ret None
       | Some commit_message =>
           commit_make r rel (history_context history) commit_message
       end) w1.
Proof.
  intros Hr Hd Hs Hne Hc. cbv zeta.
  unfold commit. rewrite bind_gets. cbv beta.
  rewrite Hr. cbv beta iota. rewrite bind_gets.
  cbv beta. rewrite Hd.
  cbv beta iota delta [negb]. rewrite bind_gets.
  unfold bind at 1. rewrite commit_scan_pure, Hs.
  destruct dirty as [|d0 dirty]; [congruence|]. cbv beta iota.
  unfold bind at 1.
  rewrite (send_spec _ _ _ _ _ _ _ Hc) by auto.
  destruct (cancelled c); reflexivity.
Qed.

(** X12: an interrupt while the model drafts the commit message abandons
    the commit: [commit] raises [KeyboardInterrupt], nothing is staged or
    committed, the user is not asked, and the baseline of the modification
    times stays as it was. *)
Theorem commit_interrupted_while_drafting
    w history prefix ask r diffs dirty rel c more :
  repo w = Some r -> is_dirty r (disk w) = true ->
  scan_diffs r (disk w) (dict_keys (fnames w)) [] [] []
    = Ok (diffs, dirty, rel) ->
  dirty <> [] -> completions w = c :: more -> cancelled c = true ->
  exists w',
    commit history prefix ask w = (w', Raise KeyboardInterrupt) /\
    repo w' = repo w /\ last_modified w' = last_modified w /\
    answers w' = answers w /\ disk w' = disk w.
Proof.
  intros Hr Hd Hs Hne Hc Hx.
  rewrite (commit_drafts w history prefix ask r diffs dirty rel c more
             Hr Hd Hs Hne Hc), Hx.
  eexists. split; [reflexivity|]. repeat split.
Qed.

(** X13: without the question to the user, [commit] in a dirty repository
    with a tracked file that differs from the last commit sends the commit
    prompt (the context of the history, then the diffs) to
    [gpt-3.5-turbo], stages the dirty tracked files, and commits with the
    drafted message (the answer stripped of white space and double quotes,
    behind the prefix), a blank line and the context.  It returns the first
    seven characters of the new hash with the drafted message, and sets the
    baseline to the latest modification time of the tracked files. *)
Theorem commit_makes_the_commit
    w history prefix r diffs dirty rel c more r1 r2 t :
  repo w = Some r -> is_dirty r (disk w) = true ->
  scan_diffs r (disk w) (dict_keys (fnames w)) [] [] []
    = Ok (diffs, dirty, rel) ->
  dirty <> [] -> completions w = c :: more -> cancelled c = false ->
  git_add r (disk w) rel = Ok r1 ->
  git_commit r1 (disk w)
    (drafted_message prefix (received c) ++ [LF; LF]
     ++ history_context history) = Ok r2 ->
  current_mtime w = Ok t ->
  exists w',
    commit history prefix false w
    = (w', Ok (Some (firstn 7 (head_hexsha r2),
                     drafted_message prefix (received c)))) /\
    repo w' = Some r2 /\ last_modified w' = t /\ disk w' = disk w /\
    sent w'
    = sent w
      ++ [(s "gpt-3.5-turbo",
           [Message system (commit_system prompts);
            Message user
              (history_context history ++ line "# Diffs:" ++ diffs)])].
Proof.
  intros Hr Hd Hs Hne Hc Hx Ha Hm Ht.
  rewrite (commit_drafts w history prefix false r diffs dirty rel c more
             Hr Hd Hs Hne Hc), Hx.
  unfold bind at 1. unfold ret at 1. unfold commit_make.
  rewrite bind_gets. unfold bind at 1, lift at 1.
  cbn [disk after_send set_resp set_completions]. rewrite Ha.
  rewrite bind_modify. unfold bind at 1, lift at 1. rewrite Hm.
  rewrite bind_modify. unfold bind at 1.
  rewrite get_last_modified_pure.
  match goal with |- context [current_mtime ?w0] =>
    replace (current_mtime w0) with (Ok (A := Z) t)
      by (rewrite <- Ht; symmetry; now apply current_mtime_frame)
  end.
  rewrite bind_modify. eexists. split; [reflexivity|]. repeat split.
Qed.

Lemma commit_make_spec r rel ctx msg w r1 r2 t :
  git_add r (disk w) rel = Ok r1 ->
  git_commit r1 (disk w) (msg ++ [LF; LF] ++ ctx) = Ok r2 ->
  current_mtime w = Ok t ->
  commit_make r rel ctx msg w
  = (set_last_modified t
       (set_repo_state (Some r2) (set_repo_state (Some r1) w)),
     Ok (Some (firstn 7 (head_hexsha r2), msg))).
Proof.
  intros Ha Hm Ht. unfold commit_make.
  rewrite bind_gets. unfold bind at 1, lift at 1. rewrite Ha.
  rewrite bind_modify. unfold bind at 1, lift at 1.
  cbn [disk set_repo_state]. rewrite Hm.
  rewrite bind_modify. unfold bind at 1.
  rewrite get_last_modified_pure.
  match goal with |- context [current_mtime ?w0] =>
    replace (current_mtime w0) with (Ok (A := Z) t)
      by (rewrite <- Ht; symmetry; now apply current_mtime_frame)
  end.
  rewrite bind_modify. reflexivity.
Qed.

(** X21: asked before the commit, the user who answers neither [n] nor
    [no] gets the commit: with the drafted message on [y] or [yes], and
    with the answer itself, stripped of white space, on any other text; the
    prefix is not put before such an answer. *)
Theorem commit_with_the_answer_of_the_user
    w history prefix r diffs dirty rel c more x rest r1 r2 t :
  repo w = Some r -> is_dirty r (disk w) = true ->
  scan_diffs r (disk w) (dict_keys (fnames w)) [] [] []
    = Ok (diffs, dirty, rel) ->
  dirty <> [] -> completions w = c :: more -> cancelled c = false ->
  answers w = Answer x :: rest -> declines (Answer x) = false ->
  let msg := answered_message (drafted_message prefix (received c)) x in
  git_add r (disk w) rel = Ok r1 ->
  git_commit r1 (disk w) (msg ++ [LF; LF] ++ history_context history)
    = Ok r2 ->
  current_mtime w = Ok t ->
  exists w',
    commit history prefix true w
    = (w', Ok (Some (firstn 7 (head_hexsha r2), msg))) /\
    repo w' = Some r2 /\ answers w' = rest /\ last_modified w' = t.
Proof.
  intros Hr Hd Hs Hne Hc Hx Ha Hdec msg Hadd Hm Ht.
  rewrite (commit_drafts w history prefix true r diffs dirty rel c more
             Hr Hd Hs Hne Hc), Hx.
  unfold bind at 1.
  match goal with |- context [commit_ask ?m ?w1] =>
    rewrite (commit_ask_spec m w1 t (Answer x) rest Ht Ha)
  end.
  rewrite Hdec.
  assert (Hsel :
    (if negb (answer_in (lower (strip x)) ["y"; "yes"]%string)
     then Some (strip x)
     else Some (drafted_message prefix (received c))) = Some msg).
  { unfold msg, answered_message.
    now destruct (answer_in (lower (strip x)) ["y"; "yes"]%string). }
  rewrite Hsel.
  match goal with |- context [commit_make r rel ?ctx msg ?w2] =>
    rewrite (commit_make_spec r rel ctx msg w2 r1 r2 t Hadd Hm Ht)
  end.
  eexists. split; [reflexivity|]. repeat split.
Qed.
End Committing.

Section Interrupted.
Context `{C : Collaborators}.


End Interrupted.

(** X15: every directive that [finditer] reports stands in the response: the
    text of the match is a part of the response and has the form of an edit
    block, with the path, the original and the updated section that the
    groups hold: an optional fence line, the path, white space, an optional
    fence line, the ORIGINAL marker, the original section, the divider, the
    updated section and the UPDATED marker.  The path ends with a file name
    that is not empty. *)
Theorem directives_are_in_the_text x m :
  In m (finditer pattern x) ->
  exists f1 ws f4,
    m_group0 m
    = f1 ++ m_path m ++ ws ++ f4 ++ ORIGINAL
      ++ m_original m ++ DIVIDER ++ m_updated m ++ UPDATED /\
    (f1 = [] \/ fence_shape f1) /\ (f4 = [] \/ fence_shape f4) /\
    ws <> [] /\ forallb isspace ws = true /\
    path_shape (m_path m) /\
    exists a b, x = a ++ m_group0 m ++ b.
Proof.
  intros Hin. apply scan_sound in Hin as (b' & y & st' & [a ->] & Hm & ->).
  apply mtch_sound in Hm as (st2 & Hd & E). inversion E; subst st2.
  apply den_pattern_split in Hd as (st1 & Hh & Ht).
  apply den_head_inv in Hh
    as (f1 & p & ws & f4 & Hm1 & Hf1 & _ & Hp & Hws0 & Hws & Hf4 & Hg & _).
  apply den_tail_inv in Ht as (o & u & Hm2 & Ho & Hu & Hk).
  pose proof (moved_trans _ _ _ _ _ Hm1 Hm2) as Hmv.
  pose proof (moved_consumed _ _ _ Hmv) as Hcons.
  exists f1, ws, f4.
  unfold m_path, m_original, m_updated.
  rewrite !group_glookup. cbn [m_group0].
  rewrite Ho, Hu, (Hk 2), Hg by discriminate. cbn [default].
  rewrite Hcons. split; [now rewrite <- !app_assoc|].
  repeat (split; [assumption|]).
  exists a, (rest st'). destruct Hmv as [Hr _]. cbn [rest] in Hr.
  now rewrite Hr.
Qed.

Section Applying.
Context `{C : Collaborators}.



Lemma dict_has_set {V} k (v : V) d : dict_has k (dict_set k v d) = true.
Proof. unfold dict_has. now rewrite dict_get_set_eq. Qed.

(** X17: when the user allows the creation of a file for a directive whose
    original section is not empty, the path is registered, [do_replace]
    raises [FileNotFoundError] for the file that does not exist, and
    [update_files] ends there: no file is created, and the directives
    behind it are not looked at.  The path stays in the registry without a
    file, so [get_last_modified] raises [FileNotFoundError] from then
    on. *)
Theorem new_file_with_an_original_section inp m more edited w cs b a :
  dict_has (m_path m) (fnames w) = false ->
  disk w !! m_path m = None ->
  confirms w = Answer true :: cs ->
  strip_quoted_wrapping (m_original m) (StrName (m_path m)) = Ok b ->
  strip_quoted_wrapping (m_updated m) (StrName (m_path m)) = Ok a ->
  b <> [] ->
  exists w',
    update_files_loop inp (m :: more) edited w
      = (w', Raise FileNotFoundError) /\
    disk w' = disk w /\
    dict_get (m_path m) (fnames w') = Some 0%Z /\
    current_mtime w' = Raise FileNotFoundError.
Proof.
  intros Hn Hf Hc Hb Ha Hne. cbn [update_files_loop].
  unfold bind at 1. rewrite (allow_edit_asked _ w true cs Hn Hc).
  cbn [negb]. unfold bind at 1.
  rewrite (do_replace_missing _ (m_path m) _ _ b a Hb Ha) by exact Hf || exact Hne.
  eexists. split; [reflexivity|]. split; [reflexivity|]. split.
  - cbn [fnames set_fnames set_confirms]. apply dict_get_set_eq.
  - unfold current_mtime. cbn [disk fnames set_fnames set_confirms].
    rewrite (mtimes_missing _ _ (m_path m)); [reflexivity | | exact Hf].
    apply dict_get_keys, dict_has_set.
Qed.

(** X18: a response with one edit block for a file that is neither tracked
    nor on disk, with an empty original section, creates the file when the
    user allows it: the file holds the updated section as
    [strip_quoted_wrapping] returns it, the path is registered with the
    modification time 0 and is the one path of the edited set; no other
    file changes. *)
Theorem new_file_is_created inp w pre base ext uls post cs u' :
  free_of ORIGINAL pre = true -> file_name base ext = true ->
  free_of UPDATED uls = true ->
  starts_line ORIGINAL (Some "D"%char) post = false ->
  dict_has (base ++ ext) (fnames w) = false ->
  disk w !! (base ++ ext) = None ->
  confirms w = Answer true :: cs ->
  strip_quoted_wrapping (unlines uls) (StrName (base ++ ext)) = Ok u' ->
  exists w',
    update_files
      (unlines pre ++ edit_block (base ++ ext) [] (unlines uls) ++ post)
      inp w
    = (w', Ok {[base ++ ext]}) /\
    text <$> disk w' !! (base ++ ext) = Some u' /\
    dict_get (base ++ ext) (fnames w') = Some 0%Z /\
    confirms w' = cs /\
    forall q, q <> base ++ ext -> disk w' !! q = disk w !! q.
Proof.
  intros Hpre Hname Huls Hpost Hn Hf Hc Hu.
  destruct (scan_block pre [] uls base ext post None Hpre Hname eq_refl
              Huls (unlines_bol None pre eq_refl) (unlines pre) [] eq_refl)
    as (m & E & D).
  change (unlines []) with (@nil ascii) in E, D.
  change (prev_after None []) with (@None ascii) in E.
  unfold update_files, finditer. rewrite E, (scan_no_marker post 0 _ Hpost).
  unfold directive in D. inversion D as [[D1 D2 D3]]. clear D.
  cbn [update_files_loop]. rewrite D1, D2, D3.
  unfold bind at 1. rewrite (allow_edit_asked _ w true cs Hn Hc).
  cbn [negb]. unfold bind at 1.
  set (w1 := set_fnames (dict_set (base ++ ext) 0%Z (fnames w))
               (set_confirms cs w)).
  destruct (do_replace_populates w1 (base ++ ext) [] (unlines uls) u'
              eq_refl Hu) as (w2 & E2 & Ht & Hother).
  { left. apply fmap_None. exact Hf. }
  pose proof (keeps_do_replace fnames (base ++ ext) [] (unlines uls)
                ltac:(red; intros; reflexivity) w1) as Kf.
  pose proof (keeps_do_replace confirms (base ++ ext) [] (unlines uls)
                ltac:(red; intros; reflexivity) w1) as Kc.
  rewrite E2 in Kf, Kc |- *. cbn [fst] in Kf, Kc.
  exists w2. split; [unfold ret; now rewrite union_empty_r_L|].
  split; [exact Ht|]. split; [rewrite Kf; apply dict_get_set_eq|].
  split; [rewrite Kc; reflexivity|].
  intros q Hq. exact (Hother q Hq).
Qed.
End Applying.

Section EndOfInput.
Context `{C : Collaborators}.

Lemma run_turn_eof w more :
  keyboard w = EOF :: more -> run_turn w = (set_keyboard more w, Ok false).
Proof.
  intros Hk. unfold run_turn, try_except, run_loop.
  unfold bind at 1. unfold bind at 1. unfold get_input.
  unfold bind at 1, gets at 1. cbn [get_input_loop].
  unfold bind at 1. unfold input. rewrite Hk. reflexivity.
Qed.

(** X19: the end of the input does not end the session: a turn that meets
    it changes nothing (the count of interrupts is not reset either, and
    nothing is sent or written), and the loop of [run] goes on to the next
    turn. *)
Theorem end_of_input_goes_on n : forall w more,
  keyboard w = repeat EOF n ++ more ->
  let r := run_while n w in
  r.2 = Ok false /\ keyboard r.1 = more /\
  disk r.1 = disk w /\ num_control_c r.1 = num_control_c w /\
  cur_messages r.1 = cur_messages w /\ sent r.1 = sent w.
Proof.
  induction n as [|n IH]; intros w more Hk; cbv zeta.
  - cbn [run_while ret fst snd]. repeat split. exact Hk.
  - cbn [repeat app] in Hk.
    assert (E : run_while (S n) w
                = run_while n (set_keyboard (repeat EOF n ++ more) w)).
    { cbn [run_while]. unfold bind at 1.
      now rewrite (run_turn_eof w (repeat EOF n ++ more) Hk). }
    rewrite E.
    exact (IH (set_keyboard (repeat EOF n ++ more) w) more eq_refl).
Qed.
End EndOfInput.

Lemma lstrip_with_class p a : forall b,
  forallb p a = true -> lstrip_with p (a ++ b) = lstrip_with p b.
Proof.
  induction a as [|c a IH]; intros b H; [reflexivity|].
  cbn [forallb] in H. apply andb_true_iff in H as [Hc Ha].
  cbn [app lstrip_with]. rewrite Hc. now apply IH.
Qed.

Lemma forallb_rev_class (p : ascii -> bool) (a : str) :
  forallb p a = true -> forallb p (rev a) = true.
Proof.
  rewrite !forallb_forall. intros H c Hc. apply H. now apply in_rev.
Qed.

Lemma lstrip_with_outside p b :
  starts_outside p b = true -> lstrip_with p b = b.
Proof.
  destruct b as [|c b]; [reflexivity|]. cbn [starts_outside lstrip_with].
  intros H. apply negb_true_iff in H. now rewrite H.
Qed.

Lemma starts_outside_rev p b : starts_outside p (rev b) = closed_by p b.
Proof. unfold closed_by. now destruct (rev b). Qed.

Lemma starts_outside_app p b c :
  b <> [] -> starts_outside p (b ++ c) = starts_outside p b.
Proof. destruct b; [congruence | reflexivity]. Qed.

Lemma closed_by_app_r p a b : b <> [] -> closed_by p (a ++ b) = closed_by p b.
Proof.
  intros Hb. destruct (exists_last Hb) as (b' & c & ->).
  now rewrite app_assoc, !closed_by_snoc.
Qed.

(** Stripping takes the characters of the class off both ends, up to a text
    that neither starts nor ends with one. *)
Lemma strip_with_spec p a b c :
  forallb p a = true -> forallb p c = true ->
  starts_outside p b = true -> closed_by p b = true ->
  strip_with p (a ++ b ++ c) = b.
Proof.
  intros Ha Hc Hs He. unfold strip_with, rstrip_with.
  rewrite (lstrip_with_class p a _ Ha).
  destruct b as [|c0 b].
  - cbn [app]. rewrite <- (app_nil_r c) at 1.
    rewrite (lstrip_with_class p c [] Hc). reflexivity.
  - rewrite (lstrip_with_outside p ((c0 :: b) ++ c))
      by (rewrite starts_outside_app by discriminate; exact Hs).
    rewrite rev_app_distr.
    rewrite (lstrip_with_class p (rev c)) by (now apply forallb_rev_class).
    rewrite (lstrip_with_outside p (rev (c0 :: b)))
      by (now rewrite starts_outside_rev).
    apply rev_involutive.
Qed.

Section Drafting.
Context `{C : Collaborators}.

(** X22: the commit message is the answer of the model without the white
    space and the double quotes around it: an answer that holds a text
    between double quotes, with white space before and behind them, gives
    that text, behind the prefix if there is one.  The text is one that
    neither starts nor ends with white space or a double quote. *)
Theorem drafted_message_trims prefix ws1 q1 t q2 ws2 :
  forallb isspace ws1 = true -> forallb isspace ws2 = true ->
  forallb is_quote q1 = true -> forallb is_quote q2 = true ->
  t <> [] ->
  starts_outside isspace t = true -> closed_by isspace t = true ->
  starts_outside is_quote t = true -> closed_by is_quote t = true ->
  drafted_message prefix (ws1 ++ (q1 ++ t ++ q2) ++ ws2)
  = match prefix with
    | None | Some [] => t
    | Some pre => pre ++ t
    end.
Proof.
  intros Hw1 Hw2 Hq1 Hq2 Hne Hs1 He1 Hs2 He2.
  assert (Hqs : forall c, is_quote c = true -> isspace c = false).
  { intros c Hc. unfold is_quote in Hc. apply bool_decide_eq_true in Hc.
    apply list_elem_of_singleton in Hc. now subst c. }
  assert (E1 : strip (ws1 ++ (q1 ++ t ++ q2) ++ ws2) = q1 ++ t ++ q2).
  { apply strip_with_spec; auto.
    - destruct q1 as [|c q1].
      + cbn [app]. now rewrite starts_outside_app.
      + cbn [app starts_outside forallb] in *.
        apply andb_true_iff in Hq1 as [Hc _]. now rewrite (Hqs c Hc).
    - rewrite app_assoc. destruct q2 as [|c q2].
      + rewrite app_nil_r. now rewrite closed_by_app_r.
      + apply (closed_by_app isspace is_quote); [exact Hqs | discriminate | exact Hq2]. }
  assert (E2 : strip_chars [DQUOTE] (q1 ++ t ++ q2) = t)
    by (now apply strip_with_spec).
  assert (E3 : strip t = t).
  { rewrite <- (app_nil_r t) at 1.
    now apply (strip_with_spec isspace [] t []). }
  unfold drafted_message. now rewrite E1, E2, E3.
Qed.
End Drafting.

(** * The scenarios *)

Import Fake.



(** Against C2 as it is stated: the path of a directive whose escalation
    the user cancels is in the edited set, though no file has changed. *)
Lemma cancelled_escalation_counts_as_edited :
  let r := update_files unmatched_edit (s "do it") cancelled_escalation in
  (elements <$> match r.2 with Ok e => Some e | Raise _ => None end)
    = Some [foo] /\
  disk r.1 = disk cancelled_escalation.
Proof. cbv zeta. split; vm_compute; reflexivity. Qed.

Lemma update_files_edited_witness :
  exists w' edited',
    update_files_loop (s "do it") [bar_match] ∅ new_file = (w', Ok edited') /\
    bar ∈ edited'.
Proof.
  destruct (update_files_edited (s "do it")) as (_ & H & _).
  destruct (update_files_loop (s "do it") [bar_match] ∅ new_file)
    as [w' [edited'|e]] eqn:E.
  - exists w', edited'. split; [reflexivity|].
    apply (H bar_match [] ∅ new_file w' edited');
      [right; exists []; reflexivity | exact E].
  - exfalso. vm_compute in E. discriminate.
Defined.

Lemma active_buffer_retained_witness :
  cur_messages (run_start small_talk).1 = [] /\
  run_loop_apply (s "hello") (s "hi") small_talk_answered
  = (small_talk_answered, Ok (Some true)) /\
  cur_messages (update_files (s "hi") (s "hello") small_talk_answered).1
  = [Message user (s "hello"); Message assistant (s "hi")].
Proof.
  destruct (active_buffer_retained small_talk) as (H1 & _ & _).
  destruct (active_buffer_retained small_talk_answered) as (_ & _ & H3).
  split; [exact H1|].
  destruct (H3 (s "hello") (s "hi")) as (H4 & H5 & _);
    [vm_compute; reflexivity|].
  split; [exact H4 | exact H5].
Defined.

Lemma applied_edit_is_not_folded_witness :
  (let r := run_loop_apply (s "do it") matched_edit applied_turn_answered in
   r.2 = Raise AttributeError /\
   text <$> disk r.1 !! foo = Some foo_edited /\
   cur_messages r.1
   = [Message user (s "do it"); Message assistant matched_edit] /\
   done_messages r.1 = []) /\
  (let r := run 1 applied_turn in
   r.2 = Raise AttributeError /\
   cur_messages r.1
   = [Message user (s "do it"); Message assistant matched_edit] /\
   done_messages r.1 = []).
Proof.
  cbv zeta. split.
  - assert (E1 : update_files matched_edit (s "do it") applied_turn_answered
                 = ((update_files matched_edit (s "do it")
                       applied_turn_answered).1, Ok {[foo]}))
      by (vm_compute; reflexivity).
    destruct (applied_edit_is_not_folded (s "do it") matched_edit
                applied_turn_answered _ {[foo]} E1
                ltac:(apply non_empty_singleton_L)) as (_ & _ & H3 & H4).
    split; [vm_compute; reflexivity|].
    split; [vm_compute; reflexivity|].
    split; [exact H3 | exact H4].
  - vm_compute. repeat split.
Defined.

(** Against C4 as it is stated: a commit is made, and the message of the
    record that [commit] returns is empty.  The model drafted an empty
    message; the commit goes through, since the context of the history
    stands behind the message. *)
Lemma commit_returns_an_empty_message :
  (commit (Some [Message user (s "hi")]) None false silent_model).2
  = Ok (Some (s "1234567", [])).
Proof. vm_compute. reflexivity. Qed.

Lemma commit_result_witness :
  (commit None None false stale_baseline).2 = Ok None /\
  length (s "1234567") = 7.
Proof.
  destruct (commit_result stale_baseline None None false) as (H1 & _ & _).
  destruct (commit_result silent_model (Some [Message user (s "hi")]) None
              false) as (_ & _ & H3).
  split.
  - apply H1. right. eexists. split; reflexivity.
  - refine (proj1 (H3 _ (s "1234567") [] _)). vm_compute. reflexivity.
Defined.

Lemma escalation_cancelled_witness :
  let w' := (do_gpt_powered_replace foo unmatched_edit (s "do it")
               cancelled_escalation).1 in
  disk w' = disk cancelled_escalation /\
  clock w' = clock cancelled_escalation.
Proof.
  apply (escalation_cancelled cancelled_escalation foo unmatched_edit
           (s "do it") (interrupted_stream (s "par")) []);
    reflexivity.
Defined.

(** Against C6 as it is stated: the file holds the text received before the
    interrupt and the interruption marker, not the response as it was
    received. *)
Lemma last_edit_holds_interrupt_marker :
  text <$> disk (run_turn interrupted_turn).1 !! last_edit_path
  = Some (s "par" ++ [LF] ++ s "^C KeyboardInterrupt") /\
  received (interrupted_stream (s "par")) = s "par".
Proof. split; vm_compute; reflexivity. Qed.

Lemma last_edit_written_witness :
  exists w1,
    run_loop_respond [] cancelled_escalation
    = (w1, Ok (s "par" ++ interrupt_marker, true)) /\
    text <$> disk w1 !! last_edit_path = Some (s "par" ++ interrupt_marker).
Proof.
  destruct (last_edit_written cancelled_escalation [] (s "do it")
              (interrupted_stream (s "par")) [] eq_refl (or_introl eq_refl))
    as (w1 & E & Ht & _).
  exists w1. split; [exact E | exact Ht].
Defined.

Lemma commit_ask_baseline_witness :
  let w' := (commit None None true declined_commit).1 in
  answers w' = [] /\ last_modified w' = 200%Z /\
  current_mtime w' = Ok (last_modified w').
Proof.
  cbv zeta.
  destruct (commit_ask_baseline declined_commit None None
              (MkRepo [(foo, foo_text)] [] [])
              (line "--- a" ++ foo_text ++ line "+++ b" ++ foo_edited ++ [LF])
              [foo] [foo] (whole (s "msg")) [] 200%Z (Answer (s "n")) []
              eq_refl eq_refl eq_refl ltac:(discriminate) eq_refl eq_refl
              eq_refl eq_refl) as (H1 & H2 & H3 & _).
  split; [exact H1|]. split; [exact H2 | exact H3].
Defined.

Lemma registry_only_grows_witness :
  dict_get bar
    (fnames (update_files_loop (s "do it") [bar_match] ∅ new_file).1)
  = Some 0%Z /\
  registry_grows small_talk (run_turn small_talk).1.
Proof.
  destruct registry_only_grows as (H1 & H2 & _). split.
  - apply (H1 (s "do it") bar_match [] ∅ new_file []); reflexivity.
  - apply H2. exact 0.
Defined.


Lemma two_interrupts_end_the_session_witness :
  exists w',
    run 2 (scripted [KeyCtrlC; KeyCtrlC; Line (s "hello")] [] [] [] start)
    = (w', Ok true) /\
    disk w' = disk start /\ clock w' = clock start /\
    keyboard w' = [Line (s "hello")] /\ num_control_c w' = 2%Z.
Proof.
  apply (two_interrupts_end_the_session
           (scripted [KeyCtrlC; KeyCtrlC; Line (s "hello")] [] [] [] start)
           [Line (s "hello")] 0).
  reflexivity.
Defined.


Lemma send_returns_the_text_received_witness :
  exists w',
    send [Message user (s "hello")] None 0 false
      (scripted [] [] [] [interrupted_stream (s "par")] start)
    = (w', Ok (s "par", true)) /\
    resp w' = s "par" /\
    sent w' = [(s "gpt-4", [Message user (s "hello")])] /\
    completions w' = [] /\
    disk w' = disk start /\ fnames w' = fnames start.
Proof.
  apply (send_returns_the_text_received [Message user (s "hello")] None 0
           false (scripted [] [] [] [interrupted_stream (s "par")] start)
           (interrupted_stream (s "par")) []);
    [reflexivity | right; left; reflexivity].
Defined.

Lemma send_asserts_in_colour_witness :
  exists w',
    send [Message user (s "hello")] None 0 false
      (set_pretty true
         (scripted [] [] []
            [[Chunk None (Some (s "par")); Chunk (Some (s "length")) None;
              Chunk None (Some (s "t"))]] start))
    = (w', Raise AssertionError) /\
    resp w' = s "par" /\ disk w' = disk start.
Proof.
  apply (send_asserts_in_colour [Message user (s "hello")] None
           (set_pretty true
              (scripted [] [] []
                 [[Chunk None (Some (s "par")); Chunk (Some (s "length")) None;
                   Chunk None (Some (s "t"))]] start))
           [Chunk None (Some (s "par"))] (Some (s "length")) None
           [Chunk None (Some (s "t"))] []); reflexivity.
Defined.

Lemma transcript_of_a_turn_witness :
  run_loop_prepare (s "hello") (set_cur_messages [Message user (s "hi")] start)
  = (set_cur_messages [Message user (s "hi"); Message user (s "hello")]
       (set_num_control_c 0 (set_cur_messages [Message user (s "hi")] start)),
     Ok ([Message system (main_system prompts ++ system_reminder prompts)]
         ++ []
         ++ files_frame
              ([LF] ++ foo ++ [LF] ++ line "```" ++ foo_text ++ [LF]
               ++ line "```")
         ++ [Message user (s "hi")] ++ [Message user (s "hello")])).
Proof.
  apply (transcript_of_a_turn (s "hello")
           (set_cur_messages [Message user (s "hi")] start) 100%Z);
    [reflexivity | vm_compute; discriminate | reflexivity].
Defined.

Lemma local_edits_without_a_commit_witness :
  let w' := (run_loop_prepare (s "hello")
               (set_cur_messages [Message user (s "hi")] stale_baseline)).1 in
  done_messages w' = [Message user (s "hi")] ++ local_edits_marker /\
  cur_messages w' = [Message user (s "hello")] /\
  last_modified w' = 50%Z /\
  current_mtime w' = Ok 100%Z /\ disk w' = disk stale_baseline.
Proof.
  apply (local_edits_without_a_commit (s "hello")
           (set_cur_messages [Message user (s "hi")] stale_baseline) 100%Z);
    [right; eexists; split; reflexivity | reflexivity | reflexivity].
Defined.


Lemma strip_quoted_wrapping_unwraps_witness :
  strip_quoted_wrapping
    (unlines [s "```python"; s "def f():"; s "    return 2"; s "```"])
    (StrName foo)
  = Ok (add_final_newline (join [LF] [s "def f():"; s "    return 2"])) /\
  strip_quoted_wrapping
    (unlines [s "src/foo.py"; s "```python"; s "def f():"; s "    return 2";
              s "```"])
    (StrName foo)
  = Ok (add_final_newline (join [LF] [s "def f():"; s "    return 2"])) /\
  add_final_newline (join [LF] [s "def f():"; s "    return 2"])
  = unlines [s "def f():"; s "    return 2"].
Proof.
  destruct (strip_quoted_wrapping_unwraps (StrName foo) (s "```python")
              (s "```") [s "def f():"; s "    return 2"]
              eq_refl eq_refl eq_refl) as (H1 & H2 & H3).
  split; [apply H1; reflexivity|].
  split; [apply (H2 (s "src/foo.py")); reflexivity|].
  apply H3; discriminate.
Defined.

Lemma do_replace_by_the_matcher_witness :
  do_replace foo (line "    return 1") (line "    return 2") start
  = (set_disk (<[foo := MkFile foo_edited (clock start)]> (disk start))
       (clock start + 1) start, Ok true) /\
  do_replace foo (line "    return 3") (line "    return 2") start
  = (start, Ok false) /\
  do_replace bar (line "    return 1") (line "    return 2") start
  = (start, Raise FileNotFoundError).
Proof.
  assert (E1 : strip_quoted_wrapping (line "    return 1") (StrName foo)
               = Ok (line "    return 1")) by (vm_compute; reflexivity).
  assert (E2 : strip_quoted_wrapping (line "    return 2") (StrName foo)
               = Ok (line "    return 2")) by (vm_compute; reflexivity).
  assert (E3 : strip_quoted_wrapping (line "    return 3") (StrName foo)
               = Ok (line "    return 3")) by (vm_compute; reflexivity).
  assert (F1 : strip_quoted_wrapping (line "    return 1") (StrName bar)
               = Ok (line "    return 1")) by (vm_compute; reflexivity).
  assert (F2 : strip_quoted_wrapping (line "    return 2") (StrName bar)
               = Ok (line "    return 2")) by (vm_compute; reflexivity).
  assert (Hf : disk start !! foo = Some (MkFile foo_text 100))
    by (vm_compute; reflexivity).
  assert (Hb : disk start !! bar = None) by (vm_compute; reflexivity).
  assert (Hne : forall x : string, line x <> []).
  { intros x H. apply (f_equal (@length ascii)) in H.
    unfold line in H. rewrite length_app in H. simpl in H. lia. }
  split; [|split].
  - destruct (do_replace_by_the_matcher start foo _ _ _ _ E1 E2) as (H & _).
    apply (proj2 (H _ Hf (or_introl (Hne _))) foo_edited);
      [vm_compute; reflexivity | apply (Hne "def f():"%string) || discriminate].
  - destruct (do_replace_by_the_matcher start foo _ _ _ _ E3 E2) as (H & _).
    apply (proj1 (H _ Hf (or_introl (Hne _)))).
    left. vm_compute. reflexivity.
  - destruct (do_replace_by_the_matcher start bar _ _ _ _ F1 F2) as (_ & H).
    apply H; [exact Hb | apply Hne].
Defined.

Lemma escalation_rewrites_the_file_witness :
  let w := scripted [] [] [] [whole (unlines [s "```"; s "x = 1"; s "```"])]
             start in
  let r := do_gpt_powered_replace foo unmatched_edit (s "do it") w in
  sent r.1
  = [(s "gpt-3.5-turbo",
      [Message system (editor_system prompts);
       Message user
         (editor_user_format prompts (s "do it") unmatched_edit foo
            foo_text)])] /\
  r.2 = Ok tt /\ text <$> disk r.1 !! foo = Some (line "x = 1") /\
  do_gpt_powered_replace bar unmatched_edit (s "do it") w
  = (w, Raise FileNotFoundError).
Proof.
  cbv zeta.
  destruct (escalation_rewrites_the_file
              (scripted [] [] []
                 [whole (unlines [s "```"; s "x = 1"; s "```"])] start)
              foo unmatched_edit (s "do it")) as (H & _).
  destruct (escalation_rewrites_the_file
              (scripted [] [] []
                 [whole (unlines [s "```"; s "x = 1"; s "```"])] start)
              bar unmatched_edit (s "do it")) as (_ & H').
  specialize (H (MkFile foo_text 100)
                (whole (unlines [s "```"; s "x = 1"; s "```"])) []
                eq_refl eq_refl eq_refl ltac:(discriminate)).
  cbv zeta in H. destruct H as (Hs & Hr).
  split; [exact Hs|].
  change (strip_quoted_wrapping
            (received (whole (unlines [s "```"; s "x = 1"; s "```"])))
            (PathName foo))
    with (@Ok str (line "x = 1")) in Hr.
  destruct Hr as (H2 & H3 & _).
  split; [exact H2|]. split; [exact H3|].
  apply H'. reflexivity.
Defined.

Lemma commit_interrupted_while_drafting_witness :
  exists w',
    commit None None true
      (scripted [] [] [Answer (s "y")] [interrupted_stream (s "par")]
         edited_outside)
    = (w', Raise KeyboardInterrupt) /\
    repo w' = repo edited_outside /\ last_modified w' = 100%Z /\
    answers w' = [Answer (s "y")] /\ disk w' = disk edited_outside.
Proof.
  apply (commit_interrupted_while_drafting
           (scripted [] [] [Answer (s "y")] [interrupted_stream (s "par")]
              edited_outside)
           None None true (MkRepo [(foo, foo_text)] [] [])
           (line "--- a" ++ foo_text ++ line "+++ b" ++ foo_edited ++ [LF])
           [foo] [foo] (interrupted_stream (s "par")) []);
    first [discriminate | vm_compute; reflexivity].
Defined.

Lemma commit_makes_the_commit_witness :
  exists w',
    commit (Some [Message user (s "hi")]) (Some (s "aider: ")) false
      (scripted [] [] [] [whole ([" "%char; DQUOTE] ++ s "Return 2" ++ [DQUOTE; LF])]
         edited_outside)
    = (w', Ok (Some (s "1234567", s "aider: Return 2"))) /\
    repo w'
    = Some (MkRepo [(foo, foo_edited)] []
              [s "aider: Return 2" ++ [LF; LF]
               ++ history_context (Some [Message user (s "hi")])]) /\
    last_modified w' = 200%Z /\ disk w' = disk edited_outside /\
    sent w'
    = [(s "gpt-3.5-turbo",
        [Message system (commit_system prompts);
         Message user
           (history_context (Some [Message user (s "hi")])
            ++ line "# Diffs:"
            ++ line "--- a" ++ foo_text ++ line "+++ b" ++ foo_edited
            ++ [LF])])].
Proof.
  apply (commit_makes_the_commit
           (scripted [] [] []
              [whole ([" "%char; DQUOTE] ++ s "Return 2" ++ [DQUOTE; LF])]
              edited_outside)
           (Some [Message user (s "hi")]) (Some (s "aider: "))
           (MkRepo [(foo, foo_text)] [] [])
           (line "--- a" ++ foo_text ++ line "+++ b" ++ foo_edited ++ [LF])
           [foo] [foo]
           (whole ([" "%char; DQUOTE] ++ s "Return 2" ++ [DQUOTE; LF])) []
           (MkRepo [(foo, foo_text)] [foo] [])
           (MkRepo [(foo, foo_edited)] []
              [s "aider: Return 2" ++ [LF; LF]
               ++ history_context (Some [Message user (s "hi")])])
           200%Z);
    first [discriminate | vm_compute; reflexivity].
Defined.

Lemma commit_with_the_answer_of_the_user_witness :
  exists w',
    commit None (Some (s "aider: ")) true
      (scripted [] [] [Answer (s " Return two ")] [whole (s "Return 2")]
         edited_outside)
    = (w', Ok (Some (s "1234567", s "Return two"))) /\
    repo w'
    = Some (MkRepo [(foo, foo_edited)] [] [s "Return two" ++ [LF; LF]]) /\
    answers w' = [] /\ last_modified w' = 200%Z.
Proof.
  apply (commit_with_the_answer_of_the_user
           (scripted [] [] [Answer (s " Return two ")] [whole (s "Return 2")]
              edited_outside)
           None (Some (s "aider: ")) (MkRepo [(foo, foo_text)] [] [])
           (line "--- a" ++ foo_text ++ line "+++ b" ++ foo_edited ++ [LF])
           [foo] [foo] (whole (s "Return 2")) [] (s " Return two ") []
           (MkRepo [(foo, foo_text)] [foo] [])
           (MkRepo [(foo, foo_edited)] [] [s "Return two" ++ [LF; LF]])
           200%Z);
    first [discriminate | vm_compute; reflexivity].
Defined.


Lemma directives_are_in_the_text_witness :
  exists f1 ws f4,
    edit_block bar [] (line "x = 1")
    = f1 ++ bar ++ ws ++ f4 ++ ORIGINAL
      ++ [] ++ DIVIDER ++ line "x = 1" ++ UPDATED /\
    (f1 = [] \/ fence_shape f1) /\ (f4 = [] \/ fence_shape f4) /\
    ws <> [] /\ forallb isspace ws = true /\
    path_shape bar /\
    exists a b,
      line "Here is the file:" ++ edit_block bar [] (line "x = 1") ++ [LF]
      = a ++ edit_block bar [] (line "x = 1") ++ b.
Proof.
  apply (directives_are_in_the_text
           (line "Here is the file:" ++ edit_block bar [] (line "x = 1")
            ++ [LF])
           (RMatch [(6, line "x = 1"); (5, []); (2, bar); (3, s ".py")]
              (edit_block bar [] (line "x = 1")))).
  vm_compute. left. reflexivity.
Defined.


Lemma end_of_input_goes_on_witness :
  let r := run_while 2
             (scripted [EOF; EOF; Line (s "hello")] [] [] []
                (set_num_control_c 1 start)) in
  r.2 = Ok false /\ keyboard r.1 = [Line (s "hello")] /\
  disk r.1 = disk start /\ num_control_c r.1 = 1%Z /\
  cur_messages r.1 = [] /\ sent r.1 = [].
Proof.
  apply (end_of_input_goes_on 2
           (scripted [EOF; EOF; Line (s "hello")] [] [] []
              (set_num_control_c 1 start))
           [Line (s "hello")]).
  reflexivity.
Defined.

Lemma drafted_message_trims_witness :
  drafted_message (Some (s "aider: "))
    ([" "%char] ++ ([DQUOTE] ++ s "Return 2" ++ [DQUOTE]) ++ [LF])
  = s "aider: " ++ s "Return 2".
Proof.
  apply (drafted_message_trims (Some (s "aider: ")) [" "%char] [DQUOTE]
           (s "Return 2") [DQUOTE] [LF]);
    first [discriminate | vm_compute; reflexivity].
Defined.

Lemma new_file_with_an_original_section_witness :
  exists w',
    update_files_loop (s "do it")
      [RMatch [(6, line "x = 2"); (5, line "x = 1"); (2, bar)]
         (edit_block bar (line "x = 1") (line "x = 2"));
       bar_match] ∅ new_file
    = (w', Raise FileNotFoundError) /\
    disk w' = disk new_file /\
    dict_get bar (fnames w') = Some 0%Z /\
    current_mtime w' = Raise FileNotFoundError.
Proof.
  apply (new_file_with_an_original_section (s "do it")
           (RMatch [(6, line "x = 2"); (5, line "x = 1"); (2, bar)]
              (edit_block bar (line "x = 1") (line "x = 2")))
           [bar_match] ∅ new_file [] (line "x = 1") (line "x = 2"));
    first [discriminate | vm_compute; reflexivity].
Defined.

Lemma new_file_is_created_witness :
  exists w',
    update_files
      (unlines [s "Here is the file:"]
       ++ edit_block (s "bar" ++ s ".py") [] (unlines [s "x = 1"]) ++ [LF])
      (s "do it") new_file
    = (w', Ok {[s "bar" ++ s ".py"]}) /\
    text <$> disk w' !! (s "bar" ++ s ".py") = Some (line "x = 1") /\
    dict_get (s "bar" ++ s ".py") (fnames w') = Some 0%Z /\
    confirms w' = [] /\
    disk w' !! foo = disk new_file !! foo.
Proof.
  destruct (new_file_is_created (s "do it") new_file [s "Here is the file:"]
              (s "bar") (s ".py") [s "x = 1"] [LF] [] (line "x = 1"))
    as (w' & H1 & H2 & H3 & H4 & H5);
    try (vm_compute; reflexivity).
  exists w'. split; [exact H1|]. split; [exact H2|]. split; [exact H3|].
  split; [exact H4|]. apply H5. vm_compute. discriminate.
Defined.
